(** * Wavetable synthesiser: the audio worklet processor

    A shallow embedding of [src/audio/processor.ts] (the per-channel
    version, lines 1-250): the voice pool, the ADSR envelope state
    machine, the wavetable oscillator and the control messages, with the
    properties of the specification stated over them.

    Numbers.  A [number] of the model is a JavaScript number that is
    finite and not [NaN], taken as an exact rational ([Q]): a message
    field, an ADSR parameter, a table entry or a coordinate in a
    statement below is such a number, and this is part of the
    statement's premise.  Arithmetic is not rounded; statements are
    about orderings, ranges that the code enforces by comparing and
    assigning, positions in arrays and the stages a voice is in, none
    of which depends on how the last digit is rounded.  A wavetable
    read outside [0..31] yields [undefined], hence [NaN] once
    multiplied; this is kept: the mixed sample is an [option number]
    whose [None] is [NaN].  The only division by a quantity the program
    does not test first is the one by the sample rate, which the host
    supplies and which is positive; the statement that depends on its
    value assumes so.  [Math.pow], [Math.sin] and [Math.PI] are library
    functions with irrational values; they are parameters of the
    development.

    Messages.  A message of the model carries the payload its type
    needs, as [SynthEngine] posts it; a message without one is not
    modelled.

    Effects.  The methods mutate the processor in place, and [process]
    can throw in the middle of a block: every method is a function from
    the processor to the processor afterwards, paired with the way the
    call completed. *)

From Stdlib Require Import QArith Qround Qminmax ZArith Lia Lqa.
From stdpp Require Import base decidable option list.

Local Open Scope Q_scope.

(** ** Data model (processor.ts, lines 6-33) *)

Definition number := Q.

(** [x > y] and [x >= y], [x <= y] on numbers, as booleans. *)
Definition gtb (x y : number) : bool := negb (Qle_bool x y).
Definition geb (x y : number) : bool := Qle_bool y x.
Definition leb (x y : number) : bool := Qle_bool x y.
(** [x === y] on numbers. *)
Definition eqb (x y : number) : bool := Qeq_bool x y.

Record ADSR := mkADSR {
  a : number;  (* Attack time (seconds) *)
  d : number;  (* Decay time (seconds) *)
  s : number;  (* Sustain level (0-1) *)
  r : number   (* Release time (seconds) *)
}.

Inductive EnvState := IDLE | ATTACK | DECAY | SUSTAIN | RELEASE.

#[global] Instance EnvState_eq_dec : EqDecision EnvState.
Proof. solve_decision. Defined.

Record Voice := mkVoice {
  active : bool;
  channel : number;            (* MIDI Channel 0-15 *)
  note : number;
  phase : number;              (* Phase in the wavetable (0-31.99) *)
  phaseStep : number;          (* How much to increment phase per sample *)
  envState : EnvState;
  envTime : number;            (* Time spent in current state (samples) *)
  envLevel : number;           (* Current envelope level *)
  releaseStartLevel : number;  (* Level when release was triggered *)
  velocity : number            (* 0-1 *)
}.

(** A [Float32Array] is a list of numbers (its rounding to single
    precision is not modelled). *)
Definition Float32Array := list number.

Record ChannelState := mkChannelState {
  wavetable : Float32Array;
  adsr : ADSR
}.

Definition WAVETABLE_SIZE : number := 32.

Record WavetableProcessor := mkProcessor {
  channels : list ChannelState;
  voices : list Voice;
  sampleRateVal : number
}.

(** What a method call does besides changing the processor: it returns
    normally, or throws. *)
Inductive Exception := TypeError | RangeError.

Inductive completion (A : Type) :=
  | Normal (x : A)
  | Throw (e : Exception).
Arguments Normal {A} x.
Arguments Throw {A} e.

(** ** Arrays *)

(** [arr[k]] for a number [k]: an element when [k] is a non-negative
    integer below the length, [undefined] ([None]) otherwise. *)
Definition array_index (k : number) : option nat :=
  let k' := Qred k in
  if ((Z.pos (Qden k') =? 1) && (0 <=? Qnum k'))%Z
  then Some (Z.to_nat (Qnum k')) else None.

Definition array_get {A} (arr : list A) (k : number) : option A :=
  match array_index k with
  | Some i => arr !! i
  | None => None
  end.

(** [dst.set(src)] on typed arrays: the elements of [src] overwrite the
    front of [dst]; a source longer than the target is a [RangeError]
    and writes nothing. *)
Definition typed_set {A} (dst src : list A) : completion (list A) :=
  if (length src <=? length dst)%nat
  then Normal (src ++ drop (length src) dst)
  else Throw RangeError.

(** The channel index [k] as a number. *)
Definition chan (k : nat) : number := inject_Z (Z.of_nat k).

(** Field assignments [v.f = x]. *)
Definition set_active (v : Voice) (x : bool) : Voice :=
  mkVoice x (channel v) (note v) (phase v) (phaseStep v) (envState v)
          (envTime v) (envLevel v) (releaseStartLevel v) (velocity v).
Definition set_phase (v : Voice) (x : number) : Voice :=
  mkVoice (active v) (channel v) (note v) x (phaseStep v) (envState v)
          (envTime v) (envLevel v) (releaseStartLevel v) (velocity v).
Definition set_envState (v : Voice) (x : EnvState) : Voice :=
  mkVoice (active v) (channel v) (note v) (phase v) (phaseStep v) x
          (envTime v) (envLevel v) (releaseStartLevel v) (velocity v).
Definition set_envTime (v : Voice) (x : number) : Voice :=
  mkVoice (active v) (channel v) (note v) (phase v) (phaseStep v) (envState v)
          x (envLevel v) (releaseStartLevel v) (velocity v).
Definition set_envLevel (v : Voice) (x : number) : Voice :=
  mkVoice (active v) (channel v) (note v) (phase v) (phaseStep v) (envState v)
          (envTime v) x (releaseStartLevel v) (velocity v).
Definition set_releaseStartLevel (v : Voice) (x : number) : Voice :=
  mkVoice (active v) (channel v) (note v) (phase v) (phaseStep v) (envState v)
          (envTime v) (envLevel v) x (velocity v).

(** ** Control messages ([event.data] of [handleMessage]) *)

Inductive Message :=
  | NOTE_ON (n vel ch : number)
  | NOTE_OFF (n ch : number)
  | SET_CHANNEL_WAVETABLE (ch : number) (wt : Float32Array)
  | SET_CHANNEL_ADSR (ch : number) (env : ADSR)
  | STOP_ALL
  | OTHER.  (* any other [type]: no branch of [handleMessage] is taken *)

(** A mixed sample: [None] is [NaN]. *)
Definition sample := option number.

Section Processor.

Variable Math_pow : number -> number -> number.
Variable Math_sin : number -> number.
Variable Math_PI : number.

(** ** The constructor (lines 40-75) *)

Definition defaultWavetable : Float32Array :=
  map (fun i : nat =>
         Math_sin ((inject_Z (Z.of_nat i) / WAVETABLE_SIZE) * 2 * Math_PI))
      (seq 0 32).

Definition defaultChannel : ChannelState :=
  {| wavetable := defaultWavetable;
     adsr := {| a := 0.1; d := 0.1; s := 0.5; r := 0.2 |} |}.

Definition idleVoice : Voice :=
  {| active := false; channel := 0; note := 0; phase := 0; phaseStep := 0;
     envState := IDLE; envTime := 0; envLevel := 0; releaseStartLevel := 0;
     velocity := 0 |}.

Definition construct (sampleRate : number) : WavetableProcessor :=
  {| channels := replicate 16 defaultChannel;
     voices := replicate 6 idleVoice;
     sampleRateVal := sampleRate |}.

(** ** triggerAttack (lines 102-127) *)

(** Lines 105-112: the index of the voice object the three lookups
    settle on; [None] when [this.voices[0]] is [undefined]. *)
Definition selectVoice (vs : list Voice) : option nat :=
  match list_find (fun v => envState v = IDLE) vs with
  | Some (i, _) => Some i
  | None =>
      match list_find (fun v => envState v = RELEASE) vs with
      | Some (i, _) => Some i
      | None => match vs with [] => None | _ :: _ => Some 0%nat end
      end
  end.

(** Lines 114-126: the assignments to the selected voice. *)
Definition attack (sr n vel ch : number) (voice : Voice) : Voice :=
  let freq := 440 * Math_pow 2 ((n - 69) / 12) in
  {| active := true;
     note := n;
     channel := ch;
     phaseStep := (freq / sr) * WAVETABLE_SIZE;
     phase := 0;
     velocity := vel / 127;
     envState := ATTACK;
     envTime := 0;
     envLevel := 0;
     releaseStartLevel := releaseStartLevel voice |}.

Definition triggerAttack (p : WavetableProcessor) (n vel ch : number)
  : WavetableProcessor * completion unit :=
  match selectVoice (voices p) with
  | None => (p, Throw TypeError)
  | Some i =>
      ({| channels := channels p;
          voices := alter (attack (sampleRateVal p) n vel ch) i (voices p);
          sampleRateVal := sampleRateVal p |}, Normal tt)
  end.

(** ** triggerRelease (lines 129-138) *)

Definition releases (n ch : number) (v : Voice) : bool :=
  active v && eqb (note v) n && eqb (channel v) ch
  && negb (bool_decide (envState v = RELEASE))
  && negb (bool_decide (envState v = IDLE)).

Definition release (v : Voice) : Voice :=
  set_releaseStartLevel (set_envTime (set_envState v RELEASE) 0) (envLevel v).

Definition triggerRelease (p : WavetableProcessor) (n ch : number)
  : WavetableProcessor :=
  {| channels := channels p;
     voices := (fun v => if releases n ch v then release v else v) <$> voices p;
     sampleRateVal := sampleRateVal p |}.

(** ** handleMessage (lines 77-100) *)

Definition stop (v : Voice) : Voice :=
  set_envLevel (set_envState (set_active v false) IDLE) 0.

Definition handleMessage (p : WavetableProcessor) (m : Message)
  : WavetableProcessor * completion unit :=
  match m with
  | NOTE_ON n vel ch => triggerAttack p n vel ch
  | NOTE_OFF n ch => (triggerRelease p n ch, Normal tt)
  | SET_CHANNEL_WAVETABLE c wt =>
      match array_index c with
      | None => (p, Normal tt)
      | Some i =>
          match channels p !! i with
          | None => (p, Normal tt)
          | Some ch =>
              if (length wt =? 32)%nat then
                match typed_set (wavetable ch) wt with
                | Throw e => (p, Throw e)
                | Normal w =>
                    ({| channels :=
                          <[i := {| wavetable := w; adsr := adsr ch |}]> (channels p);
                        voices := voices p;
                        sampleRateVal := sampleRateVal p |}, Normal tt)
                end
              else (p, Normal tt)
          end
      end
  | SET_CHANNEL_ADSR c env =>
      match array_index c with
      | None => (p, Normal tt)
      | Some i =>
          match channels p !! i with
          | None => (p, Normal tt)
          | Some ch =>
              ({| channels :=
                    <[i := {| wavetable := wavetable ch; adsr := env |}]> (channels p);
                  voices := voices p;
                  sampleRateVal := sampleRateVal p |}, Normal tt)
          end
      end
  | STOP_ALL =>
      ({| channels := channels p;
          voices := stop <$> voices p;
          sampleRateVal := sampleRateVal p |}, Normal tt)
  | OTHER => (p, Normal tt)
  end.

(** ** process (lines 140-247) *)

(** Lines 158-209: the envelope [switch] on one active voice. *)
Definition envelopeLogic (env : ADSR) (sr : number) (voice : Voice) : Voice :=
  match envState voice with
  | ATTACK =>
      let aSamples := a env * sr in
      if leb aSamples 0 then
        set_envTime (set_envState (set_envLevel voice 1) DECAY) 0
      else
        let stepSize := 1 / aSamples in
        let voice := set_envLevel voice (envLevel voice + stepSize) in
        if geb (envLevel voice) 1 then
          set_envTime (set_envState (set_envLevel voice 1) DECAY) 0
        else voice
  | DECAY =>
      let dSamples := d env * sr in
      if leb dSamples 0 then
        set_envState (set_envLevel voice (s env)) SUSTAIN
      else
        let stepSize := (1 - s env) / dSamples in
        let voice := set_envLevel voice (envLevel voice - stepSize) in
        if leb (envLevel voice) (s env) then
          set_envState (set_envLevel voice (s env)) SUSTAIN
        else voice
  | SUSTAIN => set_envLevel voice (s env)
  | RELEASE =>
      let rSamples := r env * sr in
      if leb rSamples 0 then
        set_envState (set_active (set_envLevel voice 0) false) IDLE
      else
        let stepSize := releaseStartLevel voice / rSamples in
        let voice := set_envLevel voice (envLevel voice - stepSize) in
        if leb (envLevel voice) 0 then
          set_envState (set_active (set_envLevel voice 0) false) IDLE
        else voice
  | IDLE => voice
  end.

(** Line 212. *)
Definition currentGain (voice : Voice) : number :=
  envLevel voice * velocity voice.

(** Line 222: [wavetable[i] * (1 - frac) + wavetable[nextI] * frac];
    a read outside the table is [undefined] and the result [NaN]. *)
Definition interpolate (table : Float32Array) (i nextI : Z) (frac : number)
  : sample :=
  match array_get table (inject_Z i), array_get table (inject_Z nextI) with
  | Some x, Some y => Some (x * (1 - frac) + y * frac)
  | _, _ => None
  end.

(** Lines 215-231: table lookup, accumulation and phase increment. *)
Definition wavetableLogic (table : Float32Array) (voice : Voice)
    (sampleSum : sample) : Voice * sample :=
  if gtb (currentGain voice) 0.0001 then
    let index := phase voice in
    let i := Qfloor index in
    let frac := index - inject_Z i in
    let nextI := Z.rem (i + 1) 32 in
    let val := interpolate table i nextI frac in
    let sampleSum :=
      match sampleSum, val with
      | Some acc, Some x => Some (acc + x * currentGain voice)
      | _, _ => None
      end in
    let voice := set_phase voice (phase voice + phaseStep voice) in
    let voice :=
      if geb (phase voice) WAVETABLE_SIZE
      then set_phase voice (phase voice - WAVETABLE_SIZE) else voice in
    (voice, sampleSum)
  else (voice, sampleSum).

(** Lines 149-231: the body of the loop over the voices, for one voice
    and the running [sampleSum]. *)
Definition voiceStep (chs : list ChannelState) (sr : number)
    (voice : Voice) (sampleSum : sample) : completion (Voice * sample) :=
  if negb (active voice) then Normal (voice, sampleSum)  (* continue *)
  else
    match array_get chs (channel voice) with
    | None => Throw TypeError  (* chState.adsr of undefined *)
    | Some chState =>
        let voice := envelopeLogic (adsr chState) sr voice in
        Normal (wavetableLogic (wavetable chState) voice sampleSum)
    end.

(** Lines 148-232: the loop over the voices for one output sample.  The
    voices already visited keep their updates when a later one throws. *)
Fixpoint voiceLoop (chs : list ChannelState) (sr : number)
    (vs : list Voice) (sampleSum : sample) : list Voice * completion sample :=
  match vs with
  | [] => ([], Normal sampleSum)
  | voice :: rest =>
      match voiceStep chs sr voice sampleSum with
      | Throw e => (voice :: rest, Throw e)
      | Normal (voice', sampleSum) =>
          let '(rest', c) := voiceLoop chs sr rest sampleSum in
          (voice' :: rest', c)
      end
  end.

(** Lines 146-238: one iteration of the sample loop; the value is what
    is stored in [channelData[i]]. *)
Definition renderSample (p : WavetableProcessor)
  : WavetableProcessor * completion sample :=
  let '(vs, c) := voiceLoop (channels p) (sampleRateVal p) (voices p) (Some 0) in
  ({| channels := channels p; voices := vs; sampleRateVal := sampleRateVal p |},
   match c with
   | Normal sampleSum => Normal ((fun x => x / 4) <$> sampleSum)
   | Throw e => Throw e
   end).

(** Lines 145-239: [bufferLength] iterations. *)
Fixpoint sampleLoop (p : WavetableProcessor) (bufferLength : nat)
  : WavetableProcessor * completion (list sample) :=
  match bufferLength with
  | O => (p, Normal [])
  | S n =>
      match renderSample p with
      | (p', Throw e) => (p', Throw e)
      | (p', Normal x) =>
          match sampleLoop p' n with
          | (p'', Throw e) => (p'', Throw e)
          | (p'', Normal xs) => (p'', Normal (x :: xs))
          end
      end
  end.

(** Lines 241-244: [output[ch].set(channelData)] for every further
    channel. *)
Fixpoint copyChannels (channelData : list sample) (others : list (list sample))
  : completion (list (list sample)) :=
  match others with
  | [] => Normal []
  | o :: rest =>
      match typed_set o channelData with
      | Throw e => Throw e
      | Normal o' =>
          match copyChannels channelData rest with
          | Throw e => Throw e
          | Normal rest' => Normal (o' :: rest')
          end
      end
  end.

(** [process(inputs, outputs, parameters)]: the processor afterwards,
    and either the written [outputs[0]] with the returned [true], or the
    exception.  Neither [inputs] nor [parameters] is read. *)
Definition process (p : WavetableProcessor) (outputs : list (list (list sample)))
  : WavetableProcessor * completion (list (list sample) * bool) :=
  match outputs with
  | [] => (p, Throw TypeError)            (* output[0] of undefined *)
  | [] :: _ => (p, Throw TypeError)       (* channelData.length of undefined *)
  | (channelData :: others) :: _ =>
      match sampleLoop p (length channelData) with
      | (p', Throw e) => (p', Throw e)
      | (p', Normal data) =>
          match copyChannels data others with
          | Throw e => (p', Throw e)
          | Normal others' => (p', Normal (data :: others', true))
          end
      end
  end.

End Processor.

(** ** Runs of the processor *)

(** The messages of a list handled one after the other, with no
    rendering in between.  An exception of one handler does not stop
    the next message from being delivered. *)
Definition handleAll (pow : number -> number -> number)
    (p : WavetableProcessor) (ms : list Message) : WavetableProcessor :=
  foldl (fun p m => fst (handleMessage pow p m)) p ms.

(** The states the processor can be in: constructed at sample rate
    [sampleRate], then driven by any messages that satisfy [ok] and by
    any calls of [process]. *)
Inductive reachable (pow : number -> number -> number)
    (sin : number -> number) (PI : number)
    (ok : Message -> Prop) (sampleRate : number) : WavetableProcessor -> Prop :=
  | reach_construct : reachable pow sin PI ok sampleRate (construct sin PI sampleRate)
  | reach_message p m :
      reachable pow sin PI ok sampleRate p -> ok m ->
      reachable pow sin PI ok sampleRate (fst (handleMessage pow p m))
  | reach_process p outputs :
      reachable pow sin PI ok sampleRate p ->
      reachable pow sin PI ok sampleRate (fst (process p outputs)).

(** ** Vocabulary of the specification *)

(** Slot [i] holds the first voice of [vs] in envelope state [st]. *)
Definition first_in (st : EnvState) (vs : list Voice) (i : nat) : Prop :=
  (exists v, vs !! i = Some v /\ envState v = st) /\
  forall j v, vs !! j = Some v -> (j < i)%nat -> envState v <> st.

Definition none_in (st : EnvState) (vs : list Voice) : Prop :=
  Forall (fun v => envState v <> st) vs.

(** The allocation priority: first Idle, else first Release, else 0. *)
Definition slot_rule (vs : list Voice) (i : nat) : Prop :=
  first_in IDLE vs i \/
  (none_in IDLE vs /\ first_in RELEASE vs i) \/
  (none_in IDLE vs /\ none_in RELEASE vs /\ i = 0%nat).

Definition activeCount (vs : list Voice) : nat :=
  length (filter (fun v => active v = true) vs).

(** A voice is inactive exactly when it is Idle. *)
Definition coherent (v : Voice) : Prop := active v = true <-> envState v <> IDLE.

(** A pool of six voices in which exactly the Idle ones are inactive. *)
Definition pool_inv (vs : list Voice) : Prop :=
  length vs = 6%nat /\ Forall coherent vs.

Definition noteOn (x : number * number * number) : Message :=
  NOTE_ON (fst (fst x)) (snd (fst x)) (snd x).

(** The voices a note-off for note [n] on channel [ch] is addressed to. *)
Definition matching (n ch : number) (v : Voice) : Prop :=
  active v = true /\ note v == n /\ channel v == ch /\
  envState v <> IDLE /\ envState v <> RELEASE.

(** [v'] is [v] sent into Release: the level is captured, the stage
    time reset, nothing else touched. *)
Definition released (v v' : Voice) : Prop :=
  envState v' = RELEASE /\ releaseStartLevel v' = envLevel v /\ envTime v' = 0 /\
  active v' = active v /\ channel v' = channel v /\ note v' = note v /\
  phase v' = phase v /\ phaseStep v' = phaseStep v /\
  envLevel v' = envLevel v /\ velocity v' = velocity v.

(** [v'] is [v] silenced: only [active], [envState] and [envLevel] may
    differ, and they are reset. *)
Definition silenced (v v' : Voice) : Prop :=
  active v' = false /\ envState v' = IDLE /\ envLevel v' = 0 /\
  channel v' = channel v /\ note v' = note v /\
  phase v' = phase v /\ phaseStep v' = phaseStep v /\
  envTime v' = envTime v /\ releaseStartLevel v' = releaseStartLevel v /\
  velocity v' = velocity v.

(** The sustain level of a parameter message lies in [0,1]. *)
Definition sustain_ok (m : Message) : Prop :=
  match m with
  | SET_CHANNEL_ADSR _ env => 0 <= s env <= 1
  | _ => True
  end.


(** The shape of a processor: sixteen channels with 32-entry tables and
    a pool of six coherent voices. *)
Definition wellformed (p : WavetableProcessor) : Prop :=
  length (channels p) = 16%nat /\
  Forall (fun c => length (wavetable c) = 32%nat) (channels p) /\
  pool_inv (voices p).

(** A number that indexes one of the sixteen channels. *)
Definition channel_valid (c : number) : Prop :=
  exists k, array_index c = Some k /\ (k < 16)%nat.

(** The channel of a note-on is one of the sixteen. *)
Definition channel_ok (m : Message) : Prop :=
  match m with
  | NOTE_ON _ _ c => channel_valid c
  | _ => True
  end.

(** A wellformed processor whose active voices all play on one of the
    sixteen channels. *)
Definition channels_inv (p : WavetableProcessor) : Prop :=
  wellformed p /\
  Forall (fun v => active v = true -> channel_valid (channel v)) (voices p).

(** The level invariant of a voice, and of a processor whose channels
    all have their sustain in [0,1]. *)
Definition level_ok (v : Voice) : Prop :=
  0 <= envLevel v <= 1 /\ 0 <= releaseStartLevel v.

Definition levels_inv (p : WavetableProcessor) : Prop :=
  Forall (fun c => 0 <= s (adsr c) <= 1) (channels p) /\
  Forall level_ok (voices p).



(** The specification's clamp of a sustain level into [0,1]. *)
Definition clamp01 (x : number) : number :=
  if leb x 0 then 0 else if geb x 1 then 1 else x.

(** ** A concrete environment, for examples *)

(** [Math.pow] where its value is rational: exact for an integer
    exponent (elsewhere the exponent is rounded down). *)
Definition pow_floor (b e : number) : number := Qpower b (Qfloor e).

Definition PI_approx : number := 355 # 113.

(** Bhaskara's rational approximation of the sine on [0, 2 pi]. *)
Definition sin_approx (x : number) : number :=
  let arch y := 16 * y * (PI_approx - y)
                / (5 * PI_approx * PI_approx - 4 * y * (PI_approx - y)) in
  if leb x PI_approx then arch x else - arch (x - PI_approx).

(** The same, cut off at -1 and 1 outside that interval. *)
Definition sin_clamped (x : number) : number :=
  Qmax (- (1)) (Qmin 1 (sin_approx x)).

(** A fresh processor at 48 kHz. *)
Definition fresh : WavetableProcessor := construct sin_approx PI_approx 48000.

(** ** Further vocabulary *)

(** A count of samples as a number. *)
Definition samples (k : nat) : number := inject_Z (Z.of_nat k).

(** Equality of mixed samples: as numbers, or both [NaN]. *)
Definition sample_eq (x y : sample) : Prop :=
  match x, y with
  | Some u, Some v => u == v
  | None, None => True
  | _, _ => False
  end.

(** What [process] may change of a voice: [v'] keeps the note data of
    [v], and is [v] itself when [v] is inactive. *)
Definition rendered (v v' : Voice) : Prop :=
  note v' = note v /\ channel v' = channel v /\ velocity v' = velocity v /\
  phaseStep v' = phaseStep v /\ releaseStartLevel v' = releaseStartLevel v /\
  (active v = false -> v' = v).

(** An Idle voice is silent and inactive, and only an Idle voice is
    inactive. *)
Definition idle_ok (v : Voice) : Prop :=
  coherent v /\ (envState v = IDLE -> envLevel v = 0).





(** ** The single-channel processor (processor.ts, lines 253-481)

    The second [WavetableProcessor] of the file: one wavetable and one
    ADSR for all voices, and voices without a channel. *)

Module Legacy.

Record Voice := mkVoice {
  active : bool;
  note : number;
  phase : number;
  phaseStep : number;
  envState : EnvState;
  envTime : number;
  envLevel : number;
  releaseStartLevel : number;
  velocity : number
}.

Record WavetableProcessor := mkProcessor {
  wavetable : Float32Array;
  adsr : ADSR;
  voices : list Voice;
  sampleRateVal : number
}.

Inductive Message :=
  | NOTE_ON (n vel : number)
  | NOTE_OFF (n : number)
  | SET_WAVETABLE (wt : Float32Array)
  | SET_ADSR (env : ADSR)
  | STOP_ALL
  | OTHER.

Definition set_active (v : Voice) (x : bool) : Voice :=
  mkVoice x (note v) (phase v) (phaseStep v) (envState v)
          (envTime v) (envLevel v) (releaseStartLevel v) (velocity v).
Definition set_phase (v : Voice) (x : number) : Voice :=
  mkVoice (active v) (note v) x (phaseStep v) (envState v)
          (envTime v) (envLevel v) (releaseStartLevel v) (velocity v).
Definition set_envState (v : Voice) (x : EnvState) : Voice :=
  mkVoice (active v) (note v) (phase v) (phaseStep v) x
          (envTime v) (envLevel v) (releaseStartLevel v) (velocity v).
Definition set_envTime (v : Voice) (x : number) : Voice :=
  mkVoice (active v) (note v) (phase v) (phaseStep v) (envState v)
          x (envLevel v) (releaseStartLevel v) (velocity v).
Definition set_envLevel (v : Voice) (x : number) : Voice :=
  mkVoice (active v) (note v) (phase v) (phaseStep v) (envState v)
          (envTime v) x (releaseStartLevel v) (velocity v).
Definition set_releaseStartLevel (v : Voice) (x : number) : Voice :=
  mkVoice (active v) (note v) (phase v) (phaseStep v) (envState v)
          (envTime v) (envLevel v) x (velocity v).

Section Processor.

Variable Math_pow : number -> number -> number.
Variable Math_sin : number -> number.
Variable Math_PI : number.

(** The constructor (lines 286-314). *)
Definition idleVoice : Voice :=
  {| active := false; note := 0; phase := 0; phaseStep := 0;
     envState := IDLE; envTime := 0; envLevel := 0; releaseStartLevel := 0;
     velocity := 0 |}.

Definition construct (sampleRate : number) : WavetableProcessor :=
  {| wavetable :=
       map (fun i : nat =>
              Math_sin ((inject_Z (Z.of_nat i) / WAVETABLE_SIZE) * 2 * Math_PI))
           (seq 0 32);
     adsr := {| a := 0.1; d := 0.1; s := 0.5; r := 0.2 |};
     voices := replicate 6 idleVoice;
     sampleRateVal := sampleRate |}.

(** triggerAttack (lines 337-361). *)
Definition selectVoice (vs : list Voice) : option nat :=
  match list_find (fun v => envState v = IDLE) vs with
  | Some (i, _) => Some i
  | None =>
      match list_find (fun v => envState v = RELEASE) vs with
      | Some (i, _) => Some i
      | None => match vs with [] => None | _ :: _ => Some 0%nat end
      end
  end.

Definition attack (sr n vel : number) (voice : Voice) : Voice :=
  let freq := 440 * Math_pow 2 ((n - 69) / 12) in
  {| active := true;
     note := n;
     phaseStep := (freq / sr) * WAVETABLE_SIZE;
     phase := 0;
     velocity := vel / 127;
     envState := ATTACK;
     envTime := 0;
     envLevel := 0;
     releaseStartLevel := releaseStartLevel voice |}.

Definition triggerAttack (p : WavetableProcessor) (n vel : number)
  : WavetableProcessor * completion unit :=
  match selectVoice (voices p) with
  | None => (p, Throw TypeError)
  | Some i =>
      ({| wavetable := wavetable p; adsr := adsr p;
          voices := alter (attack (sampleRateVal p) n vel) i (voices p);
          sampleRateVal := sampleRateVal p |}, Normal tt)
  end.

(** triggerRelease (lines 363-372). *)
Definition releases (n : number) (v : Voice) : bool :=
  active v && eqb (note v) n
  && negb (bool_decide (envState v = RELEASE))
  && negb (bool_decide (envState v = IDLE)).

Definition release (v : Voice) : Voice :=
  set_releaseStartLevel (set_envTime (set_envState v RELEASE) 0) (envLevel v).

Definition triggerRelease (p : WavetableProcessor) (n : number)
  : WavetableProcessor :=
  {| wavetable := wavetable p; adsr := adsr p;
     voices := (fun v => if releases n v then release v else v) <$> voices p;
     sampleRateVal := sampleRateVal p |}.

(** handleMessage (lines 316-335). *)
Definition stop (v : Voice) : Voice :=
  set_envLevel (set_envState (set_active v false) IDLE) 0.

Definition handleMessage (p : WavetableProcessor) (m : Message)
  : WavetableProcessor * completion unit :=
  match m with
  | NOTE_ON n vel => triggerAttack p n vel
  | NOTE_OFF n => (triggerRelease p n, Normal tt)
  | SET_WAVETABLE wt =>
      if (length wt =? 32)%nat then
        match typed_set (wavetable p) wt with
        | Throw e => (p, Throw e)
        | Normal w =>
            ({| wavetable := w; adsr := adsr p; voices := voices p;
                sampleRateVal := sampleRateVal p |}, Normal tt)
        end
      else (p, Normal tt)
  | SET_ADSR env =>
      ({| wavetable := wavetable p; adsr := env; voices := voices p;
          sampleRateVal := sampleRateVal p |}, Normal tt)
  | STOP_ALL =>
      ({| wavetable := wavetable p; adsr := adsr p;
          voices := stop <$> voices p;
          sampleRateVal := sampleRateVal p |}, Normal tt)
  | OTHER => (p, Normal tt)
  end.

(** process (lines 374-478).  Lines 389-440: the envelope [switch]. *)
Definition envelopeLogic (env : ADSR) (sr : number) (voice : Voice) : Voice :=
  match envState voice with
  | ATTACK =>
      let aSamples := a env * sr in
      if leb aSamples 0 then
        set_envTime (set_envState (set_envLevel voice 1) DECAY) 0
      else
        let stepSize := 1 / aSamples in
        let voice := set_envLevel voice (envLevel voice + stepSize) in
        if geb (envLevel voice) 1 then
          set_envTime (set_envState (set_envLevel voice 1) DECAY) 0
        else voice
  | DECAY =>
      let dSamples := d env * sr in
      if leb dSamples 0 then
        set_envState (set_envLevel voice (s env)) SUSTAIN
      else
        let stepSize := (1 - s env) / dSamples in
        let voice := set_envLevel voice (envLevel voice - stepSize) in
        if leb (envLevel voice) (s env) then
          set_envState (set_envLevel voice (s env)) SUSTAIN
        else voice
  | SUSTAIN => set_envLevel voice (s env)
  | RELEASE =>
      let rSamples := r env * sr in
      if leb rSamples 0 then
        set_envState (set_active (set_envLevel voice 0) false) IDLE
      else
        let stepSize := releaseStartLevel voice / rSamples in
        let voice := set_envLevel voice (envLevel voice - stepSize) in
        if leb (envLevel voice) 0 then
          set_envState (set_active (set_envLevel voice 0) false) IDLE
        else voice
  | IDLE => voice
  end.

(** Line 443. *)
Definition currentGain (voice : Voice) : number :=
  envLevel voice * velocity voice.

(** Lines 446-462. *)
Definition wavetableLogic (table : Float32Array) (voice : Voice)
    (sampleSum : sample) : Voice * sample :=
  if gtb (currentGain voice) 0.0001 then
    let index := phase voice in
    let i := Qfloor index in
    let frac := index - inject_Z i in
    let nextI := Z.rem (i + 1) 32 in
    let val := interpolate table i nextI frac in
    let sampleSum :=
      match sampleSum, val with
      | Some acc, Some x => Some (acc + x * currentGain voice)
      | _, _ => None
      end in
    let voice := set_phase voice (phase voice + phaseStep voice) in
    let voice :=
      if geb (phase voice) WAVETABLE_SIZE
      then set_phase voice (phase voice - WAVETABLE_SIZE) else voice in
    (voice, sampleSum)
  else (voice, sampleSum).

(** Lines 383-462: the body of the loop over the voices.  Nothing in it
    can throw. *)
Definition voiceStep (table : Float32Array) (env : ADSR) (sr : number)
    (voice : Voice) (sampleSum : sample) : Voice * sample :=
  if negb (active voice) then (voice, sampleSum)  (* continue *)
  else wavetableLogic table (envelopeLogic env sr voice) sampleSum.

(** Lines 382-463. *)
Fixpoint voiceLoop (table : Float32Array) (env : ADSR) (sr : number)
    (vs : list Voice) (sampleSum : sample) : list Voice * sample :=
  match vs with
  | [] => ([], sampleSum)
  | voice :: rest =>
      let '(voice', sampleSum) := voiceStep table env sr voice sampleSum in
      let '(rest', sampleSum) := voiceLoop table env sr rest sampleSum in
      (voice' :: rest', sampleSum)
  end.

(** Lines 380-469: one iteration of the sample loop. *)
Definition renderSample (p : WavetableProcessor) : WavetableProcessor * sample :=
  let '(vs, sampleSum) :=
    voiceLoop (wavetable p) (adsr p) (sampleRateVal p) (voices p) (Some 0) in
  ({| wavetable := wavetable p; adsr := adsr p; voices := vs;
      sampleRateVal := sampleRateVal p |},
   (fun x => x / 4) <$> sampleSum).

(** Lines 379-470. *)
Fixpoint sampleLoop (p : WavetableProcessor) (bufferLength : nat)
  : WavetableProcessor * list sample :=
  match bufferLength with
  | O => (p, [])
  | S n =>
      let '(p', x) := renderSample p in
      let '(p'', xs) := sampleLoop p' n in
      (p'', x :: xs)
  end.

(** [process] as a whole (lines 374-478). *)
Definition process (p : WavetableProcessor) (outputs : list (list (list sample)))
  : WavetableProcessor * completion (list (list sample) * bool) :=
  match outputs with
  | [] => (p, Throw TypeError)
  | [] :: _ => (p, Throw TypeError)
  | (channelData :: others) :: _ =>
      let '(p', data) := sampleLoop p (length channelData) in
      match copyChannels data others with
      | Throw e => (p', Throw e)
      | Normal others' => (p', Normal (data :: others', true))
      end
  end.

End Processor.

End Legacy.

(** The single-channel processor seen from the sixteen-channel one: its
    voices play on channel 0, its table and ADSR are those of channel
    0, and its messages address channel 0. *)
Definition lift (v : Legacy.Voice) : Voice :=
  {| active := Legacy.active v; channel := 0; note := Legacy.note v;
     phase := Legacy.phase v; phaseStep := Legacy.phaseStep v;
     envState := Legacy.envState v; envTime := Legacy.envTime v;
     envLevel := Legacy.envLevel v;
     releaseStartLevel := Legacy.releaseStartLevel v;
     velocity := Legacy.velocity v |}.

Definition lift_message (m : Legacy.Message) : Message :=
  match m with
  | Legacy.NOTE_ON n vel => NOTE_ON n vel 0
  | Legacy.NOTE_OFF n => NOTE_OFF n 0
  | Legacy.SET_WAVETABLE wt => SET_CHANNEL_WAVETABLE 0 wt
  | Legacy.SET_ADSR env => SET_CHANNEL_ADSR 0 env
  | Legacy.STOP_ALL => STOP_ALL
  | Legacy.OTHER => OTHER
  end.

(** [q] is a sixteen-channel processor that plays the part of the
    single-channel processor [p]. *)
Definition plays (p : Legacy.WavetableProcessor) (q : WavetableProcessor) : Prop :=
  (exists rest,
     channels q = {| wavetable := Legacy.wavetable p; adsr := Legacy.adsr p |} :: rest) /\
  voices q = lift <$> Legacy.voices p /\
  sampleRateVal q = Legacy.sampleRateVal p.

(** ** The control side: SynthEngine (synth.ts)

    The engine holds the worklet node, or [null], and a ready flag.  Of
    the node only its message port matters here: it is modelled by the
    list of the messages posted to it so far, oldest first, which the
    processor behind it handles in that order. *)

Module Synth.

Record SynthEngine := mkEngine {
  workletNode : option (list Message);
  isReady : bool
}.

(** Field initialisers (lines 14-15). *)
Definition new : SynthEngine := {| workletNode := None; isReady := false |}.

(** How a call of [init] goes (lines 21-42): everything succeeds; or
    [addModule] or the node constructor throws, before anything is
    assigned; or [connect] throws, after the node is assigned and
    before the flag is set.  The [catch] only logs. *)
Inductive InitOutcome := Initialized | ModuleFailed | ConnectFailed.

Definition init (e : SynthEngine) (o : InitOutcome) : SynthEngine :=
  match o with
  | Initialized => {| workletNode := Some []; isReady := true |}
  | ModuleFailed => e
  | ConnectFailed => {| workletNode := Some []; isReady := isReady e |}
  end.

(** The guard and the [postMessage] that the five methods share. *)
Definition post (e : SynthEngine) (m : Message) : SynthEngine :=
  if negb (isReady e) then e
  else
    match workletNode e with
    | None => e
    | Some port => {| workletNode := Some (port ++ [m]); isReady := isReady e |}
    end.

(** Lines 46-82. *)
Definition noteOn (e : SynthEngine) (n vel ch : number) := post e (NOTE_ON n vel ch).
Definition noteOff (e : SynthEngine) (n ch : number) := post e (NOTE_OFF n ch).
Definition setChannelWavetable (e : SynthEngine) (ch : number) (wt : Float32Array) :=
  post e (SET_CHANNEL_WAVETABLE ch wt).
Definition setChannelADSR (e : SynthEngine) (ch : number) (env : ADSR) :=
  post e (SET_CHANNEL_ADSR ch env).
Definition stopAll (e : SynthEngine) := post e STOP_ALL.

(** A call of one of the five methods, and a sequence of them. *)
Inductive Call :=
  | CallNoteOn (n vel ch : number)
  | CallNoteOff (n ch : number)
  | CallSetChannelWavetable (ch : number) (wt : Float32Array)
  | CallSetChannelADSR (ch : number) (env : ADSR)
  | CallStopAll.

Definition call (e : SynthEngine) (c : Call) : SynthEngine :=
  match c with
  | CallNoteOn n vel ch => noteOn e n vel ch
  | CallNoteOff n ch => noteOff e n ch
  | CallSetChannelWavetable ch wt => setChannelWavetable e ch wt
  | CallSetChannelADSR ch env => setChannelADSR e ch env
  | CallStopAll => stopAll e
  end.

Definition calls (e : SynthEngine) (cs : list Call) : SynthEngine :=
  foldl call e cs.

(** The message a call stands for. *)
Definition message_of (c : Call) : Message :=
  match c with
  | CallNoteOn n vel ch => NOTE_ON n vel ch
  | CallNoteOff n ch => NOTE_OFF n ch
  | CallSetChannelWavetable ch wt => SET_CHANNEL_WAVETABLE ch wt
  | CallSetChannelADSR ch env => SET_CHANNEL_ADSR ch env
  | CallStopAll => STOP_ALL
  end.

(** The processor behind the node once it has handled every message
    posted so far, constructed at sample rate [sampleRate]. *)
Definition processor (pow : number -> number -> number) (sin : number -> number)
    (PI sampleRate : number) (e : SynthEngine) : option WavetableProcessor :=
  handleAll pow (construct sin PI sampleRate) <$> workletNode e.

End Synth.

(** ** The ADSR editor (ui/adsr-editor, class ADSREditor)

    The canvas is 400 by 150 pixels and never resized; drawing is not
    modelled.  The callback [onChange] is modelled by what a handler
    returns besides the editor: the values it passes to the callback,
    if it calls it. *)

Module AdsrEditor.

Record Point := mkPoint { x : number; y : number }.

Record ADSREditor := mkEditor {
  values : ADSR;
  draggingPoint : option nat  (* 1 (A), 2 (D,S), 4 (R end); None is null *)
}.

Definition timeScale : number := 50.   (* pixels per second *)
Definition msgScale : number := 100.   (* pixels per unit gain *)
Definition canvas_height : number := 150.

(** Lines 22-38. *)
Definition new : ADSREditor :=
  {| values := {| a := 0.1; d := 0.2; s := 0.5; r := 0.5 |};
     draggingPoint := None |}.

(** getPoints (lines 40-67). *)
Definition getPoints (e : ADSREditor) : list Point :=
  let h := canvas_height in
  let padBot := 20 in
  let zeroY := h - padBot in
  let oneY := zeroY - msgScale in
  let p0 := mkPoint 0 zeroY in
  let p1 := mkPoint (a (values e) * timeScale) oneY in
  let sY := zeroY - (s (values e) * msgScale) in
  let p2 := mkPoint ((a (values e) + d (values e)) * timeScale) sY in
  let sustainVisual := 1 in
  let p3 := mkPoint ((a (values e) + d (values e) + sustainVisual) * timeScale) sY in
  let p4 := mkPoint ((a (values e) + d (values e) + sustainVisual + r (values e))
                     * timeScale) zeroY in
  [p0; p1; p2; p3; p4].

(** updateFromPoints (lines 69-99). *)
Definition updateFromPoints (e : ADSREditor) (p1 p2 p4 : Point)
  : ADSREditor * option ADSR :=
  let h := canvas_height in
  let padBot := 20 in
  let zeroY := h - padBot in
  let sustainVisual := 1 in
  let newA := x p1 / timeScale in
  let newA := Qmax 0.01 newA in
  let newD := (x p2 / timeScale) - newA in
  let newD := Qmax 0.01 newD in
  let newS := (zeroY - y p2) / msgScale in
  let newS := Qmax 0 (Qmin 1 newS) in
  let currentTotal := newA + newD + sustainVisual in
  let newR := (x p4 / timeScale) - currentTotal in
  let newR := Qmax 0.01 newR in
  let v := {| a := newA; d := newD; s := newS; r := newR |} in
  ({| values := v; draggingPoint := draggingPoint e |}, Some v).

(** dist (lines 191-193) compared with a radius: the square root is
    below [rad] exactly when the sum of squares is below its square. *)
Definition dist_below (x1 y1 x2 y2 rad : number) : bool :=
  gtb (rad * rad) ((x2 - x1) * (x2 - x1) + (y2 - y1) * (y2 - y1)).

(** The mousedown handler (lines 102-118); [mouseX], [mouseY] are the
    event's coordinates relative to the canvas.  A press that hits no
    handle leaves [draggingPoint] as it is. *)
Definition mousedown (e : ADSREditor) (mouseX mouseY : number) : ADSREditor :=
  let rad := 10 in
  match getPoints e with
  | [_; pt1; pt2; _; pt4] =>
      if dist_below mouseX mouseY (x pt1) (y pt1) rad then
        {| values := values e; draggingPoint := Some 1%nat |}
      else if dist_below mouseX mouseY (x pt2) (y pt2) rad then
        {| values := values e; draggingPoint := Some 2%nat |}
      else if dist_below mouseX mouseY (x pt4) (y pt4) rad then
        {| values := values e; draggingPoint := Some 4%nat |}
      else e
  | _ => e
  end.

(** The mousemove handler (lines 120-184); [cx], [cy] are
    [e.clientX - rect.left] and [e.clientY - rect.top]. *)
Definition mousemove (e : ADSREditor) (cx cy : number) : ADSREditor * option ADSR :=
  match draggingPoint e with
  | None => (e, None)
  | Some pt =>
      let mouseX := Qmax 0 cx in
      let mouseY := Qmax 0 cy in
      let sustainVisual := 1 in
      let zeroY := canvas_height - 20 in
      let v := values e in
      let v :=
        if (pt =? 1)%nat then
          let newA := mouseX / timeScale in
          {| a := Qmax 0.01 newA; d := d v; s := s v; r := r v |}
        else if (pt =? 2)%nat then
          let newD := (mouseX / timeScale) - a v in
          let newS := (zeroY - mouseY) / msgScale in
          {| a := a v; d := Qmax 0.01 newD; s := Qmax 0 (Qmin 1 newS); r := r v |}
        else if (pt =? 4)%nat then
          let startR := a v + d v + sustainVisual in
          let newR := (mouseX / timeScale) - startR in
          {| a := a v; d := d v; s := s v; r := Qmax 0.01 newR |}
        else v in
      ({| values := v; draggingPoint := draggingPoint e |}, Some v)
  end.

(** The mouseup handler (lines 186-188). *)
Definition mouseup (e : ADSREditor) : ADSREditor :=
  {| values := values e; draggingPoint := None |}.

(** setValues (lines 195-199): a copy is stored; [onChange] is not
    called. *)
Definition setValues (e : ADSREditor) (v : ADSR) : ADSREditor :=
  {| values := v; draggingPoint := draggingPoint e |}.

(** What can happen to an editor, and a run of such events with the
    values passed to [onChange] along the way. *)
Inductive Event :=
  | MouseDown (mouseX mouseY : number)
  | MouseMove (cx cy : number)
  | MouseUp
  | SetValues (v : ADSR).

Definition step (e : ADSREditor) (ev : Event) : ADSREditor * option ADSR :=
  match ev with
  | MouseDown mouseX mouseY => (mousedown e mouseX mouseY, None)
  | MouseMove cx cy => mousemove e cx cy
  | MouseUp => (mouseup e, None)
  | SetValues v => (setValues e v, None)
  end.

Fixpoint run (e : ADSREditor) (evs : list Event) : ADSREditor * list ADSR :=
  match evs with
  | [] => (e, [])
  | ev :: rest =>
      let '(e', out) := step e ev in
      let '(e'', outs) := run e' rest in
      (e'', match out with Some v => v :: outs | None => outs end)
  end.

(** Envelope parameters the editor can show: times of at least 10 ms
    and a sustain in [0,1]. *)
Definition valid (v : ADSR) : Prop :=
  0.01 <= a v /\ 0.01 <= d v /\ (0 <= s v /\ s v <= 1) /\ 0.01 <= r v.

Definition event_ok (ev : Event) : Prop :=
  match ev with
  | SetValues v => valid v
  | _ => True
  end.

End AdsrEditor.

(** ** The wavetable editor (ui/wavetable-editor, class WavetableEditor)
    and the wavetable presets of the application *)

Module WavetableEditor.

(** The editor's table and the [isDrawing] flag of [initEvents]. *)
Record WavetableEditor := mkEditor {
  waveform : Float32Array;
  isDrawing : bool
}.

(** The constructor (lines 255-276). *)
Definition new (sin : number -> number) (PI : number) : WavetableEditor :=
  {| waveform :=
       map (fun i : nat => sin ((inject_Z (Z.of_nat i) / 32) * 2 * PI)) (seq 0 32);
     isDrawing := false |}.

(** handleDraw (lines 281-296); [x], [y] are the event's coordinates
    relative to the canvas.  The table written to is also the one
    passed to [onChange]. *)
Definition handleDraw (e : WavetableEditor) (x y : number)
  : WavetableEditor * option Float32Array :=
  let index := Z.min 31 (Z.max 0 (Qfloor (x / 10))) in
  let value := 1 - (y / 75) in
  let wf := <[Z.to_nat index := Qmax (- (1)) (Qmin 1 value)]> (waveform e) in
  ({| waveform := wf; isDrawing := isDrawing e |}, Some wf).

(** The mousedown handler (lines 298-301). *)
Definition mousedown (e : WavetableEditor) (x y : number)
  : WavetableEditor * option Float32Array :=
  handleDraw {| waveform := waveform e; isDrawing := true |} x y.

(** The mousemove handler (lines 303-312); [inside] tells whether the
    pointer is within the canvas rectangle. *)
Definition mousemove (e : WavetableEditor) (inside : bool) (x y : number)
  : WavetableEditor * option Float32Array :=
  if negb (isDrawing e) then (e, None)
  else if inside then handleDraw e x y else (e, None).

(** The mouseup handler (lines 314-316). *)
Definition mouseup (e : WavetableEditor) : WavetableEditor :=
  {| waveform := waveform e; isDrawing := false |}.

(** setWaveform (lines 319-324).  A table of another length is
    ignored. *)
Definition setWaveform (e : WavetableEditor) (newWaveform : Float32Array)
  : WavetableEditor * completion (option Float32Array) :=
  if negb (length newWaveform =? 32)%nat then (e, Normal None)
  else
    match typed_set (waveform e) newWaveform with
    | Throw err => (e, Throw err)
    | Normal wf => ({| waveform := wf; isDrawing := isDrawing e |}, Normal (Some wf))
    end.

Inductive Event :=
  | MouseDown (x y : number)
  | MouseMove (inside : bool) (x y : number)
  | MouseUp
  | SetWaveform (newWaveform : Float32Array).

(** One event: the editor afterwards and the table passed to
    [onChange], if any ([setWaveform] is kept as it is when it
    throws). *)
Definition step (e : WavetableEditor) (ev : Event)
  : WavetableEditor * option Float32Array :=
  match ev with
  | MouseDown x y => mousedown e x y
  | MouseMove inside x y => mousemove e inside x y
  | MouseUp => (mouseup e, None)
  | SetWaveform wf =>
      match setWaveform e wf with
      | (e', Normal out) => (e', out)
      | (e', Throw _) => (e', None)
      end
  end.

Fixpoint run (e : WavetableEditor) (evs : list Event)
  : WavetableEditor * list Float32Array :=
  match evs with
  | [] => (e, [])
  | ev :: rest =>
      let '(e', out) := step e ev in
      let '(e'', outs) := run e' rest in
      (e'', match out with Some wf => wf :: outs | None => outs end)
  end.

(** A table the processor takes: 32 entries, each in [-1, 1]. *)
Definition valid (wf : Float32Array) : Prop :=
  length wf = 32%nat /\ Forall (fun v => - (1) <= v <= 1) wf.

Definition event_ok (ev : Event) : Prop :=
  match ev with
  | SetWaveform wf => Forall (fun v => - (1) <= v <= 1) wf
  | _ => True
  end.

(** generateWt of the application (main, lines 460-473); [random i] is
    what [Math.random()] returns in iteration [i]. *)
Inductive WtType := rect | tri | saw | rand.

Definition generateWt (random : nat -> number) (type : WtType) : Float32Array :=
  map (fun i : nat =>
         let ph := inject_Z (Z.of_nat i) / 32 in
         match type with
         | rect => if gtb 0.5 ph then 1 else - (1)
         | tri => if gtb 0.5 ph then 4 * ph - 1 else 1 - 4 * (ph - 0.5)
         | saw => 2 * ph - 1
         | rand => random i * 2 - 1
         end)
      (seq 0 32).

End WavetableEditor.

(** ** The application's editor wiring (main, lines 92-123 and 160-168)

    The engine, the two editors, the channel being edited and the
    per-channel copy of the parameters that the page keeps
    ([channelStates]). *)

Module App.

Record App := mkApp {
  synth : Synth.SynthEngine;
  wtEditor : WavetableEditor.WavetableEditor;
  adsrEditor : AdsrEditor.ADSREditor;
  editingChannel : nat;
  channelStates : list ChannelState
}.

(** Module initialisation (lines 23, 89-114). *)
Definition new (sin : number -> number) (PI : number) : App :=
  {| synth := Synth.new;
     wtEditor := WavetableEditor.new sin PI;
     adsrEditor := AdsrEditor.new;
     editingChannel := 0;
     channelStates :=
       replicate 16
         {| wavetable :=
              map (fun k : nat => sin ((inject_Z (Z.of_nat k) / 32) * 2 * PI)) (seq 0 32);
            adsr := {| a := 0.1; d := 0.1; s := 0.5; r := 0.2 |} |} |}.

(** The wavetable editor's [onChange] (lines 92-98). *)
Definition onWavetableChange (app : App) (wf : Float32Array) : App * completion unit :=
  let synth' := Synth.setChannelWavetable (synth app) (chan (editingChannel app)) wf in
  let app1 := {| synth := synth'; wtEditor := wtEditor app; adsrEditor := adsrEditor app;
                 editingChannel := editingChannel app;
                 channelStates := channelStates app |} in
  match channelStates app !! editingChannel app with
  | None => (app1, Throw TypeError)
  | Some st =>
      match typed_set (wavetable st) wf with
      | Throw err => (app1, Throw err)
      | Normal w =>
          ({| synth := synth'; wtEditor := wtEditor app; adsrEditor := adsrEditor app;
              editingChannel := editingChannel app;
              channelStates :=
                <[editingChannel app := {| wavetable := w; adsr := adsr st |}]>
                  (channelStates app) |}, Normal tt)
      end
  end.

(** The ADSR editor's [onChange] (lines 100-103). *)
Definition onAdsrChange (app : App) (env : ADSR) : App * completion unit :=
  let synth' := Synth.setChannelADSR (synth app) (chan (editingChannel app)) env in
  match channelStates app !! editingChannel app with
  | None =>
      ({| synth := synth'; wtEditor := wtEditor app; adsrEditor := adsrEditor app;
          editingChannel := editingChannel app;
          channelStates := channelStates app |}, Throw TypeError)
  | Some st =>
      ({| synth := synth'; wtEditor := wtEditor app; adsrEditor := adsrEditor app;
          editingChannel := editingChannel app;
          channelStates :=
            <[editingChannel app := {| wavetable := wavetable st; adsr := env |}]>
              (channelStates app) |}, Normal tt)
  end.

(** An event of the wavetable editor, followed by its [onChange] if
    the editor calls it. *)
Definition wavetableEvent (app : App) (ev : WavetableEditor.Event) : App * completion unit :=
  let '(ed, out) := WavetableEditor.step (wtEditor app) ev in
  let app1 := {| synth := synth app; wtEditor := ed; adsrEditor := adsrEditor app;
                 editingChannel := editingChannel app;
                 channelStates := channelStates app |} in
  match out with
  | Some wf => onWavetableChange app1 wf
  | None => (app1, Normal tt)
  end.

(** An event of the ADSR editor, followed by its [onChange] if the
    editor calls it. *)
Definition adsrEvent (app : App) (ev : AdsrEditor.Event) : App * completion unit :=
  let '(ed, out) := AdsrEditor.step (adsrEditor app) ev in
  let app1 := {| synth := synth app; wtEditor := wtEditor app; adsrEditor := ed;
                 editingChannel := editingChannel app;
                 channelStates := channelStates app |} in
  match out with
  | Some env => onAdsrChange app1 env
  | None => (app1, Normal tt)
  end.

(** updateEditorLabels (lines 116-123): both editors are loaded from
    the page's copy of the channel being edited. *)
Definition updateEditorLabels (app : App) : App * completion unit :=
  match channelStates app !! editingChannel app with
  | None => (app, Throw TypeError)
  | Some st =>
      match wavetableEvent app (WavetableEditor.SetWaveform (wavetable st)) with
      | (app1, Throw err) => (app1, Throw err)
      | (app1, Normal _) =>
          match channelStates app1 !! editingChannel app1 with
          | None => (app1, Throw TypeError)
          | Some st1 =>
              ({| synth := synth app1; wtEditor := wtEditor app1;
                  adsrEditor := AdsrEditor.setValues (adsrEditor app1) (adsr st1);
                  editingChannel := editingChannel app1;
                  channelStates := channelStates app1 |}, Normal tt)
          end
      end
  end.

(** The [onchange] of the edit radio button of channel [i], when it
    becomes checked (lines 160-168). *)
Definition editRadioChange (app : App) (i : nat) : App * completion unit :=
  updateEditorLabels
    {| synth := synth app; wtEditor := wtEditor app; adsrEditor := adsrEditor app;
       editingChannel := i; channelStates := channelStates app |}.

(** What the user can do to the editors, and [synth.init()] as Play
    calls it, with how that call goes. *)
Inductive Event :=
  | WavetableEvent (ev : WavetableEditor.Event)
  | AdsrEvent (ev : AdsrEditor.Event)
  | EditChannel (i : nat)
  | InitAudio (o : Synth.InitOutcome).

Definition step (app : App) (ev : Event) : App * completion unit :=
  match ev with
  | WavetableEvent e => wavetableEvent app e
  | AdsrEvent e => adsrEvent app e
  | EditChannel i => editRadioChange app i
  | InitAudio o =>
      ({| synth := Synth.init (synth app) o; wtEditor := wtEditor app;
          adsrEditor := adsrEditor app; editingChannel := editingChannel app;
          channelStates := channelStates app |}, Normal tt)
  end.

(** A run of events; a handler that throws ends with the state it has
    reached, and the next event is handled from there. *)
Definition run (app : App) (evs : list Event) : App :=
  foldl (fun app ev => fst (step app ev)) app evs.

(** Editing only: one of the sixteen radio buttons, any event of an
    editor, and no new audio node. *)
Definition editing (ev : Event) : Prop :=
  match ev with
  | EditChannel i => (i < 16)%nat
  | InitAudio o => o = Synth.ModuleFailed
  | _ => True
  end.

End App.

(** The page's copy agrees with the processor behind the node: the
    engine is ready, and the processor that has handled the messages
    posted so far holds, channel by channel, the tables and envelopes
    of [channelStates]. *)
Definition in_sync (pow : number -> number -> number) (sin : number -> number)
    (PI sampleRate : number) (app : App.App) : Prop :=
  Synth.isReady (App.synth app) = true /\
  exists p, Synth.processor pow sin PI sampleRate (App.synth app) = Some p /\
            channels p = App.channelStates app.

(** What holds of the page by construction: sixteen channels, tables
    of 32 entries, one of the channels being edited. *)
Definition app_shape (app : App.App) : Prop :=
  length (App.channelStates app) = 16%nat /\
  (App.editingChannel app < 16)%nat /\
  length (WavetableEditor.waveform (App.wtEditor app)) = 32%nat /\
  Forall (fun st => length (wavetable st) = 32%nat) (App.channelStates app).

(** ** Playback (main, lines 324-448)

    The notes of the loaded file as the scheduler reads them, the
    module variables of the transport, and what a frame of [loop] does
    to them.  The display ([activeNotes], the seek bar, the labels)
    is not modelled; [setTimeout] and [synth.stopAll] are recorded as
    the effects of a frame. *)

Module Midi.

Record Note := mkNote {
  time : number;
  duration : number;
  midi : number;
  velocity : number
}.

Record Track := mkTrack {
  channel : option number;
  notes : list Note
}.

End Midi.

Module Player.

Record Transport := mkTransport {
  isPlaying : bool;
  startTime : number;
  scheduledTill : number;
  pauseTime : number;
  duration : number
}.

Definition playbackLookahead : number := 0.1.   (* 100ms *)

(** What a timer does when it fires while the transport is playing. *)
Inductive Action :=
  | NoteOn (n vel ch : number)
  | NoteOff (n ch : number).

Inductive Effect :=
  | SetTimeout (delayMs : number) (act : Action)
  | StopAll.

(** stopPlayback (lines 354-361). *)
Definition stopPlayback (t : Transport) : Transport * list Effect :=
  ({| isPlaying := false; startTime := startTime t; scheduledTill := scheduledTill t;
      pauseTime := pauseTime t; duration := duration t |}, [StopAll]).

(** Lines 411-436: the two timers of a note inside the window. *)
Definition schedule (t : Transport) (now ch : number) (note : Midi.Note) : list Effect :=
  let triggerTime := startTime t + Midi.time note in
  let delay := triggerTime - now in
  let delayMs := Qmax 0 (delay * 1000) in
  let durMs := Midi.duration note * 1000 in
  [SetTimeout delayMs (NoteOn (Midi.midi note) (Midi.velocity note * 127) ch);
   SetTimeout (delayMs + durMs) (NoteOff (Midi.midi note) ch)].

(** loop (lines 364-448) at clock reading [now], with
    [activePlayChannels.has] as [active]. *)
Definition loop (midi : option (list Midi.Track)) (active : number -> bool)
    (now : number) (t : Transport) : Transport * list Effect :=
  if negb (isPlaying t) then (t, [])
  else
    match midi with
    | None => (t, [])
    | Some tracks =>
        let timeElapsed := now - startTime t in
        if gtb timeElapsed (duration t) then
          let '(t1, effs) := stopPlayback t in
          ({| isPlaying := isPlaying t1; startTime := startTime t1;
              scheduledTill := scheduledTill t1; pauseTime := 0;
              duration := duration t1 |}, effs)
        else
          let lookaheadLim := timeElapsed + playbackLookahead in
          ({| isPlaying := isPlaying t; startTime := startTime t;
              scheduledTill := lookaheadLim; pauseTime := pauseTime t;
              duration := duration t |},
           flat_map
             (fun track =>
                flat_map
                  (fun note =>
                     let ch := default 0 (Midi.channel track) in
                     if negb (active ch) then []
                     else if geb (Midi.time note) (scheduledTill t)
                             && gtb lookaheadLim (Midi.time note)
                          then schedule t now ch note
                          else [])
                  (Midi.notes track))
             tracks)
    end.

(** The frames of a playback: [loop] at each clock reading in turn,
    with the effects of all of them. *)
Fixpoint frames (midi : option (list Midi.Track)) (active : number -> bool)
    (t : Transport) (nows : list number) : Transport * list Effect :=
  match nows with
  | [] => (t, [])
  | now :: rest =>
      let '(t1, effs1) := loop midi active now t in
      let '(t2, effs2) := frames midi active t1 rest in
      (t2, effs1 ++ effs2)
  end.

(** The look-ahead limit of a frame at [now]. *)
Definition limit (t : Transport) (now : number) : number :=
  now - startTime t + playbackLookahead.

(** The notes of the playing channels whose time is in [lo, hi), each
    with its channel, in the order of the file. *)
Definition in_window (lo hi : number) (note : Midi.Note) : bool :=
  geb (Midi.time note) lo && gtb hi (Midi.time note).

Definition due (tracks : list Midi.Track) (active : number -> bool)
    (lo hi : number) : list (number * Midi.Note) :=
  flat_map
    (fun track =>
       let ch := default 0 (Midi.channel track) in
       if active ch
       then map (fun note => (ch, note)) (List.filter (in_window lo hi) (Midi.notes track))
       else [])
    tracks.

(** The note-on timers among some effects, and the one a note gets. *)
Definition noteOns (effs : list Effect) : list (number * number * number) :=
  flat_map (fun e => match e with
                     | SetTimeout _ (NoteOn n vel ch) => [(n, vel, ch)]
                     | _ => []
                     end) effs.

Definition noteOn_of (d : number * Midi.Note) : number * number * number :=
  (Midi.midi (snd d), Midi.velocity (snd d) * 127, fst d).

(** Numbers that never go down. *)
Fixpoint ascending (l : list number) : Prop :=
  match l with
  | x :: ((y :: _) as rest) => x <= y /\ ascending rest
  | _ => True
  end.

End Player.

(** ** The piano roll (ui/piano-roll.ts, class PianoRoll)

    The height of a note row and the height of the canvas; the width,
    the loaded file and the drawing itself are not modelled. *)

Module PianoRoll.

Record PianoRoll := mkPianoRoll {
  noteHeight : number;
  canvas_height : number
}.

(** [canvas.height = x]: the attribute is an integer and keeps the
    integer part of a value that is not negative. *)
Definition canvas_set_height (x : number) : number := inject_Z (Qfloor x).

(** The field initialiser and the constructor (lines 11, 26-30). *)
Definition new : PianoRoll :=
  {| noteHeight := 4; canvas_height := canvas_set_height (128 * 4) |}.

(** setNoteHeight (lines 49-53). *)
Definition setNoteHeight (p : PianoRoll) (h : number) : PianoRoll :=
  let nh := Qmax 4 (Qmin 50 h) in
  {| noteHeight := nh; canvas_height := canvas_set_height (128 * nh) |}.

(** zoomIn and zoomOut (lines 55-61). *)
Definition zoomIn (p : PianoRoll) : PianoRoll := setNoteHeight p (noteHeight p + 4).
Definition zoomOut (p : PianoRoll) : PianoRoll := setNoteHeight p (noteHeight p - 4).

(** The top of the row of note [m], as [draw] computes it for the
    notes (line 106) and for the keys (line 129); the rectangle drawn
    is [noteHeight - 1] high. *)
Definition rowY (p : PianoRoll) (m : number) : number := (127 - m) * noteHeight p.

Inductive Op :=
  | SetNoteHeight (h : number)
  | ZoomIn
  | ZoomOut.

Definition apply (p : PianoRoll) (o : Op) : PianoRoll :=
  match o with
  | SetNoteHeight h => setNoteHeight p h
  | ZoomIn => zoomIn p
  | ZoomOut => zoomOut p
  end.

Definition run (p : PianoRoll) (ops : list Op) : PianoRoll := foldl apply p ops.

(** A whole number of pixels, and an operation whose argument, if it
    has one, is such a number. *)
Definition whole (h : number) : Prop := exists z : Z, h = inject_Z z.

Definition whole_op (o : Op) : Prop :=
  match o with
  | SetNoteHeight h => whole h
  | _ => True
  end.

End PianoRoll.

(** * Properties *)

(** ** Comparisons and array indices *)

Lemma leb_le x y : leb x y = true <-> x <= y.
Proof. apply Qle_bool_iff. Qed.

Lemma leb_gt x y : leb x y = false <-> y < x.
Proof.
  unfold leb. split; intros H.
  - apply Qnot_le_lt. intros Hle. apply Qle_bool_iff in Hle. congruence.
  - destruct (Qle_bool x y) eqn:E; [|done].
    apply Qle_bool_iff in E. exfalso. exact (Qlt_not_le _ _ H E).
Qed.

Lemma geb_le x y : geb x y = true <-> y <= x.
Proof. apply leb_le. Qed.

Lemma geb_gt x y : geb x y = false <-> x < y.
Proof. apply leb_gt. Qed.

Lemma gtb_lt x y : gtb x y = true <-> y < x.
Proof. unfold gtb. rewrite negb_true_iff. apply leb_gt. Qed.

Lemma gtb_le x y : gtb x y = false <-> x <= y.
Proof. unfold gtb. rewrite negb_false_iff. apply leb_le. Qed.

Lemma eqb_eq x y : eqb x y = true <-> x == y.
Proof. apply Qeq_bool_iff. Qed.

Lemma Qred_inject_Z z : Qred (inject_Z z) = inject_Z z.
Proof.
  unfold Qred, inject_Z.
  generalize (Z.ggcd_gcd z 1) (Z.ggcd_correct_divisors z 1).
  destruct (Z.ggcd z 1) as (g, (aa, bb)). simpl.
  rewrite Z.gcd_1_r. intros -> [Ha Hb].
  rewrite !Z.mul_1_l in *. by subst.
Qed.

Lemma array_index_chan k : array_index (chan k) = Some k.
Proof.
  unfold array_index, chan. rewrite Qred_inject_Z.
  simpl. replace (0 <=? Z.of_nat k)%Z with true by (symmetry; apply Z.leb_le; lia).
  by rewrite Nat2Z.id.
Qed.

(** ** Voice allocation *)

Section Allocation.

Variable Math_pow : number -> number -> number.

Lemma selectVoice_rule vs i : selectVoice vs = Some i -> slot_rule vs i.
Proof.
  unfold selectVoice, slot_rule, first_in, none_in.
  destruct (list_find _ vs) as [[i1 v1]|] eqn:Hidle.
  - intros [= <-]. left.
    apply list_find_Some in Hidle as (Hv & Hst & Hbefore). eauto.
  - apply list_find_None in Hidle.
    destruct (list_find (fun v => envState v = RELEASE) vs) as [[i2 v2]|] eqn:Hrel.
    + intros [= <-]. right; left. split; [done|].
      apply list_find_Some in Hrel as (Hv & Hst & Hbefore). eauto.
    + apply list_find_None in Hrel.
      destruct vs; [done|]. intros [= <-]. right; right. done.
Qed.

Lemma first_in_unique st vs i j : first_in st vs i -> first_in st vs j -> i = j.
Proof.
  intros [(v & Hv & Hst) Hi] [(w & Hw & Hst') Hj].
  destruct (Nat.lt_trichotomy i j) as [Hlt|[->|Hlt]]; [|done|].
  - by destruct (Hj _ _ Hv Hlt).
  - by destruct (Hi _ _ Hw Hlt).
Qed.

Lemma first_in_not_none st vs i : first_in st vs i -> none_in st vs -> False.
Proof.
  intros [(v & Hv & Hst) _] Hnone.
  by apply (Forall_lookup_1 _ _ _ _ Hnone Hv).
Qed.

Lemma slot_rule_unique vs i j : slot_rule vs i -> slot_rule vs j -> i = j.
Proof.
  intros [Hi|[[Hn Hi]|(Hn & Hm & ->)]] [Hj|[[Hn' Hj]|(Hn' & Hm' & ->)]];
    eauto using first_in_unique;
    exfalso; eauto using first_in_not_none.
Qed.

Lemma selectVoice_is_Some vs : vs <> [] -> is_Some (selectVoice vs).
Proof.
  unfold selectVoice. intros Hne.
  destruct (list_find _ vs) as [[? ?]|]; [by eexists|].
  destruct (list_find _ vs) as [[? ?]|]; [by eexists|].
  destruct vs; [done | by eexists].
Qed.

Lemma selectVoice_lookup vs i : selectVoice vs = Some i -> is_Some (vs !! i).
Proof.
  intros H. pose proof (selectVoice_rule _ _ H) as Hrule.
  destruct Hrule as [[(v & Hv & _) _]|[[_ [(v & Hv & _) _]]|(_ & _ & ->)]];
    [by eexists | by eexists |].
  destruct vs; [|by eexists].
  unfold selectVoice in H. simpl in H. done.
Qed.

Lemma activeCount_cons v vs :
  activeCount (v :: vs) = ((if active v then 1 else 0) + activeCount vs)%nat.
Proof.
  unfold activeCount. rewrite filter_cons.
  destruct (decide (active v = true)) as [->|Hv]; [done|].
  by destruct (active v).
Qed.

Lemma activeCount_le vs : (activeCount vs <= length vs)%nat.
Proof. apply length_filter. Qed.

Lemma activeCount_all vs :
  Forall (fun v => active v = true) vs -> activeCount vs = length vs.
Proof.
  induction 1 as [|v vs Hv _ IH]; [done|].
  rewrite activeCount_cons, Hv, IH. done.
Qed.

Lemma activeCount_inactive vs i v :
  vs !! i = Some v -> active v = false -> (activeCount vs < length vs)%nat.
Proof.
  intros Hv Hoff. apply (length_filter_lt _ _ v).
  - apply list_elem_of_lookup. eauto.
  - congruence.
Qed.

Lemma activeCount_alter f vs i v :
  vs !! i = Some v ->
  (activeCount (alter f i vs) + (if active v then 1 else 0)
   = activeCount vs + (if active (f v) then 1 else 0))%nat.
Proof.
  revert i. induction vs as [|w vs IH]; intros [|i] Hv; simplify_eq/=.
  - rewrite !activeCount_cons. lia.
  - rewrite !activeCount_cons. specialize (IH _ Hv). lia.
Qed.

Lemma attack_coherent sr n vel ch v : coherent (attack Math_pow sr n vel ch v).
Proof. unfold coherent. simpl. split; done. Qed.

Lemma triggerAttack_count p n vel ch :
  voices p <> [] -> Forall coherent (voices p) ->
  let p' := fst (triggerAttack Math_pow p n vel ch) in
  Forall coherent (voices p') /\ length (voices p') = length (voices p) /\
  activeCount (voices p') = Nat.min (S (activeCount (voices p))) (length (voices p)).
Proof.
  intros Hne Hco. unfold triggerAttack.
  destruct (selectVoice_is_Some _ Hne) as [i Hi]. rewrite Hi. cbn [fst voices].
  destruct (selectVoice_lookup _ _ Hi) as [v Hv].
  split; [|split].
  - apply Forall_alter; [done|]. intros; apply attack_coherent.
  - apply length_alter.
  - pose proof (activeCount_alter (attack Math_pow (sampleRateVal p) n vel ch) _ _ _ Hv) as Hc.
    simpl in Hc.
    destruct (selectVoice_rule _ _ Hi) as [[(w & Hw & Hst) _]|Hbusy].
    + simplify_eq. assert (active v = false) as Hoff.
      { destruct (active v) eqn:E; [|done].
        by destruct (proj1 (Forall_lookup_1 _ _ _ _ Hco Hv) E). }
      pose proof (activeCount_inactive _ _ _ Hv Hoff). rewrite Hoff in Hc.
      simpl in Hc. lia.
    + assert (none_in IDLE (voices p)) as Hnone by (destruct Hbusy as [[? _]|[? _]]; done).
      assert (Forall (fun v => active v = true) (voices p)) as Hall.
      { apply Forall_lookup. intros j w Hw.
        apply (Forall_lookup_1 _ _ _ _ Hco Hw), (Forall_lookup_1 _ _ _ _ Hnone Hw). }
      rewrite (Forall_lookup_1 _ _ _ _ Hall Hv) in Hc. simpl in Hc.
      rewrite (activeCount_all _ Hall) in *. lia.
Qed.

Lemma handleAll_cons p m ms :
  handleAll Math_pow p (m :: ms)
  = handleAll Math_pow (fst (handleMessage Math_pow p m)) ms.
Proof. reflexivity. Qed.

Lemma handleAll_noteOn_count ns : forall p,
  pool_inv (voices p) ->
  let p' := handleAll Math_pow p (noteOn <$> ns) in
  pool_inv (voices p') /\
  activeCount (voices p') = Nat.min (activeCount (voices p) + length ns) 6.
Proof.
  induction ns as [|x ns IH]; intros p [Hlen Hco].
  - split; [done|]. simpl. pose proof (activeCount_le (voices p)). lia.
  - assert (voices p <> []) as Hne by (intros E; by rewrite E in Hlen).
    destruct (triggerAttack_count p x.1.1 x.1.2 x.2 Hne Hco) as (Hco' & Hlen' & Hcnt).
    destruct (IH (fst (triggerAttack Math_pow p x.1.1 x.1.2 x.2))) as [Hinv Hc].
    { split; [congruence | done]. }
    rewrite fmap_cons, handleAll_cons. cbn [noteOn handleMessage].
    split; [exact Hinv|].
    rewrite Hc, Hcnt, Hlen. cbn [length]. lia.
Qed.

(** C1.  On a pool that has a slot, [triggerAttack] rewrites exactly one
    slot [i], and [i] is the one the priority rule names: the
    lowest-index Idle voice if there is one, otherwise the lowest-index
    Release voice if there is one, otherwise slot 0.  Consequently, on
    the pool of six voices (each inactive exactly when Idle), handling
    seven note-ons in a row leaves exactly six voices active. *)
Theorem triggerAttack_voice_selection p n vel ch :
  voices p <> [] ->
  (exists i,
     slot_rule (voices p) i /\
     (forall j, slot_rule (voices p) j -> j = i) /\
     is_Some (voices p !! i) /\
     triggerAttack Math_pow p n vel ch =
       ({| channels := channels p;
           voices := alter (attack Math_pow (sampleRateVal p) n vel ch) i (voices p);
           sampleRateVal := sampleRateVal p |}, Normal tt)) /\
  (pool_inv (voices p) ->
   forall ns, length ns = 7%nat ->
     activeCount (voices (handleAll Math_pow p (noteOn <$> ns))) = 6%nat).
Proof.
  intros Hne. split.
  - destruct (selectVoice_is_Some _ Hne) as [i Hi]. exists i.
    pose proof (selectVoice_rule _ _ Hi) as Hrule.
    repeat split.
    + exact Hrule.
    + intros j Hj. exact (slot_rule_unique _ _ _ Hj Hrule).
    + exact (selectVoice_lookup _ _ Hi).
    + unfold triggerAttack. by rewrite Hi.
  - intros Hinv ns Hns.
    destruct (handleAll_noteOn_count ns p Hinv) as [_ ->]. lia.
Qed.

End Allocation.

Lemma fresh_pool_inv sin PI sr : pool_inv (voices (construct sin PI sr)).
Proof.
  split; [done|]. apply Forall_replicate. unfold coherent. simpl. split; done.
Qed.

Lemma triggerAttack_voice_selection_witness :
  voices fresh <> [] /\
  activeCount
    (voices (handleAll pow_floor fresh
               (noteOn <$> [(60, 100, 0); (62, 100, 0); (64, 100, 0); (65, 100, 0);
                            (67, 100, 0); (69, 100, 0); (71, 100, 0)]))) = 6%nat.
Proof.
  split; [done|].
  apply (triggerAttack_voice_selection pow_floor fresh 60 100 0);
    [done | apply fresh_pool_inv | reflexivity].
Defined.

(** ** Note-off and STOP_ALL *)

Lemma releases_matching n ch v : releases n ch v = true <-> matching n ch v.
Proof.
  unfold releases, matching.
  rewrite !andb_true_iff, !negb_true_iff, !bool_decide_eq_false, !eqb_eq.
  tauto.
Qed.

Section Messages.

Variable Math_pow : number -> number -> number.

Lemma release_released v : released v (release v).
Proof. unfold released. by repeat split. Qed.

(** C7.  A note-off never throws and leaves the channels alone; slot by
    slot, a voice that is active, plays that note on that channel and is
    neither Idle nor Release goes to Release with
    [releaseStartLevel = envLevel] and [envTime = 0] and nothing else
    changed (so every such voice, however many there are, is released),
    and any other voice is left exactly as it was. *)
Theorem triggerRelease_releases_matching p n ch :
  handleMessage Math_pow p (NOTE_OFF n ch) = (triggerRelease p n ch, Normal tt) /\
  channels (triggerRelease p n ch) = channels p /\
  sampleRateVal (triggerRelease p n ch) = sampleRateVal p /\
  Forall2 (fun v v' => (matching n ch v -> released v v') /\
                       (~ matching n ch v -> v' = v))
          (voices p) (voices (triggerRelease p n ch)).
Proof.
  repeat split; try done.
  unfold triggerRelease. cbn [voices].
  induction (voices p) as [|v vs IH]; [constructor|].
  rewrite fmap_cons. constructor; [|exact IH].
  destruct (releases n ch v) eqn:E.
  - apply releases_matching in E. split; [intros _; apply release_released | tauto].
  - split; [|done]. intros Hm. apply releases_matching in Hm. congruence.
Qed.

Lemma stop_silenced v : silenced v (stop v).
Proof. unfold silenced. by repeat split. Qed.

Lemma voiceLoop_inactive chs sr vs sum :
  Forall (fun v => active v = false) vs ->
  voiceLoop chs sr vs sum = (vs, Normal sum).
Proof.
  induction 1 as [|v vs Hv _ IH]; [done|].
  simpl. unfold voiceStep. rewrite Hv. simpl. by rewrite IH.
Qed.

Lemma stop_all_inactive (vs : list Voice) :
  Forall (fun v => active v = false) (stop <$> vs).
Proof. apply Forall_fmap, Forall_true. done. Qed.

(** C6.  STOP_ALL never throws and puts every voice of the pool at
    once in Idle with [envLevel = 0] and [active = false], whatever its
    envelope state was: the pool keeps its size, and slot by slot the
    voice that was there is the one that is reset (it keeps its
    velocity).  The next rendered sample then succeeds, changes
    nothing, is silent, and every voice of the pool has the gain
    [envLevel * velocity] equal to 0 in it. *)
Theorem stopAll_silences_next_sample p :
  let p' := fst (handleMessage Math_pow p STOP_ALL) in
  snd (handleMessage Math_pow p STOP_ALL) = Normal tt /\
  length (voices p') = length (voices p) /\
  (forall i v, voices p !! i = Some v ->
     exists v', voices p' !! i = Some v' /\
       envState v' = IDLE /\ envLevel v' = 0 /\ active v' = false /\
       velocity v' = velocity v /\ currentGain v' == 0) /\
  Forall (fun v => envState v = IDLE /\ envLevel v = 0 /\ active v = false)
         (voices p') /\
  (exists out, renderSample p' = (p', Normal (Some out)) /\ out == 0) /\
  length (voices (fst (renderSample p'))) = length (voices p) /\
  Forall (fun v => currentGain v == 0) (voices (fst (renderSample p'))).
Proof.
  cbn [handleMessage fst snd].
  assert (renderSample {| channels := channels p; voices := stop <$> voices p;
                          sampleRateVal := sampleRateVal p |}
          = ({| channels := channels p; voices := stop <$> voices p;
                sampleRateVal := sampleRateVal p |}, Normal (Some (0 / 4)))) as Hrender.
  { unfold renderSample. cbn [voices channels sampleRateVal].
    by rewrite (voiceLoop_inactive _ _ _ _ (stop_all_inactive _)). }
  split; [done|]. cbn [voices].
  split; [apply length_fmap|]. split.
  { intros i v Hv. exists (stop v). rewrite list_lookup_fmap, Hv.
    do 5 (split; [done|]). unfold currentGain. simpl. ring. }
  split; [apply Forall_fmap, Forall_true; done|].
  split; [exists (0 / 4); split; [exact Hrender | reflexivity]|].
  rewrite Hrender. cbn [fst voices].
  split; [apply length_fmap|].
  apply Forall_fmap, Forall_true. intros v. unfold currentGain. simpl. ring.
Qed.

(** C9.  STOP_ALL keeps the sixteen channel records (wavetables and
    ADSR parameters) and the sample rate, and of every voice the fields
    [note], [channel], [velocity], [phase], [phaseStep], [envTime] and
    [releaseStartLevel]: slot by slot only [active], [envState] and
    [envLevel] are assigned. *)
Theorem stopAll_frame p :
  let p' := fst (handleMessage Math_pow p STOP_ALL) in
  channels p' = channels p /\
  sampleRateVal p' = sampleRateVal p /\
  Forall2 silenced (voices p) (voices p').
Proof.
  cbn [handleMessage fst]. repeat split.
  cbn [voices]. induction (voices p) as [|v vs IH]; [constructor|].
  rewrite fmap_cons. constructor; [apply stop_silenced | exact IH].
Qed.

End Messages.

(** ** Channel parameters *)

Section Channels.

Variable Math_pow : number -> number -> number.

Lemma typed_set_same_length {A} (dst src : list A) :
  length src = length dst -> typed_set dst src = Normal src.
Proof.
  intros Hlen. unfold typed_set.
  rewrite (proj2 (Nat.leb_le _ _)) by lia.
  rewrite drop_ge by lia. by rewrite app_nil_r.
Qed.

Lemma array_get_index {A} (arr : list A) c k :
  array_index c = Some k -> array_get arr c = arr !! k.
Proof. unfold array_get. by intros ->. Qed.

(** C8.  On a valid channel (whose table has its 32 entries), a
    wavetable message with exactly 32 samples never throws, and reading
    the channel's table back gives exactly the samples sent, its ADSR,
    the other channels and the voices being as before; a message with a
    buffer of any other length changes nothing at all. *)
Theorem setChannelWavetable_roundtrip p c k ch samples :
  array_index c = Some k ->
  channels p !! k = Some ch ->
  length (wavetable ch) = 32%nat ->
  let p' := fst (handleMessage Math_pow p (SET_CHANNEL_WAVETABLE c samples)) in
  snd (handleMessage Math_pow p (SET_CHANNEL_WAVETABLE c samples)) = Normal tt /\
  (length samples = 32%nat ->
     array_get (channels p') c = Some {| wavetable := samples; adsr := adsr ch |} /\
     (forall j, j <> k -> channels p' !! j = channels p !! j) /\
     length (channels p') = length (channels p) /\
     voices p' = voices p /\ sampleRateVal p' = sampleRateVal p) /\
  (length samples <> 32%nat -> p' = p).
Proof.
  intros Hc Hk Hlen. cbn [handleMessage]. rewrite Hc, Hk.
  destruct (Nat.eqb_spec (length samples) 32) as [Hs|Hs].
  - rewrite typed_set_same_length by congruence. cbn [fst snd].
    split; [done|]. split; [|done]. intros _. cbn [channels voices sampleRateVal].
    rewrite (array_get_index _ _ _ Hc).
    repeat split.
    + apply list_lookup_insert_eq. by apply lookup_lt_Some in Hk.
    + intros j Hj. by apply list_lookup_insert_ne.
    + apply length_insert.
  - cbn [fst snd]. split; [done|]. split; [done|]. done.
Qed.

(** C3, as the code has it.  On a valid channel, an ADSR message never
    throws and stores the parameters exactly as sent: the stored
    sustain is the [s] of the message, inside [0,1] or not, and it is
    the level a voice in Sustain takes on its next sample. *)
Theorem setChannelADSR_stores_as_sent p c k ch env :
  array_index c = Some k ->
  channels p !! k = Some ch ->
  let p' := fst (handleMessage Math_pow p (SET_CHANNEL_ADSR c env)) in
  snd (handleMessage Math_pow p (SET_CHANNEL_ADSR c env)) = Normal tt /\
  array_get (channels p') c = Some {| wavetable := wavetable ch; adsr := env |} /\
  (forall sr v, envState v = SUSTAIN ->
                envLevel (envelopeLogic env sr v) = s env).
Proof.
  intros Hc Hk. cbn [handleMessage]. rewrite Hc, Hk. cbn [fst snd channels].
  repeat split.
  - rewrite (array_get_index _ _ _ Hc).
    apply list_lookup_insert_eq. by apply lookup_lt_Some in Hk.
  - intros sr v Hv. unfold envelopeLogic. by rewrite Hv.
Qed.

End Channels.

Lemma setChannelWavetable_roundtrip_witness :
  let samples := replicate 32 (1 # 2) in
  let p' := fst (handleMessage pow_floor fresh (SET_CHANNEL_WAVETABLE (chan 3) samples)) in
  array_get (channels p') (chan 3) =
    Some {| wavetable := samples; adsr := adsr (defaultChannel sin_approx PI_approx) |}.
Proof.
  apply (setChannelWavetable_roundtrip pow_floor fresh (chan 3) 3
           (defaultChannel sin_approx PI_approx) (replicate 32 (1 # 2)));
    reflexivity.
Defined.

Lemma setChannelADSR_stores_as_sent_witness :
  let env := {| a := 0.01; d := 0.1; s := 0; r := 0.1 |} in
  array_get
    (channels (fst (handleMessage pow_floor fresh (SET_CHANNEL_ADSR (chan 0) env))))
    (chan 0)
  = Some {| wavetable := defaultWavetable sin_approx PI_approx; adsr := env |}.
Proof.
  apply (setChannelADSR_stores_as_sent pow_floor fresh (chan 0) 0
           (defaultChannel sin_approx PI_approx)); reflexivity.
Defined.

(** C3, as the specification states it, fails: a sustain of 2 sent to
    channel 0 of a fresh processor is stored as 2, which is not its
    clamp into [0,1]. *)
Lemma setChannelADSR_does_not_clamp :
  let env := {| a := 0.1; d := 0.1; s := 2; r := 0.2 |} in
  let p' := fst (handleMessage pow_floor fresh (SET_CHANNEL_ADSR 0 env)) in
  (s <$> (adsr <$> array_get (channels p') 0)) = Some 2 /\
  ~ (2 == clamp01 2).
Proof. split; [reflexivity | by vm_compute]. Qed.

(** ** The render loop *)

Lemma envelopeLogic_frame env sr v :
  let v' := envelopeLogic env sr v in
  phase v' = phase v /\ phaseStep v' = phaseStep v /\ velocity v' = velocity v /\
  channel v' = channel v /\ note v' = note v /\
  releaseStartLevel v' = releaseStartLevel v.
Proof.
  unfold envelopeLogic.
  destruct (envState v); simpl; repeat case_match; by repeat split.
Qed.

Lemma wavetableLogic_frame table v sum :
  let v' := fst (wavetableLogic table v sum) in
  envLevel v' = envLevel v /\ velocity v' = velocity v /\
  phaseStep v' = phaseStep v /\ envState v' = envState v /\
  active v' = active v /\ releaseStartLevel v' = releaseStartLevel v /\
  channel v' = channel v /\ note v' = note v.
Proof.
  unfold wavetableLogic.
  destruct (gtb (currentGain v) 0.0001); simpl; [|by repeat split].
  case_match; by repeat split.
Qed.

Lemma wavetableLogic_gain table v sum :
  currentGain (fst (wavetableLogic table v sum)) = currentGain v.
Proof.
  unfold currentGain.
  destruct (wavetableLogic_frame table v sum) as (-> & -> & _). done.
Qed.

Lemma wavetableLogic_quiet table v sum :
  currentGain v <= 0.0001 -> wavetableLogic table v sum = (v, sum).
Proof. intros H. unfold wavetableLogic. by rewrite (proj2 (gtb_le _ _) H). Qed.


(** What one pass of the voice loop does to a voice: nothing, or an
    envelope step followed by the oscillator step. *)
Lemma voiceStep_Normal chs sr v sum v' sum' :
  voiceStep chs sr v sum = Normal (v', sum') ->
  (active v = false /\ v' = v /\ sum' = sum) \/
  (active v = true /\ exists chState,
     array_get chs (channel v) = Some chState /\
     (v', sum') = wavetableLogic (wavetable chState)
                    (envelopeLogic (adsr chState) sr v) sum).
Proof.
  unfold voiceStep. destruct (active v); simpl.
  - destruct (array_get chs (channel v)) as [chState|]; [|done].
    intros [= E]. right. split; [done|]. exists chState. split; [done|].
    by rewrite E.
  - intros [= <- <-]. left. done.
Qed.

(** A relation that every executed voice step establishes, and that
    holds of an untouched voice, holds slot by slot across the loop. *)
Lemma voiceLoop_Forall2 (R : Voice -> Voice -> Prop) chs sr :
  (forall v sum v' sum', voiceStep chs sr v sum = Normal (v', sum') -> R v v') ->
  (forall v, R v v) ->
  forall vs sum, Forall2 R vs (fst (voiceLoop chs sr vs sum)).
Proof.
  intros Hstep Hrefl. induction vs as [|v vs IH]; intros sum; [constructor|].
  simpl. destruct (voiceStep chs sr v sum) as [[v' sum']|e] eqn:E.
  - specialize (IH sum'). destruct (voiceLoop chs sr vs sum') as [rest' c].
    constructor; [by eapply Hstep | exact IH].
  - simpl. constructor; [apply Hrefl|].
    clear -Hrefl. induction vs; constructor; auto.
Qed.

(** An invariant of the voice step is an invariant of the loop. *)
Lemma voiceLoop_Forall (Q : Voice -> Prop) chs sr :
  (forall v sum v' sum', voiceStep chs sr v sum = Normal (v', sum') -> Q v -> Q v') ->
  forall vs sum, Forall Q vs -> Forall Q (fst (voiceLoop chs sr vs sum)).
Proof.
  intros Hstep vs sum Hvs.
  pose proof (voiceLoop_Forall2 (fun v v' => Q v -> Q v') chs sr) as H2.
  specialize (H2 Hstep (fun _ H => H) vs sum).
  revert Hvs. induction H2 as [|v v' vs vs' Hv _ IH]; [done|].
  rewrite !Forall_cons. intros [? ?]. auto.
Qed.

Lemma renderSample_channels p :
  channels (fst (renderSample p)) = channels p /\
  sampleRateVal (fst (renderSample p)) = sampleRateVal p /\
  voices (fst (renderSample p))
  = fst (voiceLoop (channels p) (sampleRateVal p) (voices p) (Some 0)).
Proof.
  unfold renderSample. by destruct (voiceLoop _ _ _ _) as [vs c].
Qed.

(** C10.  In every pass of the voice loop (that is, for every voice on
    every rendered sample) that leaves the voice with a gain
    [envLevel * velocity] of at most 0.0001, the running sum is
    returned unchanged (the voice adds exactly 0) and the phase is the
    one the voice had before the pass: the increment is skipped
    together with the lookup.  Slot by slot for a whole sample: a voice
    whose gain after the sample is at most 0.0001 has kept its phase. *)
Theorem quiet_voice_is_skipped p :
  (forall v sum v' sum',
     voiceStep (channels p) (sampleRateVal p) v sum = Normal (v', sum') ->
     currentGain v' <= 0.0001 ->
     sum' = sum /\ phase v' = phase v) /\
  Forall2 (fun v v' => currentGain v' <= 0.0001 -> phase v' = phase v)
          (voices p) (voices (fst (renderSample p))).
Proof.
  assert (forall v sum v' sum',
     voiceStep (channels p) (sampleRateVal p) v sum = Normal (v', sum') ->
     currentGain v' <= 0.0001 ->
     sum' = sum /\ phase v' = phase v) as Hstep.
  { intros v sum v' sum' Hs Hq.
    apply voiceStep_Normal in Hs as [(_ & -> & ->)|(_ & chState & _ & Hw)]; [done|].
    pose proof (wavetableLogic_gain (wavetable chState)
                  (envelopeLogic (adsr chState) (sampleRateVal p) v) sum) as Hg.
    rewrite <- Hw in Hg. cbn [fst] in Hg. rewrite Hg in Hq.
    rewrite (wavetableLogic_quiet _ _ _ Hq) in Hw. injection Hw as -> ->.
    split; [done|]. apply envelopeLogic_frame. }
  split; [exact Hstep|].
  destruct (renderSample_channels p) as (_ & _ & ->).
  apply voiceLoop_Forall2; [|done].
  intros v sum v' sum' Hs Hq. by destruct (Hstep _ _ _ _ Hs Hq).
Qed.

(** ** Invariants of the reachable states *)

Section Invariants.

Variable Math_pow : number -> number -> number.
Variable Math_sin : number -> number.
Variable Math_PI : number.

Lemma div_nonneg x y : 0 <= x -> 0 < y -> 0 <= x / y.
Proof. intros Hx Hy. apply Qle_shift_div_l; [done|]. lra. Qed.


Lemma sampleLoop_inv (I : WavetableProcessor -> Prop) :
  (forall p, I p -> I (fst (renderSample p))) ->
  forall n p, I p -> I (fst (sampleLoop p n)).
Proof.
  intros Hstep. induction n as [|n IH]; intros p Hp; [done|].
  simpl. specialize (Hstep p Hp).
  destruct (renderSample p) as [p' [x|e]]; [|done].
  specialize (IH p' Hstep). by destruct (sampleLoop p' n) as [p'' [xs|e]].
Qed.

Lemma process_inv (I : WavetableProcessor -> Prop) :
  (forall p, I p -> I (fst (renderSample p))) ->
  forall p outputs, I p -> I (fst (process p outputs)).
Proof.
  intros Hstep p outputs Hp. unfold process.
  destruct outputs as [|[|channelData others] ?]; [done..|].
  pose proof (sampleLoop_inv I Hstep (length channelData) p Hp) as H.
  destruct (sampleLoop p (length channelData)) as [p' [data|e]]; [|done].
  by destruct (copyChannels data others).
Qed.

(** Induction over the reachable states, with rendering cut down to its
    single-sample step. *)
Lemma reachable_inv (ok : Message -> Prop) sr (I : WavetableProcessor -> Prop) :
  I (construct Math_sin Math_PI sr) ->
  (forall p m, I p -> ok m -> I (fst (handleMessage Math_pow p m))) ->
  (forall p, I p -> I (fst (renderSample p))) ->
  forall p, reachable Math_pow Math_sin Math_PI ok sr p -> I p.
Proof.
  intros Hinit Hmsg Hstep p. induction 1 as [|p m _ IH Hm|p outputs _ IH].
  - exact Hinit.
  - by apply Hmsg.
  - by apply process_inv.
Qed.

(** *** The envelope level *)

Lemma envelopeLogic_level env sr v :
  0 <= s env <= 1 -> level_ok v -> level_ok (envelopeLogic env sr v).
Proof.
  intros Hs [Hl Hr]. unfold level_ok, envelopeLogic.
  destruct (envState v); [done|..].
  - (* Attack *)
    destruct (leb (a env * sr) 0) eqn:Ea; [simpl; lra|].
    apply leb_gt in Ea. pose proof (div_nonneg 1 _ ltac:(lra) Ea) as Hstep.
    cbn [set_envLevel envLevel].
    destruct (geb _ 1) eqn:E1; [simpl; lra|].
    apply geb_gt in E1. simpl. lra.
  - (* Decay *)
    destruct (leb (d env * sr) 0) eqn:Ed; [simpl; lra|].
    apply leb_gt in Ed. pose proof (div_nonneg (1 - s env) _ ltac:(lra) Ed) as Hstep.
    cbn [set_envLevel envLevel].
    destruct (leb _ (s env)) eqn:E1; [simpl; lra|].
    apply leb_gt in E1. simpl. lra.
  - (* Sustain *)
    simpl. lra.
  - (* Release *)
    destruct (leb (r env * sr) 0) eqn:Er; [simpl; lra|].
    apply leb_gt in Er. pose proof (div_nonneg _ _ Hr Er) as Hstep.
    cbn [set_envLevel envLevel releaseStartLevel].
    destruct (leb _ 0) eqn:E1; [simpl; lra|].
    apply leb_gt in E1. simpl. lra.
Qed.

Lemma wavetableLogic_level table v sum :
  level_ok v -> level_ok (fst (wavetableLogic table v sum)).
Proof.
  unfold level_ok.
  destruct (wavetableLogic_frame table v sum) as (-> & _ & _ & _ & _ & -> & _).
  done.
Qed.

Lemma array_get_Forall {A} (P : A -> Prop) arr c x :
  Forall P arr -> array_get arr c = Some x -> P x.
Proof.
  unfold array_get. intros HP. destruct (array_index c); [|done].
  by apply Forall_lookup_1.
Qed.

Lemma renderSample_levels p : levels_inv p -> levels_inv (fst (renderSample p)).
Proof.
  intros [Hch Hvs]. unfold levels_inv.
  destruct (renderSample_channels p) as (-> & _ & ->).
  split; [done|]. apply voiceLoop_Forall; [|done].
  intros v sum v' sum' Hstep Hv.
  apply voiceStep_Normal in Hstep as [(_ & -> & _)|(_ & chState & Hget & Hw)]; [done|].
  pose proof (array_get_Forall _ _ _ _ Hch Hget) as Hs.
  pose proof (wavetableLogic_level (wavetable chState) _ sum
                (envelopeLogic_level _ (sampleRateVal p) _ Hs Hv)) as H.
  by rewrite <- Hw in H.
Qed.

Lemma handleMessage_levels p m :
  levels_inv p -> sustain_ok m -> levels_inv (fst (handleMessage Math_pow p m)).
Proof.
  intros [Hch Hvs] Hm. unfold levels_inv.
  destruct m as [n vel ch|n ch|c wt|c env| |]; cbn [handleMessage].
  - unfold triggerAttack. destruct (selectVoice (voices p)) as [i|]; [|done].
    cbn [fst channels voices]. split; [done|].
    apply Forall_alter; [done|]. intros v _ [_ Hr].
    unfold level_ok. simpl. lra.
  - cbn [fst triggerRelease channels voices]. split; [done|].
    apply Forall_fmap. eapply Forall_impl; [exact Hvs|].
    intros v [Hl Hr]. simpl. destruct (releases n ch v); [|done].
    unfold level_ok. simpl. lra.
  - destruct (array_index c) as [i|]; [|done].
    destruct (channels p !! i) as [chState|] eqn:Hi; [|done].
    destruct (length wt =? 32)%nat; [|done].
    destruct (typed_set (wavetable chState) wt); [|done].
    cbn [fst channels voices]. split; [|done].
    apply Forall_insert; [done|]. simpl.
    exact (Forall_lookup_1 _ _ _ _ Hch Hi).
  - destruct (array_index c) as [i|]; [|done].
    destruct (channels p !! i) as [chState|] eqn:Hi; [|done].
    cbn [fst channels voices]. split; [|done].
    apply Forall_insert; [done|]. exact Hm.
  - cbn [fst channels voices]. split; [done|].
    apply Forall_fmap. eapply Forall_impl; [exact Hvs|].
    intros v [_ Hr]. unfold level_ok. simpl. lra.
  - done.
Qed.

Lemma construct_levels sr : levels_inv (construct Math_sin Math_PI sr).
Proof.
  split; apply Forall_replicate.
  - simpl. lra.
  - unfold level_ok. simpl. lra.
Qed.

(** C4, as the code has it.  When the fields of every message are
    numbers (finite, not [NaN]) and every ADSR message carries a
    sustain in [0,1], every voice of every reachable state has its
    [envLevel] in [0,1]: construction, note-on, note-off, STOP_ALL, the
    parameter messages and every envelope step of every stage keep it
    there, whatever the attack, decay and release times are (negative
    or zero times included). *)
Theorem envLevel_in_unit_interval sr p :
  reachable Math_pow Math_sin Math_PI sustain_ok sr p ->
  Forall (fun v => 0 <= envLevel v <= 1) (voices p).
Proof.
  intros Hreach.
  assert (levels_inv p) as [_ Hvs].
  { revert p Hreach. apply reachable_inv.
    - apply construct_levels.
    - apply handleMessage_levels.
    - apply renderSample_levels. }
  eapply Forall_impl; [exact Hvs|]. by intros v [? _].
Qed.

(** *** The oscillator phase *)









(** *** The shape of the state *)

Lemma envelopeLogic_coherent env sr v :
  coherent v -> coherent (envelopeLogic env sr v).
Proof.
  unfold coherent, envelopeLogic. intros Hco.
  destruct (envState v) eqn:E; [by rewrite E|..];
    assert (active v = true) as Hon by (by apply Hco);
    repeat case_match; simpl; rewrite ?E, ?Hon; by split.
Qed.

Lemma wavetableLogic_coherent table v sum :
  coherent v -> coherent (fst (wavetableLogic table v sum)).
Proof.
  unfold coherent.
  by destruct (wavetableLogic_frame table v sum) as (_ & _ & _ & -> & -> & _).
Qed.

Lemma voiceLoop_length chs sr vs sum :
  length (fst (voiceLoop chs sr vs sum)) = length vs.
Proof.
  symmetry. eapply Forall2_length.
  by apply (voiceLoop_Forall2 (fun _ _ => True)).
Qed.

Lemma typed_set_length {A} (dst src w : list A) :
  typed_set dst src = Normal w -> length w = length dst.
Proof.
  unfold typed_set. destruct (Nat.leb_spec (length src) (length dst)); [|done].
  intros [= <-]. rewrite length_app, length_drop. lia.
Qed.

Lemma renderSample_wellformed p : wellformed p -> wellformed (fst (renderSample p)).
Proof.
  intros (Hn & Htab & Hlen & Hco). unfold wellformed, pool_inv.
  destruct (renderSample_channels p) as (-> & _ & ->).
  rewrite voiceLoop_length. repeat split; try done.
  apply voiceLoop_Forall; [|done]. intros v sum v' sum' Hs Hv.
  apply voiceStep_Normal in Hs as [(_ & -> & _)|(_ & chState & _ & Hw)]; [done|].
  pose proof (wavetableLogic_coherent (wavetable chState) _ sum
                (envelopeLogic_coherent (adsr chState) (sampleRateVal p) _ Hv)) as H.
  by rewrite <- Hw in H.
Qed.

Lemma handleMessage_wellformed p m :
  wellformed p -> wellformed (fst (handleMessage Math_pow p m)).
Proof.
  intros (Hn & Htab & Hlen & Hco). unfold wellformed, pool_inv.
  destruct m as [n vel ch|n ch|c wt|c env| |]; cbn [handleMessage].
  - unfold triggerAttack. destruct (selectVoice (voices p)) as [i|]; [|done].
    cbn [fst channels voices]. rewrite length_alter. repeat split; try done.
    apply Forall_alter; [done|]. intros; apply attack_coherent.
  - cbn [fst triggerRelease channels voices]. rewrite length_fmap.
    repeat split; try done.
    apply Forall_fmap. eapply Forall_impl; [exact Hco|].
    intros v Hv. simpl. destruct (releases n ch v) eqn:E; [|done].
    apply releases_matching in E as (Hon & _). unfold coherent. simpl.
    by split.
  - destruct (array_index c) as [i|]; [|done].
    destruct (channels p !! i) as [chState|] eqn:Hi; [|done].
    destruct (length wt =? 32)%nat; [|done].
    destruct (typed_set (wavetable chState) wt) as [w|] eqn:Hw; [|done].
    cbn [fst channels voices]. rewrite length_insert. repeat split; try done.
    apply Forall_insert; [done|]. simpl.
    rewrite (typed_set_length _ _ _ Hw).
    exact (Forall_lookup_1 _ _ _ _ Htab Hi).
  - destruct (array_index c) as [i|]; [|done].
    destruct (channels p !! i) as [chState|] eqn:Hi; [|done].
    cbn [fst channels voices]. rewrite length_insert. repeat split; try done.
    apply Forall_insert; [done|]. simpl.
    exact (Forall_lookup_1 _ _ _ _ Htab Hi).
  - cbn [fst channels voices]. rewrite length_fmap. repeat split; try done.
    apply Forall_fmap, Forall_true. intros v. unfold coherent. simpl. by split.
  - done.
Qed.

(** Every reachable state has the shape the constructor gives it: the
    assumptions made on the pool in C1 and on the table in C8 hold of
    all of them. *)
Lemma reachable_wellformed ok sr p :
  reachable Math_pow Math_sin Math_PI ok sr p -> wellformed p.
Proof.
  revert p. apply reachable_inv.
  - repeat split; try done.
    + apply Forall_replicate. reflexivity.
    + apply Forall_replicate. unfold coherent. simpl. by split.
  - intros p m Hp _. by apply handleMessage_wellformed.
  - apply renderSample_wellformed.
Qed.

End Invariants.

Lemma envLevel_in_unit_interval_witness :
  let p1 := fst (handleMessage pow_floor fresh (NOTE_ON 69 127 0)) in
  let p2 := fst (handleMessage pow_floor p1
                   (SET_CHANNEL_ADSR 0 {| a := 0.01; d := 0.1; s := 1; r := 0.1 |})) in
  let p3 := fst (process p2 [[replicate 4 (Some 0); replicate 4 (Some 0)]]) in
  Forall (fun v => 0 <= envLevel v <= 1) (voices p3).
Proof.
  apply (envLevel_in_unit_interval pow_floor sin_approx PI_approx 48000).
  apply reach_process. apply reach_message.
  - apply reach_message; [apply reach_construct | exact I].
  - simpl. lra.
Defined.

(** C4, as the specification states it, fails: after a note-on and an
    ADSR message for its channel with zero attack and decay times and a
    sustain of 2, two rendered samples take the voice through Attack
    and Decay into Sustain with [envLevel = 2]. *)
Lemma envLevel_exceeds_one :
  let p1 := fst (handleMessage pow_floor fresh (NOTE_ON 69 127 0)) in
  let p2 := fst (handleMessage pow_floor p1
                   (SET_CHANNEL_ADSR 0 {| a := 0; d := 0; s := 2; r := 0.2 |})) in
  let p3 := fst (process p2 [[ [Some 0; Some 0] ]]) in
  reachable pow_floor sin_approx PI_approx (fun _ => True) 48000 p3 /\
  ((fun v => (envState v, envLevel v)) <$> voices p3 !! 0%nat) = Some (SUSTAIN, 2) /\
  ~ Forall (fun v => 0 <= envLevel v <= 1) (voices p3).
Proof.
  split; [|split].
  - apply reach_process. apply reach_message; [|exact I].
    apply reach_message; [apply reach_construct | exact I].
  - vm_compute. reflexivity.
  - intros H.
    assert (((fun v => (envState v, envLevel v))
               <$> voices (fst (process
                    (fst (handleMessage pow_floor
                       (fst (handleMessage pow_floor fresh (NOTE_ON 69 127 0)))
                       (SET_CHANNEL_ADSR 0 {| a := 0; d := 0; s := 2; r := 0.2 |})))
                    [[ [Some 0; Some 0] ]])) !! 0%nat)
            = Some (SUSTAIN, 2)) as E by (vm_compute; reflexivity).
    destruct (voices _ !! 0%nat) as [v|] eqn:Hv; [|done].
    apply (Forall_lookup_1 _ _ _ _ H) in Hv as [_ Hle].
    injection E as _ E. rewrite E in Hle. by vm_compute in Hle.
Qed.



(** ** Messages with a channel outside 0..15 *)

Section InvalidChannel.

Variable Math_pow : number -> number -> number.
Variable Math_sin : number -> number.
Variable Math_PI : number.

(** The two parameter messages test the channel record they look up:
    on a channel that does not exist they are no-ops. *)
Lemma setChannel_invalid_ignored p c wt env :
  array_get (channels p) c = None ->
  handleMessage Math_pow p (SET_CHANNEL_WAVETABLE c wt) = (p, Normal tt) /\
  handleMessage Math_pow p (SET_CHANNEL_ADSR c env) = (p, Normal tt).
Proof.
  unfold array_get. intros H. cbn [handleMessage].
  destruct (array_index c) as [i|]; [|done]. by rewrite H.
Qed.

(** A note-off changes no voice unless one plays on that very channel. *)
Lemma noteOff_invalid_ignored p n c :
  Forall (fun v => ~ channel v == c) (voices p) ->
  voices (triggerRelease p n c) = voices p.
Proof.
  intros H. unfold triggerRelease. cbn [voices].
  induction H as [|v vs Hv _ IH]; [done|].
  rewrite fmap_cons, IH. f_equal.
  destruct (releases n c v) eqn:E; [|done].
  apply releases_matching in E. destruct E as (_ & _ & Hc & _).
  by destruct Hv.
Qed.

(** As long as every note-on names one of the sixteen channels, no
    rendered sample throws, whatever the other messages carry. *)

Lemma voiceStep_channel chs sr v sum v' sum' :
  voiceStep chs sr v sum = Normal (v', sum') -> channel v' = channel v.
Proof.
  intros Hs.
  apply voiceStep_Normal in Hs as [(_ & -> & _)|(_ & chState & _ & Hw)]; [done|].
  destruct (wavetableLogic_frame (wavetable chState)
              (envelopeLogic (adsr chState) sr v) sum) as (_ & _ & _ & _ & _ & _ & Hc & _).
  rewrite <- Hw in Hc. cbn [fst] in Hc. rewrite Hc.
  apply envelopeLogic_frame.
Qed.

Lemma voiceLoop_no_throw chs sr vs :
  length chs = 16%nat ->
  Forall (fun v => active v = true -> channel_valid (channel v)) vs ->
  forall sum, exists out, snd (voiceLoop chs sr vs sum) = Normal out.
Proof.
  intros Hlen. induction 1 as [|v vs Hv _ IH]; intros sum; [by eexists|].
  simpl. unfold voiceStep. destruct (active v) eqn:Hon; simpl.
  - destruct (Hv eq_refl) as (k & Hk & Hlt).
    unfold array_get. rewrite Hk.
    destruct (lookup_lt_is_Some_2 chs k ltac:(lia)) as [chState ->].
    destruct (wavetableLogic _ _ sum) as [v' sum'].
    destruct (IH sum') as [out Hout].
    destruct (voiceLoop chs sr vs sum'). simpl in *. eauto.
  - destruct (IH sum) as [out Hout].
    destruct (voiceLoop chs sr vs sum). simpl in *. eauto.
Qed.

Lemma renderSample_channels_inv p :
  channels_inv p -> channels_inv (fst (renderSample p)).
Proof.
  intros [Hwf Hvs]. split; [by apply renderSample_wellformed|].
  destruct (renderSample_channels p) as (_ & _ & ->).
  apply voiceLoop_Forall; [|done]. intros v sum v' sum' Hs Hv Hon.
  rewrite (voiceStep_channel _ _ _ _ _ _ Hs). apply Hv.
  apply voiceStep_Normal in Hs as [(Hoff & -> & _)|(? & _)]; [congruence|done].
Qed.

Lemma handleMessage_channels_inv p m :
  channels_inv p -> channel_ok m ->
  channels_inv (fst (handleMessage Math_pow p m)).
Proof.
  intros [Hwf Hvs] Hm. split; [by apply handleMessage_wellformed|].
  destruct m as [n vel ch|n ch|c wt|c env| |]; cbn [handleMessage].
  - unfold triggerAttack. destruct (selectVoice (voices p)) as [i|]; [|done].
    cbn [fst voices]. apply Forall_alter; [done|]. by intros v _ _ _.
  - cbn [fst triggerRelease voices].
    apply Forall_fmap. eapply Forall_impl; [exact Hvs|].
    intros v Hv. simpl. by destruct (releases n ch v).
  - destruct (array_index c) as [i|]; [|done].
    destruct (channels p !! i) as [chState|]; [|done].
    destruct (length wt =? 32)%nat; [|done].
    by destruct (typed_set (wavetable chState) wt).
  - destruct (array_index c) as [i|]; [|done].
    by destruct (channels p !! i) as [chState|].
  - cbn [fst voices]. apply Forall_fmap, Forall_true. by intros v.
  - done.
Qed.

Lemma render_succeeds_with_valid_channels sampleRate p :
  reachable Math_pow Math_sin Math_PI channel_ok sampleRate p ->
  forall n, exists data, snd (sampleLoop p n) = Normal data.
Proof.
  intros Hreach.
  assert (channels_inv p) as Hinv.
  { revert p Hreach. apply reachable_inv.
    - split; [exact (reachable_wellformed Math_pow Math_sin Math_PI channel_ok
                       sampleRate _ (reach_construct _ _ _ _ _))|].
      by apply Forall_replicate.
    - apply handleMessage_channels_inv.
    - apply renderSample_channels_inv. }
  clear Hreach. intros n. revert p Hinv.
  induction n as [|n IH]; intros p Hinv; [by eexists|].
  pose proof (renderSample_channels_inv p Hinv) as Hinv'.
  destruct Hinv as [(Hlen & _) Hvs].
  destruct (voiceLoop_no_throw (channels p) (sampleRateVal p) _ Hlen Hvs (Some 0))
    as [out Hout].
  simpl. unfold renderSample in *.
  destruct (voiceLoop _ _ _ _) as [vs c]. simpl in Hout. subst c.
  cbn [fst] in Hinv'. destruct (IH _ Hinv') as [data Hdata].
  destruct (sampleLoop _ n) as [p'' c]. simpl in Hdata. subst c.
  by eexists.
Qed.

(** C2.  The code at the failing input: a note-on for channel 16 sent
    to a fresh processor is not ignored.  It returns normally and
    claims voice 0 for a channel that has no record; the next rendered
    sample then throws a TypeError out of [process], at the read of
    [chState.adsr]. *)
Theorem noteOn_invalid_channel_breaks_render sampleRate :
  let p0 := construct Math_sin Math_PI sampleRate in
  let p1 := fst (handleMessage Math_pow p0 (NOTE_ON 60 100 16)) in
  array_get (channels p0) 16 = None /\
  snd (handleMessage Math_pow p0 (NOTE_ON 60 100 16)) = Normal tt /\
  ((fun v => (active v, channel v)) <$> voices p1 !! 0%nat) = Some (true, 16) /\
  snd (renderSample p1) = Throw TypeError /\
  snd (process p1 [[replicate 128 (Some 0); replicate 128 (Some 0)]])
  = Throw TypeError.
Proof. repeat split. Qed.

End InvalidChannel.

(** * Further properties of the processor *)

(** ** Shape, polyphony and message safety *)

Lemma Forall2_refl_same {A} (R : A -> A -> Prop) (l : list A) :
  (forall x, R x x) -> Forall2 R l l.
Proof. intros H. induction l; constructor; auto. Qed.

Lemma Forall2_trans_same {A} (R : A -> A -> Prop) :
  (forall x y z, R x y -> R y z -> R x z) ->
  forall l1 l2 l3, Forall2 R l1 l2 -> Forall2 R l2 l3 -> Forall2 R l1 l3.
Proof.
  intros Htr l1 l2 l3 H12. revert l3.
  induction H12 as [|x y l1 l2 Hxy _ IH]; intros l3 H23; inversion H23; subst;
    constructor; eauto.
Qed.

Lemma sampleLoop_channels n : forall p,
  channels (fst (sampleLoop p n)) = channels p /\
  sampleRateVal (fst (sampleLoop p n)) = sampleRateVal p.
Proof.
  induction n as [|n IH]; intros p; [done|]. simpl.
  destruct (renderSample_channels p) as (Hc & Hs & _).
  destruct (renderSample p) as [p' [x|e]]; [|done]. cbn [fst] in *.
  destruct (IH p') as [Hc' Hs']. destruct (sampleLoop p' n) as [p'' [xs|e]];
    cbn [fst] in *; split; congruence.
Qed.

Lemma sampleLoop_Forall2 (R : Voice -> Voice -> Prop) :
  (forall chs sr v sum v' sum', voiceStep chs sr v sum = Normal (v', sum') -> R v v') ->
  (forall v, R v v) ->
  (forall x y z, R x y -> R y z -> R x z) ->
  forall n p, Forall2 R (voices p) (voices (fst (sampleLoop p n))).
Proof.
  intros Hstep Hrefl Htr. induction n as [|n IH]; intros p.
  - by apply Forall2_refl_same.
  - simpl. destruct (renderSample_channels p) as (_ & _ & Hv).
    pose proof (voiceLoop_Forall2 R (channels p) (sampleRateVal p)
                  (Hstep _ _) Hrefl (voices p) (Some 0)) as H1.
    rewrite <- Hv in H1.
    destruct (renderSample p) as [p' [x|e]]; [|done]. cbn [fst] in *.
    specialize (IH p'). destruct (sampleLoop p' n) as [p'' [xs|e]]; cbn [fst] in *;
      by eapply Forall2_trans_same.
Qed.

Lemma process_voices p outputs :
  fst (process p outputs) = p \/
  exists n, fst (process p outputs) = fst (sampleLoop p n).
Proof.
  unfold process. destruct outputs as [|[|channelData others] ?]; [by left..|].
  right. exists (length channelData).
  destruct (sampleLoop p (length channelData)) as [p' [data|e]]; [|done].
  by destruct (copyChannels data others).
Qed.

Lemma voiceStep_rendered chs sr v sum v' sum' :
  voiceStep chs sr v sum = Normal (v', sum') -> rendered v v'.
Proof.
  intros Hs. unfold rendered.
  apply voiceStep_Normal in Hs as [(_ & -> & _)|(Hon & chState & _ & Hw)]; [done|].
  destruct (wavetableLogic_frame (wavetable chState)
              (envelopeLogic (adsr chState) sr v) sum)
    as (_ & Hvel & Hst & _ & _ & Hr & Hc & Hn).
  rewrite <- Hw in *. cbn [fst] in *.
  destruct (envelopeLogic_frame (adsr chState) sr v) as (_ & Hst' & Hvel' & Hc' & Hn' & Hr').
  repeat split; try congruence.
Qed.

(** X4.  Rendering never touches the channel records or the sample
    rate, and of a voice it never changes the note, the channel, the
    velocity, the phase step or the captured release level; a voice
    that is inactive when [process] is called is returned as it was. *)
Theorem process_frame p outputs :
  channels (fst (process p outputs)) = channels p /\
  sampleRateVal (fst (process p outputs)) = sampleRateVal p /\
  Forall2 rendered (voices p) (voices (fst (process p outputs))).
Proof.
  assert (forall v, rendered v v) as Hrefl by (intros v; by repeat split).
  destruct (process_voices p outputs) as [->|[n ->]].
  - repeat split. by apply Forall2_refl_same.
  - destruct (sampleLoop_channels n p) as [Hc Hs]. repeat split; [done..|].
    apply sampleLoop_Forall2; [apply voiceStep_rendered | done |].
    intros x y z (? & ? & ? & ? & ? & Hxy) (? & ? & ? & ? & ? & Hyz).
    repeat split; try congruence.
    intros Hoff. rewrite <- (Hxy Hoff). apply Hyz. by rewrite (Hxy Hoff).
Qed.

Lemma sampleLoop_length n : forall p p' data,
  sampleLoop p n = (p', Normal data) -> length data = n.
Proof.
  induction n as [|n IH]; intros p p' data; simpl.
  - by intros [= _ <-].
  - destruct (renderSample p) as [p1 [x|e]]; [|done].
    destruct (sampleLoop p1 n) as [p2 [xs|e]] eqn:E; [|done].
    intros [= _ <-]. simpl. f_equal. by eapply IH.
Qed.

Lemma copyChannels_same_length data others :
  Forall (fun o => length o = length data) others ->
  copyChannels data others = Normal (replicate (length others) data).
Proof.
  induction 1 as [|o others Ho _ IH]; [done|].
  simpl. rewrite typed_set_same_length by done. by rewrite IH.
Qed.

(** X6.  When [process] is handed output channels of one common length
    and no voice throws, it returns [true], and every channel of the
    output holds the same samples, as many as the channel had frames:
    the mono mix is duplicated unchanged. *)
Theorem process_duplicates_mono p channelData others rest p' out b :
  Forall (fun o => length o = length channelData) others ->
  process p ((channelData :: others) :: rest) = (p', Normal (out, b)) ->
  b = true /\
  exists data,
    sampleLoop p (length channelData) = (p', Normal data) /\
    length data = length channelData /\
    out = replicate (S (length others)) data.
Proof.
  intros Hlen. unfold process.
  destruct (sampleLoop p (length channelData)) as [p1 [data|e]] eqn:E; [|done].
  pose proof (sampleLoop_length _ _ _ _ E) as Hd.
  rewrite copyChannels_same_length
    by (eapply Forall_impl; [exact Hlen|]; intros o Ho; simpl; congruence).
  intros [= <- <- <-]. split; [done|]. by exists data.
Qed.

Lemma process_duplicates_mono_witness :
  let outs := [[ [Some 0; Some 0]; [Some 0; Some 0] ]] in
  true = true /\
  exists data,
    sampleLoop fresh 2 = (fst (process fresh outs), Normal data) /\
    length data = 2%nat /\
    replicate 2 [Some (0 / 4); Some (0 / 4)] = replicate 2 data.
Proof.
  apply (process_duplicates_mono fresh [Some 0; Some 0] [[Some 0; Some 0]] []).
  - by repeat constructor.
  - vm_compute. reflexivity.
Defined.

Section Shape.

Variable Math_pow : number -> number -> number.
Variable Math_sin : number -> number.
Variable Math_PI : number.

(** X1.  In a reachable state no message that carries its payload
    makes [handleMessage] throw, whatever the numbers in it, the
    channel it names and the length of its table: a voice slot always
    exists for a note-on, and a 32-sample table always fits the
    channel's table. *)
Theorem handleMessage_never_throws ok sampleRate p m :
  reachable Math_pow Math_sin Math_PI ok sampleRate p ->
  snd (handleMessage Math_pow p m) = Normal tt.
Proof.
  intros Hreach.
  destruct (reachable_wellformed Math_pow Math_sin Math_PI _ _ _ Hreach)
    as (_ & Htab & Hlen & _).
  destruct m as [n vel ch|n ch|c wt|c env| |]; cbn [handleMessage]; try done.
  - unfold triggerAttack.
    destruct (selectVoice_is_Some (voices p)) as [i ->]; [|done].
    intros E. by rewrite E in Hlen.
  - destruct (array_index c) as [i|]; [|done].
    destruct (channels p !! i) as [chState|] eqn:Hi; [|done].
    destruct (Nat.eqb_spec (length wt) 32) as [Hwt|]; [|done].
    rewrite typed_set_same_length; [done|].
    rewrite Hwt. symmetry. exact (Forall_lookup_1 _ _ _ _ Htab Hi).
  - destruct (array_index c) as [i|]; [|done].
    by destruct (channels p !! i).
Qed.

Lemma reachable_sampleRate ok sampleRate p :
  reachable Math_pow Math_sin Math_PI ok sampleRate p ->
  sampleRateVal p = sampleRate.
Proof.
  revert p. apply reachable_inv; [done|..].
  - intros p m Hp _. rewrite <- Hp.
    destruct m as [n vel ch|n ch|c wt|c env| |]; cbn [handleMessage]; try done.
    + unfold triggerAttack. by destruct (selectVoice (voices p)).
    + destruct (array_index c) as [i|]; [|done].
      destruct (channels p !! i) as [chState|]; [|done].
      destruct (length wt =? 32)%nat; [|done].
      by destruct (typed_set (wavetable chState) wt).
    + destruct (array_index c) as [i|]; [|done].
      by destruct (channels p !! i).
  - intros p Hp. by destruct (renderSample_channels p) as (_ & -> & _).
Qed.

(** X2.  Every reachable state keeps the shape the constructor gave it:
    six voices, sixteen channels with 32-entry tables, the sample rate
    of construction; so never more than six voices are active. *)
Theorem reachable_shape ok sampleRate p :
  reachable Math_pow Math_sin Math_PI ok sampleRate p ->
  length (voices p) = 6%nat /\
  length (channels p) = 16%nat /\
  Forall (fun c => length (wavetable c) = 32%nat) (channels p) /\
  sampleRateVal p = sampleRate /\
  (activeCount (voices p) <= 6)%nat.
Proof.
  intros Hreach.
  destruct (reachable_wellformed Math_pow Math_sin Math_PI _ _ _ Hreach)
    as (Hch & Htab & Hlen & _).
  repeat split; try done.
  - by eapply reachable_sampleRate.
  - rewrite <- Hlen. apply activeCount_le.
Qed.

Lemma envelopeLogic_idle_ok env sr v :
  idle_ok v -> idle_ok (envelopeLogic env sr v).
Proof.
  intros [Hco Hz]. split; [by apply envelopeLogic_coherent|].
  unfold envelopeLogic.
  destruct (envState v) eqn:E; [by rewrite E|..];
    repeat case_match; simpl; rewrite ?E; done.
Qed.

Lemma wavetableLogic_idle_ok table v sum :
  idle_ok v -> idle_ok (fst (wavetableLogic table v sum)).
Proof.
  intros [Hco Hz]. split; [by apply wavetableLogic_coherent|].
  by destruct (wavetableLogic_frame table v sum) as (-> & _ & _ & -> & _).
Qed.

(** X3.  In every reachable state a voice is inactive exactly when it
    is Idle, and an Idle voice has [envLevel = 0]. *)
Theorem idle_voices_are_silent ok sampleRate p :
  reachable Math_pow Math_sin Math_PI ok sampleRate p ->
  Forall idle_ok (voices p).
Proof.
  revert p. apply reachable_inv.
  - apply Forall_replicate. split; [|done]. unfold coherent. by split.
  - intros p m Hp _.
    destruct m as [n vel ch|n ch|c wt|c env| |]; cbn [handleMessage]; try done.
    + unfold triggerAttack. destruct (selectVoice (voices p)) as [i|]; [|done].
      cbn [fst voices]. apply Forall_alter; [done|]. intros v _ _.
      split; [apply attack_coherent | done].
    + cbn [fst triggerRelease voices]. apply Forall_fmap.
      eapply Forall_impl; [exact Hp|]. intros v [Hco Hz]. simpl.
      destruct (releases n ch v) eqn:E; [|done].
      apply releases_matching in E as (Hon & _). split; [|done].
      unfold coherent. simpl. by split.
    + destruct (array_index c) as [i|]; [|done].
      destruct (channels p !! i) as [chState|]; [|done].
      destruct (length wt =? 32)%nat; [|done].
      by destruct (typed_set (wavetable chState) wt).
    + destruct (array_index c) as [i|]; [|done].
      by destruct (channels p !! i).
    + cbn [fst voices]. apply Forall_fmap, Forall_true. intros v.
      split; [|done]. unfold coherent. simpl. by split.
  - intros p Hp. destruct (renderSample_channels p) as (_ & _ & ->).
    apply voiceLoop_Forall; [|done]. intros v sum v' sum' Hs Hv.
    apply voiceStep_Normal in Hs as [(_ & -> & _)|(_ & chState & _ & Hw)]; [done|].
    pose proof (wavetableLogic_idle_ok (wavetable chState) _ sum
                  (envelopeLogic_idle_ok (adsr chState) (sampleRateVal p) _ Hv)) as H.
    by rewrite <- Hw in H.
Qed.

End Shape.

Lemma handleMessage_never_throws_witness :
  snd (handleMessage pow_floor
         (fst (handleMessage pow_floor fresh (NOTE_ON 69 127 16)))
         (SET_CHANNEL_WAVETABLE 3 (replicate 32 0))) = Normal tt.
Proof.
  apply (handleMessage_never_throws pow_floor sin_approx PI_approx
           (fun _ => True) 48000).
  apply reach_message; [apply reach_construct | exact I].
Defined.

Lemma reachable_shape_witness :
  let p := fst (process (fst (handleMessage pow_floor fresh (NOTE_ON 69 127 0)))
                  [[replicate 4 (Some 0)]]) in
  length (voices p) = 6%nat /\
  length (channels p) = 16%nat /\
  Forall (fun c => length (wavetable c) = 32%nat) (channels p) /\
  sampleRateVal p = 48000 /\
  (activeCount (voices p) <= 6)%nat.
Proof.
  apply (reachable_shape pow_floor sin_approx PI_approx (fun _ => True) 48000).
  apply reach_process. apply reach_message; [apply reach_construct | exact I].
Defined.

Lemma idle_voices_are_silent_witness :
  Forall idle_ok
    (voices (fst (handleMessage pow_floor
                    (fst (handleMessage pow_floor fresh (NOTE_ON 69 127 0)))
                    STOP_ALL))).
Proof.
  apply (idle_voices_are_silent pow_floor sin_approx PI_approx (fun _ => True) 48000).
  apply reach_message; [|exact I].
  apply reach_message; [apply reach_construct | exact I].
Defined.

(** ** The release over time *)


Lemma iter_S {A} (f : A -> A) k x : Nat.iter (S k) f x = f (Nat.iter k f x).
Proof. reflexivity. Qed.

Lemma release_inv env sr v k :
  envState v = RELEASE -> 0 <= envLevel v ->
  let vk := Nat.iter k (envelopeLogic env sr) v in
  (envState vk = RELEASE /\ active vk = active v /\
   releaseStartLevel vk = releaseStartLevel v /\ 0 <= envLevel vk) \/
  (envState vk = IDLE /\ active vk = false /\ envLevel vk = 0).
Proof.
  intros Hst Hl. induction k as [|k IH]; cbn zeta.
  - left. by repeat split.
  - rewrite iter_S. cbn zeta in IH.
    set (vk := Nat.iter k (envelopeLogic env sr) v) in *. clearbody vk.
    destruct IH as [(Hs & Ha & Hr & Hv)|(Hs & Ha & Hv)].
    + unfold envelopeLogic. rewrite Hs.
      destruct (leb (r env * sr) 0); [by right|].
      cbn [set_envLevel envLevel releaseStartLevel].
      destruct (leb _ 0) eqn:E1; [by right|].
      apply leb_gt in E1. left. cbn [envState releaseStartLevel active envLevel] in *.
      split; [done|]. split; [done|]. split; [done|]. by apply Qlt_le_weak.
    + right. unfold envelopeLogic. by rewrite Hs.
Qed.

(** X9.  A release only goes down.  For a voice in Release whose level
    and captured level are not negative, with a release time and a
    sample rate that are numbers: over any number of envelope steps the
    level never rises from one step to the next and never goes below
    0; after each of them the voice is either still in Release, with
    its [active] flag and captured level as they were, or Idle,
    inactive and at level 0; and once Idle it is no longer changed. *)
Theorem release_never_rises env sr v k :
  envState v = RELEASE -> 0 <= releaseStartLevel v -> 0 <= envLevel v ->
  let vk := Nat.iter k (envelopeLogic env sr) v in
  let vk' := Nat.iter (S k) (envelopeLogic env sr) v in
  (0 <= envLevel vk' /\ envLevel vk' <= envLevel vk) /\
  (envState vk = RELEASE /\ active vk = active v /\
   releaseStartLevel vk = releaseStartLevel v \/
   envState vk = IDLE /\ active vk = false /\ envLevel vk = 0) /\
  (envState vk = IDLE -> vk' = vk).
Proof.
  intros Hst Hr0 Hl vk vk'. subst vk'. rewrite iter_S. fold vk.
  pose proof (release_inv env sr v k Hst Hl) as Hinv. cbn zeta in Hinv. fold vk in Hinv.
  clearbody vk.
  destruct Hinv as [(Hs & Ha & Hr & Hv)|(Hs & Ha & Hv)].
  - split; [|split; [by left | by rewrite Hs]].
    unfold envelopeLogic. rewrite Hs.
    destruct (leb (r env * sr) 0) eqn:Er; [simpl; lra|].
    apply leb_gt in Er. cbn [set_envLevel envLevel releaseStartLevel].
    rewrite Hr. pose proof (div_nonneg (releaseStartLevel v) _ Hr0 Er).
    destruct (leb _ 0) eqn:E1; [simpl; lra|].
    apply leb_gt in E1. cbn [set_envLevel envLevel] in *.
    split; [by apply Qlt_le_weak|].
    set (q := releaseStartLevel v / (r env * sr)) in *. clearbody q. lra.
  - split; [|split; [by right|]].
    + unfold envelopeLogic. rewrite Hs, Hv. lra.
    + intros _. unfold envelopeLogic. by rewrite Hs.
Qed.

Lemma release_never_rises_witness :
  let env := {| a := 0.01; d := 0.1; s := 0; r := 0.1 |} in
  let v := release (set_active (set_envState (set_envLevel idleVoice 0.5) SUSTAIN) true) in
  let vk := Nat.iter 3 (envelopeLogic env 48000) v in
  let vk' := Nat.iter 4 (envelopeLogic env 48000) v in
  (0 <= envLevel vk' /\ envLevel vk' <= envLevel vk) /\
  (envState vk = RELEASE /\ active vk = active v /\
   releaseStartLevel vk = releaseStartLevel v \/
   envState vk = IDLE /\ active vk = false /\ envLevel vk = 0) /\
  (envState vk = IDLE -> vk' = vk).
Proof.
  apply (release_never_rises {| a := 0.01; d := 0.1; s := 0; r := 0.1 |} 48000
           (release (set_active (set_envState (set_envLevel idleVoice 0.5) SUSTAIN) true))
           3);
    [reflexivity | by vm_compute | by vm_compute].
Defined.

(** ** Rendering and the envelope *)

Lemma set_phase_same v : set_phase v (phase v) = v.
Proof. by destruct v. Qed.

Lemma set_phase_set_phase v x y : set_phase (set_phase v x) y = set_phase v y.
Proof. done. Qed.

Lemma envelopeLogic_set_phase env sr v ph :
  envelopeLogic env sr (set_phase v ph) = set_phase (envelopeLogic env sr v) ph.
Proof.
  unfold envelopeLogic. destruct v as [? ? ? ? ? st ? ? ? ?].
  cbn [set_phase envState envLevel releaseStartLevel active channel note
       phase phaseStep envTime velocity].
  destruct st; try done; cbn [set_envLevel envLevel]; repeat case_match; done.
Qed.

Lemma iter_envelopeLogic_set_phase env sr n v ph :
  Nat.iter n (envelopeLogic env sr) (set_phase v ph)
  = set_phase (Nat.iter n (envelopeLogic env sr) v) ph.
Proof.
  induction n as [|n IH]; [done|].
  by rewrite !iter_S, IH, envelopeLogic_set_phase.
Qed.

Lemma wavetableLogic_set_phase table v sum :
  exists ph, fst (wavetableLogic table v sum) = set_phase v ph.
Proof.
  unfold wavetableLogic. destruct (gtb (currentGain v) 0.0001); cbn [fst].
  - cbn [set_phase phase]. case_match; eexists; reflexivity.
  - exists (phase v). by rewrite set_phase_same.
Qed.

Lemma envelopeLogic_inactive env sr v :
  coherent v -> active v = false -> envelopeLogic env sr v = v.
Proof.
  intros Hco Hoff. unfold envelopeLogic.
  destruct (envState v) eqn:E; [done|..];
    (assert (active v = true) as Hon by (apply Hco; by rewrite E)); congruence.
Qed.

Lemma voiceStep_envelope chs sr v sum v' sum' chState :
  voiceStep chs sr v sum = Normal (v', sum') ->
  coherent v -> array_get chs (channel v) = Some chState ->
  exists ph, v' = set_phase (envelopeLogic (adsr chState) sr v) ph.
Proof.
  intros Hs Hco Hch.
  apply voiceStep_Normal in Hs as [(Hoff & -> & _)|(_ & chState' & Hch' & Hw)].
  - exists (phase v). by rewrite envelopeLogic_inactive, set_phase_same.
  - rewrite Hch in Hch'. injection Hch' as <-.
    destruct (wavetableLogic_set_phase (wavetable chState)
                (envelopeLogic (adsr chState) sr v) sum) as [ph Hph].
    rewrite <- Hw in Hph. by exists ph.
Qed.

(** When the loop over the voices completes, every voice has been
    through the loop body. *)
Lemma voiceLoop_Normal chs sr vs : forall sum vs' out,
  voiceLoop chs sr vs sum = (vs', Normal out) ->
  Forall2 (fun v v' => exists s s', voiceStep chs sr v s = Normal (v', s')) vs vs'.
Proof.
  induction vs as [|v vs IH]; intros sum vs' out; simpl.
  - intros [= <- _]. constructor.
  - destruct (voiceStep chs sr v sum) as [[v1 sum1]|e] eqn:E; [|done].
    destruct (voiceLoop chs sr vs sum1) as [rest c] eqn:Er.
    intros [= <- ->]. constructor; [eauto|]. by eapply IH.
Qed.

(** X10.  The envelope of a voice advances by exactly one step per
    rendered sample, whatever the oscillator does: after a block of [n]
    samples that completes, a voice that was coherent (inactive only if
    Idle) and whose channel exists is, apart from its phase, the result
    of [n] envelope steps with the ADSR of its channel. *)
Theorem process_advances_envelopes n : forall p p' data i v chState,
  sampleLoop p n = (p', Normal data) ->
  voices p !! i = Some v -> coherent v ->
  array_get (channels p) (channel v) = Some chState ->
  exists ph,
    voices p' !! i
    = Some (set_phase (Nat.iter n (envelopeLogic (adsr chState) (sampleRateVal p)) v) ph).
Proof.
  induction n as [|n IH]; intros p p' data i v chState; simpl.
  - intros [= <- _] Hv _ _. exists (phase v). by rewrite set_phase_same.
  - intros Hloop Hv Hco Hch. unfold renderSample in Hloop.
    destruct (voiceLoop (channels p) (sampleRateVal p) (voices p) (Some 0))
      as [vs1 [out|e]] eqn:El; [|done].
    set (p1 := {| channels := channels p; voices := vs1;
                  sampleRateVal := sampleRateVal p |}) in *.
    destruct (sampleLoop p1 n) as [p2 [xs|e]] eqn:En; [|done].
    injection Hloop as <- _.
    pose proof (voiceLoop_Normal _ _ _ _ _ _ El) as Hall.
    destruct (Forall2_lookup_l _ _ _ _ _ Hall Hv) as (v1 & Hv1' & s1 & s1' & Hstep).
    destruct (voiceStep_envelope _ _ _ _ _ _ _ Hstep Hco Hch) as [ph1 ->].
    destruct (IH p1 p2 xs i
                (set_phase (envelopeLogic (adsr chState) (sampleRateVal p) v) ph1)
                chState En) as [ph Hph].
    + done.
    + unfold coherent. cbn [set_phase active envState].
      by apply envelopeLogic_coherent.
    + subst p1. cbn [channels set_phase channel].
      by destruct (envelopeLogic_frame (adsr chState) (sampleRateVal p) v)
        as (_ & _ & _ & -> & _).
    + exists ph. rewrite Hph. subst p1. cbn [sampleRateVal].
      rewrite iter_envelopeLogic_set_phase, set_phase_set_phase.
      by rewrite <- Nat.iter_succ_r.
Qed.

Lemma process_advances_envelopes_witness :
  let p := fst (handleMessage pow_floor fresh (NOTE_ON 69 127 0)) in
  let v := attack pow_floor 48000 69 127 0 idleVoice in
  exists ph,
    voices (fst (sampleLoop p 3)) !! 0%nat
    = Some (set_phase
              (Nat.iter 3 (envelopeLogic (adsr (defaultChannel sin_approx PI_approx))
                             (sampleRateVal p)) v) ph).
Proof.
  apply (process_advances_envelopes 3
           (fst (handleMessage pow_floor fresh (NOTE_ON 69 127 0)))
           (fst (sampleLoop (fst (handleMessage pow_floor fresh (NOTE_ON 69 127 0))) 3))
           (match snd (sampleLoop (fst (handleMessage pow_floor fresh (NOTE_ON 69 127 0))) 3)
            with Normal d => d | Throw _ => [] end)
           0%nat (attack pow_floor 48000 69 127 0 idleVoice)
           (defaultChannel sin_approx PI_approx)).
  - vm_compute. reflexivity.
  - reflexivity.
  - apply attack_coherent.
  - reflexivity.
Defined.

(** ** Note-off *)

Lemma releases_release n ch v : releases n ch (release v) = false.
Proof.
  unfold releases, release. cbn [set_releaseStartLevel set_envTime set_envState envState].
  rewrite bool_decide_eq_true_2 by done. cbn [negb]. by rewrite andb_false_r.
Qed.

(** X11.  A note-off is idempotent: repeated for the same note and
    channel it changes nothing more, because the voices it addressed
    are now in Release and no longer match. *)
Theorem triggerRelease_idempotent p n ch :
  triggerRelease (triggerRelease p n ch) n ch = triggerRelease p n ch.
Proof.
  unfold triggerRelease. cbn [channels voices sampleRateVal]. f_equal.
  rewrite <- list_fmap_compose. apply list_fmap_ext. intros i v _. simpl.
  destruct (releases n ch v) eqn:E; [by rewrite releases_release | by rewrite E].
Qed.

Lemma eqb_refl x : eqb x x = true.
Proof. apply eqb_eq. reflexivity. Qed.

Section NoteOff.

Variable Math_pow : number -> number -> number.

(** X12.  A note released before any sample has been rendered never
    sounds.  After a note-on immediately followed by the note-off for
    the same note and channel (numbers, so equal to themselves), the
    claimed slot holds a voice in Release with level and captured level
    0; one envelope step, with any ADSR and sample rate that are
    numbers, then frees it (Idle, inactive, level 0), so its gain is 0
    on that sample. *)
Theorem note_released_at_once_is_freed p n vel ch i :
  selectVoice (voices p) = Some i ->
  exists v,
    voices (handleAll Math_pow p [NOTE_ON n vel ch; NOTE_OFF n ch]) !! i = Some v /\
    envState v = RELEASE /\ envLevel v = 0 /\ releaseStartLevel v = 0 /\
    note v = n /\ channel v = ch /\
    forall env sr,
      envState (envelopeLogic env sr v) = IDLE /\
      active (envelopeLogic env sr v) = false /\
      envLevel (envelopeLogic env sr v) = 0 /\
      currentGain (envelopeLogic env sr v) == 0.
Proof.
  intros Hi. destruct (selectVoice_lookup _ _ Hi) as [v0 Hv0].
  exists (release (attack Math_pow (sampleRateVal p) n vel ch v0)).
  split; [|do 5 (split; [done|])].
  - unfold handleAll. cbn [foldl handleMessage]. unfold triggerAttack. rewrite Hi.
    cbn [fst triggerRelease voices].
    rewrite list_lookup_fmap, list_lookup_alter_eq, Hv0. cbn [fmap option_fmap option_map].
    unfold releases. cbn [attack active note channel envState].
    by rewrite !eqb_refl.
  - intros env sr. unfold envelopeLogic.
    cbn [release attack set_releaseStartLevel set_envTime set_envState envState
         envLevel releaseStartLevel].
    assert (forall x, leb (0 - 0 / x) 0 = true) as Hz.
    { intros x. apply leb_le. unfold Qdiv. rewrite Qmult_0_l. lra. }
    destruct (leb (r env * sr) 0); cbn [set_envLevel envLevel]; rewrite ?Hz;
      repeat split; unfold currentGain; simpl; ring.
Qed.

End NoteOff.

Lemma note_released_at_once_is_freed_witness :
  exists v,
    voices (handleAll pow_floor fresh [NOTE_ON 69 127 0; NOTE_OFF 69 0]) !! 0%nat
    = Some v /\
    envState v = RELEASE /\ envLevel v = 0 /\ releaseStartLevel v = 0 /\
    note v = 69 /\ channel v = 0 /\
    forall env sr,
      envState (envelopeLogic env sr v) = IDLE /\
      active (envelopeLogic env sr v) = false /\
      envLevel (envelopeLogic env sr v) = 0 /\
      currentGain (envelopeLogic env sr v) == 0.
Proof.
  apply (note_released_at_once_is_freed pow_floor fresh 69 127 0 0%nat).
  reflexivity.
Defined.

(** ** The oscillator lookup *)

Lemma array_get_inject_Z {A} (arr : list A) i :
  (0 <= i)%Z -> array_get arr (inject_Z i) = arr !! Z.to_nat i.
Proof.
  intros Hi. unfold array_get, array_index. rewrite Qred_inject_Z. simpl.
  by rewrite (proj2 (Z.leb_le 0 i) Hi).
Qed.

Lemma frac_range ph :
  0 <= ph - inject_Z (Qfloor ph) /\ ph - inject_Z (Qfloor ph) < 1.
Proof.
  pose proof (Qfloor_le ph). pose proof (Qlt_floor ph) as Hlt.
  rewrite inject_Z_plus in Hlt. change (inject_Z 1) with 1 in Hlt. lra.
Qed.

Lemma Qfloor_range ph : 0 <= ph -> ph < 32 -> (0 <= Qfloor ph <= 31)%Z.
Proof.
  intros Hlo Hhi. pose proof (Qfloor_le ph) as Hle. pose proof (Qlt_floor ph) as Hlt.
  split.
  - assert (0 < Qfloor ph + 1)%Z; [|lia].
    rewrite Zlt_Qlt. change (inject_Z 0) with 0. lra.
  - assert (Qfloor ph < 32)%Z; [|lia].
    rewrite Zlt_Qlt. change (inject_Z 32) with 32. lra.
Qed.



(** X13.  With the phase in [0, 32) and a table of 32 entries, the
    lookup reads two entries that exist, so the interpolated value is a
    number (never NaN): [i = floor phase] and [next = (i + 1) % 32]
    are both among 0..31 ([next] is 0 after 31), the fractional part
    [frac] is in [0, 1), the value is
    [table[i] * (1 - frac) + table[next] * frac], and it is [table[i]]
    when the phase is an integer. *)
Theorem interpolate_reads_inside table ph :
  length table = 32%nat -> 0 <= ph -> ph < 32 ->
  let i := Qfloor ph in
  let frac := ph - inject_Z i in
  (0 <= i <= 31)%Z /\ (0 <= Z.rem (i + 1) 32 <= 31)%Z /\
  (i = 31%Z -> Z.rem (i + 1) 32 = 0%Z) /\
  (i <> 31%Z -> Z.rem (i + 1) 32 = (i + 1)%Z) /\
  0 <= frac /\ frac < 1 /\
  exists x y,
    table !! Z.to_nat i = Some x /\
    table !! Z.to_nat (Z.rem (i + 1) 32) = Some y /\
    interpolate table i (Z.rem (i + 1) 32) frac = Some (x * (1 - frac) + y * frac) /\
    (frac == 0 -> x * (1 - frac) + y * frac == x).
Proof.
  intros Hlen Hlo Hhi i frac.
  pose proof (Qfloor_range ph Hlo Hhi) as Hi. fold i in Hi.
  destruct (frac_range ph) as [Hf0 Hf1]. fold i in Hf0, Hf1. fold frac in Hf0, Hf1.
  assert (0 <= Z.rem (i + 1) 32 < 32)%Z as Hn by (apply Z.rem_bound_pos; lia).
  split; [done|]. split; [lia|]. split; [by intros ->|].
  split; [intros Hne; apply Z.rem_small; lia|].
  split; [done|]. split; [done|].
  destruct (lookup_lt_is_Some_2 table (Z.to_nat i)) as [x Hx]; [lia|].
  destruct (lookup_lt_is_Some_2 table (Z.to_nat (Z.rem (i + 1) 32))) as [y Hy]; [lia|].
  exists x, y. split; [done|]. split; [done|]. split.
  - unfold interpolate. rewrite !array_get_inject_Z by lia. by rewrite Hx, Hy.
  - intros ->. ring.
Qed.

Lemma interpolate_reads_inside_witness :
  let table := replicate 31 0 ++ [1] in
  let ph := 63 # 2 in
  let i := Qfloor ph in
  let frac := ph - inject_Z i in
  (0 <= i <= 31)%Z /\ (0 <= Z.rem (i + 1) 32 <= 31)%Z /\
  (i = 31%Z -> Z.rem (i + 1) 32 = 0%Z) /\
  (i <> 31%Z -> Z.rem (i + 1) 32 = (i + 1)%Z) /\
  0 <= frac /\ frac < 1 /\
  exists x y,
    table !! Z.to_nat i = Some x /\
    table !! Z.to_nat (Z.rem (i + 1) 32) = Some y /\
    interpolate table i (Z.rem (i + 1) 32) frac = Some (x * (1 - frac) + y * frac) /\
    (frac == 0 -> x * (1 - frac) + y * frac == x).
Proof.
  apply (interpolate_reads_inside (replicate 31 0 ++ [1]) (63 # 2));
    [reflexivity | by vm_compute | by vm_compute].
Defined.

(** ** The level of the mix *)







Section Mix.

Variable Math_pow : number -> number -> number.
Variable Math_sin : number -> number.
Variable Math_PI : number.





End Mix.

Lemma sin_clamped_bounded x : - (1) <= sin_clamped x <= 1.
Proof.
  unfold sin_clamped. split; [apply Q.le_max_l|].
  apply Q.max_lub; [lra | apply Q.le_min_l].
Qed.


(** ** Channel numbers *)

Lemma array_index_Some c k : array_index c = Some k <-> c == chan k.
Proof.
  unfold array_index. split.
  - destruct ((Z.pos (Qden (Qred c)) =? 1)%Z && (0 <=? Qnum (Qred c))%Z) eqn:E; [|done].
    apply andb_true_iff in E as [Hden Hnum].
    apply Z.eqb_eq in Hden. apply Z.leb_le in Hnum. intros [= <-].
    transitivity (Qred c); [symmetry; apply Qred_correct|].
    unfold chan. rewrite Z2Nat.id by done.
    remember (Qred c) as q eqn:Hq. clear Hq. destruct q as [num den]. simpl in *.
    injection Hden as ->. reflexivity.
  - intros Hc. rewrite (Qred_complete _ _ Hc). unfold chan.
    rewrite Qred_inject_Z. simpl.
    rewrite (proj2 (Z.leb_le 0 (Z.of_nat k))) by lia. by rewrite Nat2Z.id.
Qed.

(** X15.  A channel number addresses a channel exactly when it equals
    one of the integers 0..15; the two parameter messages sent to any
    other number (negative, fractional, 16 or more) leave a processor
    with sixteen channels exactly as it was. *)
Theorem parameter_message_channel pow p c wt env :
  length (channels p) = 16%nat ->
  (channel_valid c <-> exists k, (k < 16)%nat /\ c == chan k) /\
  (~ channel_valid c ->
   handleMessage pow p (SET_CHANNEL_WAVETABLE c wt) = (p, Normal tt) /\
   handleMessage pow p (SET_CHANNEL_ADSR c env) = (p, Normal tt)).
Proof.
  intros Hlen. split.
  - unfold channel_valid. split; intros (k & H1 & H2); exists k.
    + split; [done|]. by apply array_index_Some.
    + split; [|done]. by apply array_index_Some.
  - intros Hbad. cbn [handleMessage].
    destruct (array_index c) as [i|] eqn:Hi; [|done].
    destruct (channels p !! i) as [chState|] eqn:Hc; [|done].
    destruct Hbad. exists i. split; [done|].
    apply lookup_lt_Some in Hc. lia.
Qed.

Lemma parameter_message_channel_witness :
  handleMessage pow_floor fresh (SET_CHANNEL_WAVETABLE (3 # 2) (replicate 32 0))
  = (fresh, Normal tt) /\
  handleMessage pow_floor fresh
    (SET_CHANNEL_ADSR (3 # 2) {| a := 0; d := 0; s := 2; r := 0 |})
  = (fresh, Normal tt).
Proof.
  apply (parameter_message_channel pow_floor fresh (3 # 2)); [reflexivity|].
  intros (k & Hk & _). by vm_compute in Hk.
Defined.

(** * The single-channel processor as channel 0 *)

Lemma lift_envelopeLogic env sr v :
  envelopeLogic env sr (lift v) = lift (Legacy.envelopeLogic env sr v).
Proof.
  unfold envelopeLogic, Legacy.envelopeLogic. destruct v as [? ? ? ? st ? ? ? ?].
  cbn [lift envState Legacy.envState].
  destruct st; try done;
    cbn [set_envLevel envLevel Legacy.set_envLevel Legacy.envLevel lift
         releaseStartLevel Legacy.releaseStartLevel];
    repeat (match goal with |- context [if ?c then _ else _] => destruct c end);
    reflexivity.
Qed.

Lemma lift_wavetableLogic table v sum :
  wavetableLogic table (lift v) sum
  = (lift (fst (Legacy.wavetableLogic table v sum)),
     snd (Legacy.wavetableLogic table v sum)).
Proof.
  unfold wavetableLogic, Legacy.wavetableLogic, currentGain, Legacy.currentGain.
  destruct v.
  cbn [lift envLevel velocity phase phaseStep set_phase Legacy.envLevel
       Legacy.velocity Legacy.phase Legacy.phaseStep Legacy.set_phase].
  repeat (match goal with |- context [if ?c then _ else _] => destruct c end);
    reflexivity.
Qed.

Lemma lift_voiceStep table env rest sr v sum :
  voiceStep ({| wavetable := table; adsr := env |} :: rest) sr (lift v) sum
  = Normal (lift (fst (Legacy.voiceStep table env sr v sum)),
            snd (Legacy.voiceStep table env sr v sum)).
Proof.
  unfold voiceStep, Legacy.voiceStep. cbn [lift active channel].
  destruct (Legacy.active v); cbn [negb]; [|done].
  change (array_get _ 0) with (Some {| wavetable := table; adsr := env |}).
  cbn [adsr wavetable]. by rewrite lift_envelopeLogic, lift_wavetableLogic.
Qed.

Lemma lift_voiceLoop table env rest sr vs : forall sum,
  voiceLoop ({| wavetable := table; adsr := env |} :: rest) sr (lift <$> vs) sum
  = (lift <$> fst (Legacy.voiceLoop table env sr vs sum),
     Normal (snd (Legacy.voiceLoop table env sr vs sum))).
Proof.
  induction vs as [|v vs IH]; intros sum; [done|].
  rewrite fmap_cons. cbn [voiceLoop Legacy.voiceLoop]. rewrite lift_voiceStep.
  destruct (Legacy.voiceStep table env sr v sum) as [v' sum']. cbn [fst snd].
  rewrite IH. by destruct (Legacy.voiceLoop table env sr vs sum') as [rest' out].
Qed.

Lemma plays_renderSample p q :
  plays p q ->
  exists q',
    renderSample q = (q', Normal (snd (Legacy.renderSample p))) /\
    plays (fst (Legacy.renderSample p)) q'.
Proof.
  intros ([rest Hch] & Hvs & Hsr). unfold renderSample, Legacy.renderSample.
  rewrite Hch, Hvs, Hsr, lift_voiceLoop.
  destruct (Legacy.voiceLoop _ _ _ _ _) as [vs' out]. cbn [fst snd].
  eexists. split; [reflexivity|]. unfold plays. cbn. eauto.
Qed.

Lemma plays_sampleLoop n : forall p q,
  plays p q ->
  exists q',
    sampleLoop q n = (q', Normal (snd (Legacy.sampleLoop p n))) /\
    plays (fst (Legacy.sampleLoop p n)) q'.
Proof.
  induction n as [|n IH]; intros p q Hpq; [by exists q|].
  cbn [sampleLoop Legacy.sampleLoop].
  destruct (plays_renderSample p q Hpq) as (q1 & -> & Hpq1).
  destruct (Legacy.renderSample p) as [p1 x]. cbn [fst snd] in *.
  destruct (IH p1 q1 Hpq1) as (q2 & -> & Hpq2).
  destruct (Legacy.sampleLoop p1 n) as [p2 xs]. cbn [fst snd] in *.
  by exists q2.
Qed.

(** X16.  The sixteen-channel processor contains the single-channel
    one.  If a sixteen-channel processor plays the part of a
    single-channel processor (same voices, all on channel 0; channel 0
    holding its table and ADSR; same sample rate), then [process] on
    the same output buffers completes in the same way with the same
    samples, and the two processors still correspond afterwards. *)
Theorem legacy_process_simulated p q outputs :
  plays p q ->
  exists q',
    process q outputs = (q', snd (Legacy.process p outputs)) /\
    plays (fst (Legacy.process p outputs)) q'.
Proof.
  intros Hpq. unfold process, Legacy.process.
  destruct outputs as [|[|channelData others] ?]; [by exists q..|].
  destruct (plays_sampleLoop (length channelData) p q Hpq) as (q' & -> & Hpq').
  destruct (Legacy.sampleLoop p (length channelData)) as [p' data]. cbn [fst snd] in *.
  exists q'. by destruct (copyChannels data others).
Qed.

Section LegacyMessages.

Variable Math_pow : number -> number -> number.

Lemma lift_selectVoice vs : selectVoice (lift <$> vs) = Legacy.selectVoice vs.
Proof.
  unfold selectVoice, Legacy.selectVoice. rewrite !list_find_fmap.
  change ((fun v => envState v = IDLE) ∘ lift)
    with (fun v => Legacy.envState v = IDLE).
  change ((fun v => envState v = RELEASE) ∘ lift)
    with (fun v => Legacy.envState v = RELEASE).
  destruct (list_find (fun v => Legacy.envState v = IDLE) vs) as [[i v]|]; [done|].
  destruct (list_find (fun v => Legacy.envState v = RELEASE) vs) as [[i v]|]; [done|].
  by destruct vs.
Qed.

(** X17.  Message for message, the single-channel processor is the
    sixteen-channel one driven on channel 0: each of its messages, sent
    as the corresponding channel-0 message to a processor that plays
    its part, completes in the same way (normally, or with the same
    exception) and leaves the two processors in correspondence. *)
Theorem legacy_message_simulated p q m :
  plays p q ->
  exists q',
    handleMessage Math_pow q (lift_message m)
    = (q', snd (Legacy.handleMessage Math_pow p m)) /\
    plays (fst (Legacy.handleMessage Math_pow p m)) q'.
Proof.
  intros ([rest Hch] & Hvs & Hsr).
  assert (forall p', p' = p -> plays p' q) as Hsame.
  { intros p' ->. unfold plays. eauto. }
  destruct m as [n vel|n|wt|env| |];
    cbn [lift_message handleMessage Legacy.handleMessage].
  - unfold triggerAttack, Legacy.triggerAttack. rewrite Hvs, lift_selectVoice.
    destruct (Legacy.selectVoice (Legacy.voices p)) as [i|]; [|exists q; eauto].
    eexists. split; [reflexivity|]. unfold plays.
    cbn [fst Legacy.voices Legacy.wavetable Legacy.adsr Legacy.sampleRateVal
         channels voices sampleRateVal].
    split; [eauto|]. split; [|done]. rewrite Hsr.
    symmetry. apply list_fmap_alter, Forall_true. done.
  - eexists. split; [reflexivity|]. unfold plays.
    cbn [fst triggerRelease Legacy.triggerRelease Legacy.voices Legacy.wavetable
         Legacy.adsr Legacy.sampleRateVal channels voices sampleRateVal].
    split; [eauto|]. split; [|done]. rewrite Hvs, <- !list_fmap_compose.
    apply list_fmap_ext. intros i v _. cbn [compose].
    unfold releases, Legacy.releases. cbn [lift active note channel envState].
    change (eqb 0 0) with true. rewrite andb_true_r.
    by destruct (_ && _ && _ && _).
  - change (array_index 0) with (Some 0%nat). rewrite Hch. cbn [lookup list_lookup].
    destruct (length wt =? 32)%nat; [|exists q; eauto].
    cbn [wavetable adsr].
    destruct (typed_set (Legacy.wavetable p) wt) as [w|e]; [|exists q; eauto].
    eexists. split; [reflexivity|]. unfold plays.
    cbn [fst Legacy.voices Legacy.wavetable Legacy.adsr Legacy.sampleRateVal
         channels voices sampleRateVal insert list_insert]. eauto.
  - change (array_index 0) with (Some 0%nat). rewrite Hch. cbn [lookup list_lookup].
    eexists. split; [reflexivity|]. unfold plays.
    cbn [fst Legacy.voices Legacy.wavetable Legacy.adsr Legacy.sampleRateVal
         channels voices sampleRateVal insert list_insert wavetable adsr]. eauto.
  - eexists. split; [reflexivity|]. unfold plays.
    cbn [fst Legacy.voices Legacy.wavetable Legacy.adsr Legacy.sampleRateVal
         channels voices sampleRateVal].
    split; [eauto|]. split; [|done]. rewrite Hvs, <- !list_fmap_compose.
    by apply list_fmap_ext.
  - exists q. eauto.
Qed.

End LegacyMessages.

Lemma plays_construct sin PI sr :
  plays (Legacy.construct sin PI sr) (construct sin PI sr).
Proof.
  unfold plays. split; [by exists (replicate 15 (defaultChannel sin PI))|].
  split; [|done]. reflexivity.
Qed.

Lemma legacy_process_simulated_witness :
  let p := fst (Legacy.handleMessage pow_floor
                  (Legacy.construct sin_approx PI_approx 48000) (Legacy.NOTE_ON 69 127)) in
  let q := fst (handleMessage pow_floor fresh (NOTE_ON 69 127 0)) in
  plays p q /\
  Legacy.active <$> Legacy.voices p !! 0%nat = Some true /\
  exists q',
    process q [[ [Some 0; Some 0; Some 0] ]]
    = (q', snd (Legacy.process p [[ [Some 0; Some 0; Some 0] ]])) /\
    plays (fst (Legacy.process p [[ [Some 0; Some 0; Some 0] ]])) q'.
Proof.
  assert (plays
            (fst (Legacy.handleMessage pow_floor
                    (Legacy.construct sin_approx PI_approx 48000) (Legacy.NOTE_ON 69 127)))
            (fst (handleMessage pow_floor fresh (NOTE_ON 69 127 0)))) as Hplays.
  { split; [|split; reflexivity].
    exists (replicate 15 (defaultChannel sin_approx PI_approx)). reflexivity. }
  split; [exact Hplays|]. split; [reflexivity|].
  apply (legacy_process_simulated
           (fst (Legacy.handleMessage pow_floor
                   (Legacy.construct sin_approx PI_approx 48000) (Legacy.NOTE_ON 69 127)))
           (fst (handleMessage pow_floor fresh (NOTE_ON 69 127 0)))).
  exact Hplays.
Defined.

Lemma legacy_message_simulated_witness :
  exists q',
    handleMessage pow_floor fresh (lift_message (Legacy.NOTE_ON 69 127))
    = (q', snd (Legacy.handleMessage pow_floor
                  (Legacy.construct sin_approx PI_approx 48000) (Legacy.NOTE_ON 69 127))) /\
    plays (fst (Legacy.handleMessage pow_floor
                  (Legacy.construct sin_approx PI_approx 48000) (Legacy.NOTE_ON 69 127))) q'.
Proof.
  apply (legacy_message_simulated pow_floor
           (Legacy.construct sin_approx PI_approx 48000) fresh).
  apply plays_construct.
Defined.

(** * The control side *)

Lemma synth_post_not_ready e m : Synth.isReady e = false -> Synth.post e m = e.
Proof. intros H. unfold Synth.post. by rewrite H. Qed.

Lemma synth_call_post e c : Synth.call e c = Synth.post e (Synth.message_of c).
Proof. by destruct c. Qed.

(** X18.  Until [init] has succeeded the engine drops every call: as
    long as the ready flag is unset (a new engine, or one whose [init]
    failed), any sequence of noteOn, noteOff, setChannelWavetable,
    setChannelADSR and stopAll calls leaves the engine as it was and
    posts nothing, so parameter edits made before that are lost. *)
Theorem synth_not_ready_drops_calls e cs :
  Synth.isReady e = false -> Synth.calls e cs = e.
Proof.
  intros Hoff. unfold Synth.calls. induction cs as [|c cs IH]; [done|].
  cbn [foldl]. by rewrite synth_call_post, synth_post_not_ready.
Qed.

Lemma synth_not_ready_drops_calls_witness :
  Synth.calls (Synth.init Synth.new Synth.ModuleFailed)
    [Synth.CallSetChannelADSR 0 {| a := 0.01; d := 0.1; s := 0; r := 0.1 |};
     Synth.CallNoteOn 60 100 0]
  = Synth.init Synth.new Synth.ModuleFailed.
Proof.
  apply (synth_not_ready_drops_calls (Synth.init Synth.new Synth.ModuleFailed)).
  reflexivity.
Defined.

Lemma synth_calls_ready port cs :
  Synth.calls {| Synth.workletNode := Some port; Synth.isReady := true |} cs
  = {| Synth.workletNode := Some (port ++ (Synth.message_of <$> cs));
       Synth.isReady := true |}.
Proof.
  revert port. unfold Synth.calls. induction cs as [|c cs IH]; intros port.
  - by rewrite app_nil_r.
  - cbn [foldl]. rewrite synth_call_post. unfold Synth.post. cbn [Synth.isReady negb Synth.workletNode].
    rewrite IH, fmap_cons. by rewrite <- app_assoc.
Qed.

(** X19.  Every successful [init] starts a new node.  Whatever was
    called before it, on whatever engine, after a successful [init]
    followed by some calls the node's port holds exactly the messages
    of those calls, in order; the processor behind it has therefore
    handled just these from its constructor state, and no parameter
    set earlier has reached it. *)
Theorem synth_init_starts_afresh pow sin PI sampleRate e before after :
  let e' := Synth.calls (Synth.init (Synth.calls e before) Synth.Initialized) after in
  Synth.isReady e' = true /\
  Synth.workletNode e' = Some (Synth.message_of <$> after) /\
  Synth.processor pow sin PI sampleRate e'
  = Some (handleAll pow (construct sin PI sampleRate) (Synth.message_of <$> after)).
Proof.
  cbn zeta. cbn [Synth.init]. rewrite synth_calls_ready. by repeat split.
Qed.

Lemma synth_init_starts_afresh_witness :
  Synth.workletNode
    (Synth.calls
       (Synth.init (Synth.calls (Synth.init Synth.new Synth.Initialized)
                      [Synth.CallSetChannelADSR 0 {| a := 1; d := 1; s := 0.8; r := 2 |}])
          Synth.Initialized)
       [Synth.CallNoteOn 60 100 0])
  = Some [NOTE_ON 60 100 0].
Proof.
  apply (synth_init_starts_afresh pow_floor sin_approx PI_approx 48000
           (Synth.init Synth.new Synth.Initialized)
           [Synth.CallSetChannelADSR 0 {| a := 1; d := 1; s := 0.8; r := 2 |}]
           [Synth.CallNoteOn 60 100 0]).
Defined.

(** * The editors *)

(** ** The ADSR editor *)

Lemma clamp_unit z : 0 <= Qmax 0 (Qmin 1 z) /\ Qmax 0 (Qmin 1 z) <= 1.
Proof.
  split; [apply Q.le_max_l|]. apply Q.max_lub; [lra | apply Q.le_min_l].
Qed.

Lemma adsr_mousemove_valid e cx cy :
  AdsrEditor.valid (AdsrEditor.values e) ->
  AdsrEditor.valid (AdsrEditor.values (fst (AdsrEditor.mousemove e cx cy))) /\
  forall v, snd (AdsrEditor.mousemove e cx cy) = Some v -> AdsrEditor.valid v.
Proof.
  intros (Ha & Hd & Hs & Hr). unfold AdsrEditor.mousemove.
  destruct (AdsrEditor.draggingPoint e) as [pt|]; cbn [fst snd AdsrEditor.values].
  - assert (AdsrEditor.valid
              (if (pt =? 1)%nat then
                 {| a := Qmax 0.01 (Qmax 0 cx / AdsrEditor.timeScale);
                    d := d (AdsrEditor.values e); s := s (AdsrEditor.values e);
                    r := r (AdsrEditor.values e) |}
               else if (pt =? 2)%nat then
                 {| a := a (AdsrEditor.values e);
                    d := Qmax 0.01 (Qmax 0 cx / AdsrEditor.timeScale
                                    - a (AdsrEditor.values e));
                    s := Qmax 0 (Qmin 1 ((AdsrEditor.canvas_height - 20 - Qmax 0 cy)
                                         / AdsrEditor.msgScale));
                    r := r (AdsrEditor.values e) |}
               else if (pt =? 4)%nat then
                 {| a := a (AdsrEditor.values e); d := d (AdsrEditor.values e);
                    s := s (AdsrEditor.values e);
                    r := Qmax 0.01 (Qmax 0 cx / AdsrEditor.timeScale
                                    - (a (AdsrEditor.values e)
                                       + d (AdsrEditor.values e) + 1)) |}
               else AdsrEditor.values e)) as Hv.
    { unfold AdsrEditor.valid.
      destruct (pt =? 1)%nat; [|destruct (pt =? 2)%nat; [|destruct (pt =? 4)%nat]];
        cbn [a d s r]; refine (conj _ (conj _ (conj _ _)));
        first [done | apply Q.le_max_l | apply clamp_unit]. }
    split; [exact Hv|]. by intros v [= <-].
  - split; [done|]. by intros v.
Qed.

Lemma adsr_step_valid e ev :
  AdsrEditor.valid (AdsrEditor.values e) -> AdsrEditor.event_ok ev ->
  AdsrEditor.valid (AdsrEditor.values (fst (AdsrEditor.step e ev))) /\
  forall v, snd (AdsrEditor.step e ev) = Some v -> AdsrEditor.valid v.
Proof.
  intros Hv Hev. destruct ev as [mx my|cx cy| |v]; cbn [AdsrEditor.step fst snd].
  - split; [|done]. unfold AdsrEditor.mousedown.
    cbn [AdsrEditor.getPoints]. by repeat case_match.
  - by apply adsr_mousemove_valid.
  - by split.
  - by split.
Qed.

(** X20.  Whatever the mouse does, the ADSR editor only ever holds and
    reports envelopes with times of at least 10 ms and a sustain level
    in [0,1]: starting from the constructor's values, after any run of
    mouse presses, moves and releases and of [setValues] calls with
    such envelopes, the editor's values and every value passed to
    [onChange] are of that kind. *)
Theorem adsr_editor_values_valid evs :
  Forall AdsrEditor.event_ok evs ->
  AdsrEditor.valid (AdsrEditor.values (fst (AdsrEditor.run AdsrEditor.new evs))) /\
  Forall AdsrEditor.valid (snd (AdsrEditor.run AdsrEditor.new evs)).
Proof.
  assert (AdsrEditor.valid (AdsrEditor.values AdsrEditor.new)) as Hnew.
  { unfold AdsrEditor.valid. simpl. lra. }
  revert Hnew. generalize AdsrEditor.new as e. intros e Hv Hevs. revert e Hv.
  induction Hevs as [|ev evs Hev _ IH]; intros e Hv; [by split|].
  cbn [AdsrEditor.run].
  destruct (adsr_step_valid e ev Hv Hev) as [Hv1 Hout].
  destruct (AdsrEditor.step e ev) as [e1 out]. cbn [fst snd] in *.
  destruct (IH e1 Hv1) as [Hv2 Houts].
  destruct (AdsrEditor.run e1 evs) as [e2 outs]. cbn [fst snd] in *.
  split; [done|]. destruct out as [v|]; [|done]. constructor; [by apply Hout|done].
Qed.

Lemma adsr_editor_values_valid_witness :
  let evs := [AdsrEditor.SetValues {| a := 0.01; d := 0.1; s := 0; r := 0.1 |};
              AdsrEditor.MouseDown 5 130; AdsrEditor.MouseMove 500 (-40);
              AdsrEditor.MouseUp] in
  AdsrEditor.valid (AdsrEditor.values (fst (AdsrEditor.run AdsrEditor.new evs))) /\
  Forall AdsrEditor.valid (snd (AdsrEditor.run AdsrEditor.new evs)).
Proof.
  apply adsr_editor_values_valid.
  repeat constructor; unfold AdsrEditor.valid; simpl; lra.
Defined.

(** X22.  Dragging a handle moves only what that handle stands for.
    While handle 1, 2 or 4 is being dragged, a mouse move to any
    coordinates reports the new values through [onChange], keeps the
    drag going, and keeps [d], [s], [r] (handle 1), [a], [r] (handle 2)
    or [a], [d], [s] (handle 4) exactly as they were. *)
Theorem adsr_drag_handle e pt cx cy :
  AdsrEditor.draggingPoint e = Some pt ->
  pt = 1%nat \/ pt = 2%nat \/ pt = 4%nat ->
  exists v,
    AdsrEditor.mousemove e cx cy
    = ({| AdsrEditor.values := v; AdsrEditor.draggingPoint := Some pt |}, Some v) /\
    (pt = 1%nat -> d v = d (AdsrEditor.values e) /\ s v = s (AdsrEditor.values e) /\
                   r v = r (AdsrEditor.values e)) /\
    (pt = 2%nat -> a v = a (AdsrEditor.values e) /\ r v = r (AdsrEditor.values e)) /\
    (pt = 4%nat -> a v = a (AdsrEditor.values e) /\ d v = d (AdsrEditor.values e) /\
                   s v = s (AdsrEditor.values e)).
Proof.
  intros Hdrag Hpt. unfold AdsrEditor.mousemove. rewrite Hdrag.
  eexists. split; [reflexivity|].
  destruct Hpt as [-> | [-> | ->]]; cbn [Nat.eqb a d s r];
    (split; [try done|]); (split; try done).
Qed.

Lemma adsr_drag_handle_witness :
  let e := AdsrEditor.mousedown AdsrEditor.new 15 80 in
  exists v,
    AdsrEditor.mousemove e 40 20
    = ({| AdsrEditor.values := v; AdsrEditor.draggingPoint := Some 2%nat |}, Some v) /\
    (2%nat = 1%nat -> d v = d (AdsrEditor.values e) /\ s v = s (AdsrEditor.values e) /\
                      r v = r (AdsrEditor.values e)) /\
    (2%nat = 2%nat -> a v = a (AdsrEditor.values e) /\ r v = r (AdsrEditor.values e)) /\
    (2%nat = 4%nat -> a v = a (AdsrEditor.values e) /\ d v = d (AdsrEditor.values e) /\
                      s v = s (AdsrEditor.values e)).
Proof.
  apply (adsr_drag_handle (AdsrEditor.mousedown AdsrEditor.new 15 80) 2 40 20).
  - by vm_compute.
  - right. by left.
Defined.

(** ** The wavetable editor *)

Lemma clamp_pm1 z : - (1) <= Qmax (- (1)) (Qmin 1 z) /\ Qmax (- (1)) (Qmin 1 z) <= 1.
Proof.
  split; [apply Q.le_max_l|]. apply Q.max_lub; [lra | apply Q.le_min_l].
Qed.

Lemma wt_handleDraw_valid e x y :
  WavetableEditor.valid (WavetableEditor.waveform e) ->
  WavetableEditor.valid
    (WavetableEditor.waveform (fst (WavetableEditor.handleDraw e x y))) /\
  snd (WavetableEditor.handleDraw e x y)
  = Some (WavetableEditor.waveform (fst (WavetableEditor.handleDraw e x y))).
Proof.
  intros [Hlen Hall]. unfold WavetableEditor.handleDraw.
  cbn [fst snd WavetableEditor.waveform]. split; [|done]. split.
  - etrans; [apply length_insert|done].
  - apply Forall_insert; [done|]. apply clamp_pm1.
Qed.

Lemma wt_step_valid e ev :
  WavetableEditor.valid (WavetableEditor.waveform e) -> WavetableEditor.event_ok ev ->
  WavetableEditor.valid (WavetableEditor.waveform (fst (WavetableEditor.step e ev))) /\
  forall wf, snd (WavetableEditor.step e ev) = Some wf -> WavetableEditor.valid wf.
Proof.
  intros Hv Hev.
  destruct ev as [x y|inside x y| |wf]; cbn [WavetableEditor.step].
  - unfold WavetableEditor.mousedown.
    destruct (wt_handleDraw_valid
                {| WavetableEditor.waveform := WavetableEditor.waveform e;
                   WavetableEditor.isDrawing := true |} x y Hv) as [H1 H2].
    split; [done|]. intros wf Hwf. rewrite H2 in Hwf. by injection Hwf as <-.
  - unfold WavetableEditor.mousemove.
    destruct (WavetableEditor.isDrawing e); cbn [negb]; [|by split].
    destruct inside; [|by split].
    destruct (wt_handleDraw_valid e x y Hv) as [H1 H2].
    split; [done|]. intros wf Hwf. rewrite H2 in Hwf. by injection Hwf as <-.
  - by split.
  - unfold WavetableEditor.setWaveform.
    destruct (Nat.eqb_spec (length wf) 32) as [Hlen|]; cbn [negb]; [|by split].
    destruct Hv as [Hl Hall].
    rewrite typed_set_same_length by congruence. cbn [fst snd WavetableEditor.waveform].
    split; [by split|]. intros ? [= <-]. by split.
Qed.

(** X23.  The wavetable editor always holds a table of 32 entries in
    [-1, 1], and passes only such tables to [onChange].  With a sine
    within [-1, 1] for the default table: after any run of drawing
    (mouse presses and moves at any coordinates, inside the canvas or
    not), mouse releases and [setWaveform] calls with entries in
    [-1, 1] (of any length), the table and every table reported have
    exactly 32 entries, all in [-1, 1]. *)
Theorem wavetable_editor_tables_valid sin PI evs :
  (forall z, - (1) <= sin z <= 1) ->
  Forall WavetableEditor.event_ok evs ->
  WavetableEditor.valid
    (WavetableEditor.waveform (fst (WavetableEditor.run (WavetableEditor.new sin PI) evs))) /\
  Forall WavetableEditor.valid (snd (WavetableEditor.run (WavetableEditor.new sin PI) evs)).
Proof.
  intros Hsin Hevs.
  assert (WavetableEditor.valid (WavetableEditor.waveform (WavetableEditor.new sin PI)))
    as Hnew.
  { split; [reflexivity|]. cbn [WavetableEditor.new WavetableEditor.waveform].
    apply Forall_fmap, Forall_true. intros i. apply Hsin. }
  revert Hnew. generalize (WavetableEditor.new sin PI) as e. intros e Hv. revert e Hv.
  induction Hevs as [|ev evs Hev _ IH]; intros e Hv; [by split|].
  cbn [WavetableEditor.run].
  destruct (wt_step_valid e ev Hv Hev) as [Hv1 Hout].
  destruct (WavetableEditor.step e ev) as [e1 out]. cbn [fst snd] in *.
  destruct (IH e1 Hv1) as [Hv2 Houts].
  destruct (WavetableEditor.run e1 evs) as [e2 outs]. cbn [fst snd] in *.
  split; [done|]. destruct out as [wf|]; [|done]. constructor; [by apply Hout|done].
Qed.

Lemma wavetable_editor_tables_valid_witness :
  let evs := [WavetableEditor.MouseDown (-5) 200; WavetableEditor.MouseMove true 400 (-3);
              WavetableEditor.SetWaveform [0; 1]; WavetableEditor.MouseUp] in
  WavetableEditor.valid
    (WavetableEditor.waveform
       (fst (WavetableEditor.run (WavetableEditor.new sin_clamped PI_approx) evs))) /\
  Forall WavetableEditor.valid
    (snd (WavetableEditor.run (WavetableEditor.new sin_clamped PI_approx) evs)).
Proof.
  apply (wavetable_editor_tables_valid sin_clamped PI_approx).
  - apply sin_clamped_bounded.
  - repeat constructor; simpl; lra.
Defined.

(** X24.  A stroke of the pen changes one column.  For any coordinates
    the column written is [min 31 (max 0 (floor (x / 10)))], which is
    one of 0..31, and for [x] inside the canvas it is the 10-pixel
    column that contains [x]: on a 32-entry table that entry is set to
    a value within [-1, 1], every other entry stays as it was, the
    table keeps its length, and the new table is what is reported. *)
Theorem wavetable_draw_one_column e x y :
  length (WavetableEditor.waveform e) = 32%nat ->
  let col := Z.to_nat (Z.min 31 (Z.max 0 (Qfloor (x / 10)))) in
  let wf := WavetableEditor.waveform (fst (WavetableEditor.handleDraw e x y)) in
  (col < 32)%nat /\
  (exists z, wf !! col = Some z /\ - (1) <= z /\ z <= 1) /\
  (forall j, j <> col -> wf !! j = WavetableEditor.waveform e !! j) /\
  length wf = 32%nat /\
  snd (WavetableEditor.handleDraw e x y) = Some wf /\
  (0 <= x -> x < 320 -> inject_Z (Z.of_nat col) * 10 <= x /\
                        x < inject_Z (Z.of_nat col) * 10 + 10) /\
  (x < 0 -> col = 0%nat) /\ (320 <= x -> col = 31%nat).
Proof.
  intros Hlen col wf. subst wf. unfold WavetableEditor.handleDraw.
  cbn [fst snd WavetableEditor.waveform]. fold col.
  assert (col < 32)%nat as Hcol by (unfold col; lia).
  pose proof (Qfloor_le (x / 10)) as Hle. pose proof (Qlt_floor (x / 10)) as Hlt.
  rewrite inject_Z_plus in Hlt. change (inject_Z 1) with 1 in Hlt.
  assert (x / 10 * 10 == x) as Hx by (field).
  split; [done|]. split.
  { eexists. split; [apply list_lookup_insert_eq; unfold Float32Array, number in *; lia|].
    apply clamp_pm1. }
  split; [intros j Hj; by apply list_lookup_insert_ne|].
  split; [etrans; [apply length_insert|done]|]. split; [done|].
  split; [|split].
  - intros Hx0 Hx1.
    assert (0 <= Qfloor (x / 10) <= 31)%Z as Hrange.
    { split.
      - assert (0 < Qfloor (x / 10) + 1)%Z; [|lia].
        rewrite Zlt_Qlt, inject_Z_plus. change (inject_Z 0) with 0.
        change (inject_Z 1) with 1.
        assert (0 <= x / 10) by (apply div_nonneg; lra). lra.
      - assert (Qfloor (x / 10) < 32)%Z; [|lia].
        rewrite Zlt_Qlt. change (inject_Z 32) with 32.
        assert (x / 10 < 32) by (apply Qlt_shift_div_r; lra). lra. }
    unfold col. rewrite Z.min_r, Z.max_r, Z2Nat.id by lia. lra.
  - intros Hneg.
    assert (Qfloor (x / 10) < 0)%Z as Hfl.
    { rewrite Zlt_Qlt. change (inject_Z 0) with 0.
      assert (x / 10 < 0) by (apply Qlt_shift_div_r; lra). lra. }
    unfold col. rewrite Z.max_l by lia. reflexivity.
  - intros Hbig.
    assert (31 <= Qfloor (x / 10))%Z as Hfl.
    { assert (31 < Qfloor (x / 10) + 1)%Z; [|lia].
      rewrite Zlt_Qlt, inject_Z_plus. change (inject_Z 31) with 31.
      change (inject_Z 1) with 1.
      assert (32 <= x / 10) by (apply Qle_shift_div_l; lra). lra. }
    unfold col. rewrite Z.max_r, Z.min_l by lia. reflexivity.
Qed.

Lemma wavetable_draw_one_column_witness :
  let e := WavetableEditor.new sin_clamped PI_approx in
  let col := Z.to_nat (Z.min 31 (Z.max 0 (Qfloor (47 / 10)))) in
  let wf := WavetableEditor.waveform (fst (WavetableEditor.handleDraw e 47 30)) in
  (col < 32)%nat /\
  (exists z, wf !! col = Some z /\ - (1) <= z /\ z <= 1) /\
  (forall j, j <> col -> wf !! j = WavetableEditor.waveform e !! j) /\
  length wf = 32%nat /\
  snd (WavetableEditor.handleDraw e 47 30) = Some wf /\
  (0 <= 47 -> 47 < 320 -> inject_Z (Z.of_nat col) * 10 <= 47 /\
                          47 < inject_Z (Z.of_nat col) * 10 + 10) /\
  (47 < 0 -> col = 0%nat) /\ (320 <= 47 -> col = 31%nat).
Proof.
  apply (wavetable_draw_one_column (WavetableEditor.new sin_clamped PI_approx) 47 30).
  reflexivity.
Defined.

Lemma phase_of_index (i : nat) :
  (i < 32)%nat ->
  0 <= inject_Z (Z.of_nat i) / 32 /\ inject_Z (Z.of_nat i) / 32 <= 31 # 32.
Proof.
  intros Hi.
  assert (0 <= inject_Z (Z.of_nat i)) as H0.
  { change 0 with (inject_Z 0). rewrite <- Zle_Qle. lia. }
  assert (inject_Z (Z.of_nat i) <= 31) as H1.
  { change 31 with (inject_Z 31). rewrite <- Zle_Qle. lia. }
  split.
  - apply Qle_shift_div_l; lra.
  - apply Qle_shift_div_r; [lra|].
    assert ((31 # 32) * 32 == 31) as -> by reflexivity. done.
Qed.

(** X25.  Every preset is a table the editor and the processor take.
    With [Math.random] returning values in [0, 1), [generateWt] gives,
    for each of the four shapes, 32 entries within [-1, 1]; so
    [setWaveform] of an editor stores exactly that table and reports
    it. *)
Theorem generateWt_accepted random type e :
  (forall i, 0 <= random i /\ random i < 1) ->
  length (WavetableEditor.waveform e) = 32%nat ->
  WavetableEditor.valid (WavetableEditor.generateWt random type) /\
  WavetableEditor.setWaveform e (WavetableEditor.generateWt random type)
  = ({| WavetableEditor.waveform := WavetableEditor.generateWt random type;
        WavetableEditor.isDrawing := WavetableEditor.isDrawing e |},
     Normal (Some (WavetableEditor.generateWt random type))).
Proof.
  intros Hrand Hlen.
  assert (length (WavetableEditor.generateWt random type) = 32%nat) as Hl.
  { unfold WavetableEditor.generateWt. by rewrite length_map, length_seq. }
  split; [split; [done|]|].
  - unfold WavetableEditor.generateWt. apply Forall_forall. intros v Hv.
    apply list_elem_of_In, in_map_iff in Hv. destruct Hv as (i & <- & Hi).
    apply in_seq in Hi.
    destruct (phase_of_index i ltac:(lia)) as [Hp0 Hp1].
    set (ph := inject_Z (Z.of_nat i) / 32) in *. cbv zeta.
    destruct type.
    + destruct (gtb 0.5 ph); lra.
    + destruct (gtb 0.5 ph) eqn:Hhalf.
      * apply gtb_lt in Hhalf. lra.
      * apply gtb_le in Hhalf. lra.
    + lra.
    + destruct (Hrand i). lra.
  - unfold WavetableEditor.setWaveform. rewrite Hl. cbn [Nat.eqb negb].
    rewrite typed_set_same_length by congruence. reflexivity.
Qed.

Lemma generateWt_accepted_witness :
  WavetableEditor.valid
    (WavetableEditor.generateWt (fun _ => 1 # 2) WavetableEditor.rand) /\
  WavetableEditor.setWaveform (WavetableEditor.new sin_clamped PI_approx)
    (WavetableEditor.generateWt (fun _ => 1 # 2) WavetableEditor.rand)
  = ({| WavetableEditor.waveform :=
          WavetableEditor.generateWt (fun _ => 1 # 2) WavetableEditor.rand;
        WavetableEditor.isDrawing :=
          WavetableEditor.isDrawing (WavetableEditor.new sin_clamped PI_approx) |},
     Normal (Some (WavetableEditor.generateWt (fun _ => 1 # 2) WavetableEditor.rand))).
Proof.
  apply (generateWt_accepted (fun _ => 1 # 2) WavetableEditor.rand
           (WavetableEditor.new sin_clamped PI_approx)).
  - intros _. split; lra.
  - reflexivity.
Defined.

(** * The page and the processor *)

Lemma handleAll_snoc pow p ms m :
  handleAll pow p (ms ++ [m]) = fst (handleMessage pow (handleAll pow p ms) m).
Proof. unfold handleAll. by rewrite foldl_app. Qed.

Lemma wt_step_length e ev :
  length (WavetableEditor.waveform e) = 32%nat ->
  length (WavetableEditor.waveform (fst (WavetableEditor.step e ev))) = 32%nat /\
  forall wf, snd (WavetableEditor.step e ev) = Some wf -> length wf = 32%nat.
Proof.
  intros Hlen.
  assert (forall e x y, length (WavetableEditor.waveform e) = 32%nat ->
            length (WavetableEditor.waveform (fst (WavetableEditor.handleDraw e x y)))
            = 32%nat /\
            forall wf, snd (WavetableEditor.handleDraw e x y) = Some wf ->
                       length wf = 32%nat) as Hdraw.
  { intros e0 x y H0. unfold WavetableEditor.handleDraw.
    cbn [fst snd WavetableEditor.waveform].
    split; [etrans; [apply length_insert|done]|].
    intros wf [= <-]. etrans; [apply length_insert|done]. }
  destruct ev as [x y|inside x y| |wf]; cbn [WavetableEditor.step].
  - unfold WavetableEditor.mousedown. by apply Hdraw.
  - unfold WavetableEditor.mousemove.
    destruct (WavetableEditor.isDrawing e); cbn [negb]; [|by split].
    destruct inside; [by apply Hdraw | by split].
  - by split.
  - unfold WavetableEditor.setWaveform.
    destruct (Nat.eqb_spec (length wf) 32) as [Hwf|]; cbn [negb]; [|by split].
    rewrite typed_set_same_length by congruence. cbn [fst snd WavetableEditor.waveform].
    split; [done|]. by intros ? [= <-].
Qed.

Section Page.

Variable pow : number -> number -> number.
Variable sin : number -> number.
Variables PI sampleRate : number.

Lemma onWavetableChange_synced app wf :
  in_sync pow sin PI sampleRate app -> app_shape app -> length wf = 32%nat ->
  in_sync pow sin PI sampleRate (fst (App.onWavetableChange app wf)) /\
  app_shape (fst (App.onWavetableChange app wf)) /\
  snd (App.onWavetableChange app wf) = Normal tt.
Proof.
  intros (Hready & p & Hp & Hch) (Hlen & Hed & Hwt & Hall) Hwf.
  destruct (lookup_lt_is_Some_2 (App.channelStates app) (App.editingChannel app))
    as [st Hst]; [lia|].
  pose proof (Forall_lookup_1 _ _ _ _ Hall Hst) as Hstlen. cbn beta in Hstlen.
  unfold App.onWavetableChange. rewrite Hst.
  rewrite typed_set_same_length by congruence. cbn [fst snd].
  unfold Synth.processor in Hp.
  destruct (Synth.workletNode (App.synth app)) as [msgs|] eqn:Hnode; [|done].
  injection Hp as <-.
  split; [|split; [|done]].
  - unfold in_sync. cbn [App.synth App.channelStates].
    unfold Synth.setChannelWavetable, Synth.post. rewrite Hready, Hnode.
    cbn [negb Synth.isReady]. split; [done|].
    eexists. split.
    { unfold Synth.processor. cbn [Synth.workletNode fmap option_fmap option_map].
      reflexivity. }
    rewrite handleAll_snoc. cbn [handleMessage]. rewrite array_index_chan.
    rewrite Hch, Hst, Hwf. cbn [Nat.eqb].
    rewrite typed_set_same_length by congruence. reflexivity.
  - unfold app_shape. cbn [App.channelStates App.editingChannel App.wtEditor].
    split; [by rewrite length_insert|]. split; [done|]. split; [done|].
    by apply Forall_insert.
Qed.

Lemma onAdsrChange_synced app env :
  in_sync pow sin PI sampleRate app -> app_shape app ->
  in_sync pow sin PI sampleRate (fst (App.onAdsrChange app env)) /\
  app_shape (fst (App.onAdsrChange app env)) /\
  snd (App.onAdsrChange app env) = Normal tt.
Proof.
  intros (Hready & p & Hp & Hch) (Hlen & Hed & Hwt & Hall).
  destruct (lookup_lt_is_Some_2 (App.channelStates app) (App.editingChannel app))
    as [st Hst]; [lia|].
  pose proof (Forall_lookup_1 _ _ _ _ Hall Hst) as Hstlen. cbn beta in Hstlen.
  unfold App.onAdsrChange. rewrite Hst. cbn [fst snd].
  unfold Synth.processor in Hp.
  destruct (Synth.workletNode (App.synth app)) as [msgs|] eqn:Hnode; [|done].
  injection Hp as <-.
  split; [|split; [|done]].
  - unfold in_sync. cbn [App.synth App.channelStates].
    unfold Synth.setChannelADSR, Synth.post. rewrite Hready, Hnode.
    cbn [negb Synth.isReady]. split; [done|].
    eexists. split.
    { unfold Synth.processor. cbn [Synth.workletNode fmap option_fmap option_map].
      reflexivity. }
    rewrite handleAll_snoc. cbn [handleMessage]. rewrite array_index_chan.
    rewrite Hch, Hst. reflexivity.
  - unfold app_shape. cbn [App.channelStates App.editingChannel App.wtEditor].
    split; [by rewrite length_insert|]. split; [done|]. split; [done|].
    by apply Forall_insert.
Qed.

Lemma wavetableEvent_synced app ev :
  in_sync pow sin PI sampleRate app -> app_shape app ->
  in_sync pow sin PI sampleRate (fst (App.wavetableEvent app ev)) /\
  app_shape (fst (App.wavetableEvent app ev)) /\
  snd (App.wavetableEvent app ev) = Normal tt /\
  App.editingChannel (fst (App.wavetableEvent app ev)) = App.editingChannel app.
Proof.
  intros Hs Hshape. pose proof Hshape as (Hlen & Hed & Hwt & Hall).
  unfold App.wavetableEvent.
  destruct (wt_step_length (App.wtEditor app) ev Hwt) as [Hed' Hout].
  destruct (WavetableEditor.step (App.wtEditor app) ev) as [ed out].
  cbn [fst snd] in Hed', Hout.
  set (app1 := {| App.synth := App.synth app; App.wtEditor := ed;
                  App.adsrEditor := App.adsrEditor app;
                  App.editingChannel := App.editingChannel app;
                  App.channelStates := App.channelStates app |}).
  assert (in_sync pow sin PI sampleRate app1) as Hs1 by exact Hs.
  assert (app_shape app1) as Hshape1 by (by split).
  destruct out as [wf|]; [|cbn [fst snd]; split; [done|]; split; [done|]; by split].
  destruct (onWavetableChange_synced app1 wf Hs1 Hshape1 (Hout wf eq_refl))
    as (H1 & H2 & H3).
  split; [done|]. split; [done|]. split; [done|].
  unfold App.onWavetableChange.
  destruct (App.channelStates app1 !! App.editingChannel app1); [|done].
  by destruct (typed_set _ _).
Qed.

Lemma adsrEvent_synced app ev :
  in_sync pow sin PI sampleRate app -> app_shape app ->
  in_sync pow sin PI sampleRate (fst (App.adsrEvent app ev)) /\ app_shape (fst (App.adsrEvent app ev)).
Proof.
  intros Hs Hshape. unfold App.adsrEvent.
  destruct (AdsrEditor.step (App.adsrEditor app) ev) as [ed out].
  set (app1 := {| App.synth := App.synth app; App.wtEditor := App.wtEditor app;
                  App.adsrEditor := ed;
                  App.editingChannel := App.editingChannel app;
                  App.channelStates := App.channelStates app |}).
  assert (in_sync pow sin PI sampleRate app1) as Hs1 by exact Hs.
  assert (app_shape app1) as Hshape1 by exact Hshape.
  destruct out as [env|]; [|by split].
  by destruct (onAdsrChange_synced app1 env Hs1 Hshape1) as (H1 & H2 & _).
Qed.

Lemma updateEditorLabels_synced app :
  in_sync pow sin PI sampleRate app -> app_shape app ->
  in_sync pow sin PI sampleRate (fst (App.updateEditorLabels app)) /\
  app_shape (fst (App.updateEditorLabels app)).
Proof.
  intros Hs Hshape. pose proof Hshape as (Hlen & Hed & Hwt & Hall).
  unfold App.updateEditorLabels.
  destruct (lookup_lt_is_Some_2 (App.channelStates app) (App.editingChannel app))
    as [st Hst]; [lia|].
  rewrite Hst.
  destruct (wavetableEvent_synced app (WavetableEditor.SetWaveform (wavetable st))
              Hs Hshape) as (H1 & H2 & H3 & H4).
  destruct (App.wavetableEvent app (WavetableEditor.SetWaveform (wavetable st)))
    as [app1 c]. cbn [fst snd] in *. subst c.
  pose proof H2 as (Hlen1 & Hed1 & Hwt1 & Hall1).
  destruct (lookup_lt_is_Some_2 (App.channelStates app1) (App.editingChannel app1))
    as [st1 Hst1]; [lia|].
  rewrite Hst1. cbn [fst]. by split.
Qed.

Lemma step_synced app ev :
  in_sync pow sin PI sampleRate app -> app_shape app -> App.editing ev ->
  in_sync pow sin PI sampleRate (fst (App.step app ev)) /\ app_shape (fst (App.step app ev)).
Proof.
  intros Hs Hshape Hev. destruct ev as [e|e|i|o]; cbn [App.step].
  - by destruct (wavetableEvent_synced app e Hs Hshape) as (H1 & H2 & _).
  - by apply adsrEvent_synced.
  - unfold App.editRadioChange. apply updateEditorLabels_synced; [exact Hs|].
    destruct Hshape as (Hlen & Hed & Hwt & Hall). by split.
  - cbn in Hev. subst o. cbn [fst Synth.init]. by destruct app.
Qed.

Lemma run_synced app evs :
  in_sync pow sin PI sampleRate app -> app_shape app -> Forall App.editing evs ->
  in_sync pow sin PI sampleRate (App.run app evs) /\ app_shape (App.run app evs).
Proof.
  intros Hs Hshape Hevs. revert app Hs Hshape.
  induction Hevs as [|ev evs Hev _ IH]; intros app Hs Hshape; [by split|].
  unfold App.run. cbn [foldl].
  destruct (step_synced app ev Hs Hshape Hev) as [H1 H2]. by apply IH.
Qed.

Lemma app_shape_new : app_shape (App.new sin PI).
Proof.
  unfold app_shape. cbn [App.new App.channelStates App.editingChannel App.wtEditor].
  split; [done|]. split; [lia|]. split; [done|].
  apply Forall_replicate. done.
Qed.

End Page.

(** X26.  The page's copy of the channel parameters is what the
    processor holds, as long as the audio node is the same.  Start the
    page, initialise the audio once, then edit in any way: strokes and
    presets in the wavetable editor, drags and presets in the ADSR
    editor, switching the edited channel among the sixteen.  The
    processor behind the node, having handled every message posted,
    then has exactly the wavetable and the envelope of [channelStates]
    on each of its sixteen channels. *)
Theorem page_copy_in_sync pow sin PI sampleRate evs :
  Forall App.editing evs ->
  let app := App.run (fst (App.step (App.new sin PI) (App.InitAudio Synth.Initialized)))
                     evs in
  exists p, Synth.processor pow sin PI sampleRate (App.synth app) = Some p /\
            channels p = App.channelStates app /\
            length (channels p) = 16%nat.
Proof.
  intros Hevs app.
  destruct (run_synced pow sin PI sampleRate
              (fst (App.step (App.new sin PI) (App.InitAudio Synth.Initialized))) evs)
    as [(Hready & p & Hp & Hch) (Hlen & _)].
  - split; [done|]. eexists. split; [reflexivity|]. reflexivity.
  - apply app_shape_new.
  - exact Hevs.
  - exists p. split; [done|]. split; [done|]. by rewrite Hch.
Qed.

Lemma page_copy_in_sync_witness :
  let evs := [App.WavetableEvent (WavetableEditor.MouseDown 47 30);
              App.EditChannel 9;
              App.AdsrEvent (AdsrEditor.MouseDown 5 30);
              App.AdsrEvent (AdsrEditor.MouseMove 60 30);
              App.WavetableEvent
                (WavetableEditor.SetWaveform
                   (WavetableEditor.generateWt (fun _ => 1 # 2) WavetableEditor.saw))] in
  let app := App.run (fst (App.step (App.new sin_clamped PI_approx)
                                    (App.InitAudio Synth.Initialized))) evs in
  exists p, Synth.processor pow_floor sin_clamped PI_approx 48000 (App.synth app) = Some p /\
            channels p = App.channelStates app /\
            length (channels p) = 16%nat.
Proof.
  apply (page_copy_in_sync pow_floor sin_clamped PI_approx 48000).
  repeat constructor.
Defined.

(** X27.  A new audio node forgets the edits.  Play calls [init] each
    time, and a successful [init] puts a new node in place of the old
    one: whatever the page's copy of the channel parameters is, the
    engine is then ready and the processor behind its node is the
    freshly constructed one, while the copy and both editors are as
    before.  So a copy that differs from the defaults is not what the
    processor plays until every edited channel is edited again. *)
Theorem init_forgets_edits pow sin PI sampleRate app :
  App.channelStates app <> App.channelStates (App.new sin PI) ->
  let app' := fst (App.step app (App.InitAudio Synth.Initialized)) in
  App.channelStates app' = App.channelStates app /\
  App.wtEditor app' = App.wtEditor app /\
  App.adsrEditor app' = App.adsrEditor app /\
  Synth.isReady (App.synth app') = true /\
  Synth.processor pow sin PI sampleRate (App.synth app')
  = Some (construct sin PI sampleRate) /\
  channels (construct sin PI sampleRate) <> App.channelStates app'.
Proof.
  intros Hne app'. subst app'. cbn [App.step fst App.channelStates App.wtEditor
                                     App.adsrEditor App.synth Synth.init Synth.isReady].
  do 5 (split; [reflexivity|]). intros Heq. apply Hne. by rewrite <- Heq.
Qed.

Lemma init_forgets_edits_witness :
  let app := App.run (App.new sin_clamped PI_approx)
               [App.WavetableEvent (WavetableEditor.MouseDown 47 30)] in
  let app' := fst (App.step app (App.InitAudio Synth.Initialized)) in
  App.channelStates app' = App.channelStates app /\
  App.wtEditor app' = App.wtEditor app /\
  App.adsrEditor app' = App.adsrEditor app /\
  Synth.isReady (App.synth app') = true /\
  Synth.processor pow_floor sin_clamped PI_approx 48000 (App.synth app')
  = Some (construct sin_clamped PI_approx 48000) /\
  channels (construct sin_clamped PI_approx 48000) <> App.channelStates app'.
Proof.
  apply (init_forgets_edits pow_floor sin_clamped PI_approx 48000
           (App.run (App.new sin_clamped PI_approx)
              [App.WavetableEvent (WavetableEditor.MouseDown 47 30)])).
  intros Heq.
  apply (f_equal (fun l : list ChannelState =>
                    match l !! 0%nat with
                    | Some st => wavetable st !! 4%nat
                    | None => None
                    end)) in Heq.
  vm_compute in Heq. discriminate Heq.
Defined.

(** * Playback *)

Lemma filter_split {A} (f g h : A -> bool) (l : list A) :
  (forall x, h x = f x || g x) -> (forall x, f x && g x = false) ->
  List.filter f l ++ List.filter g l ≡ₚ List.filter h l.
Proof.
  intros Hh Hfg. induction l as [|x l IH]; [done|].
  cbn [List.filter]. rewrite Hh. specialize (Hfg x).
  destruct (f x), (g x); cbn [orb] in *; try done.
  - cbn [app]. by constructor.
  - rewrite <- Permutation_middle. by constructor.
Qed.

Lemma flat_map_split {A B} (f g h : A -> list B) (l : list A) :
  (forall x, f x ++ g x ≡ₚ h x) ->
  flat_map f l ++ flat_map g l ≡ₚ flat_map h l.
Proof.
  intros H. induction l as [|x l IH]; [done|].
  cbn [flat_map]. rewrite <- (H x), <- IH.
  rewrite <- !app_assoc. apply Permutation_app_head.
  rewrite !app_assoc. apply Permutation_app_tail, Permutation_app_comm.
Qed.

Lemma in_window_split lo mid hi note :
  lo <= mid -> mid <= hi ->
  Player.in_window lo hi note
  = Player.in_window lo mid note || Player.in_window mid hi note /\
  Player.in_window lo mid note && Player.in_window mid hi note = false.
Proof.
  intros H1 H2. unfold Player.in_window.
  destruct (geb (Midi.time note) lo) eqn:E1, (gtb hi (Midi.time note)) eqn:E2,
           (geb (Midi.time note) mid) eqn:E3, (gtb mid (Midi.time note)) eqn:E4;
    cbn [andb orb]; split; try reflexivity; exfalso;
    repeat match goal with
      | H : geb _ _ = true |- _ => apply geb_le in H
      | H : geb _ _ = false |- _ => apply geb_gt in H
      | H : gtb _ _ = true |- _ => apply gtb_lt in H
      | H : gtb _ _ = false |- _ => apply gtb_le in H
      end; lra.
Qed.

Lemma due_split tracks active lo mid hi :
  lo <= mid -> mid <= hi ->
  Player.due tracks active lo mid ++ Player.due tracks active mid hi
  ≡ₚ Player.due tracks active lo hi.
Proof.
  intros H1 H2. unfold Player.due. apply flat_map_split. intros track. cbv zeta.
  destruct (active _); [|done].
  rewrite <- map_app. apply Permutation_map, filter_split.
  - intros note. by apply in_window_split.
  - intros note. by eapply in_window_split.
Qed.

Lemma noteOns_app effs1 effs2 :
  Player.noteOns (effs1 ++ effs2) = Player.noteOns effs1 ++ Player.noteOns effs2.
Proof. unfold Player.noteOns. apply flat_map_app. Qed.

Lemma loop_playing tracks active now t :
  Player.isPlaying t = true -> now - Player.startTime t <= Player.duration t ->
  fst (Player.loop (Some tracks) active now t)
  = {| Player.isPlaying := true; Player.startTime := Player.startTime t;
       Player.scheduledTill := Player.limit t now;
       Player.pauseTime := Player.pauseTime t; Player.duration := Player.duration t |} /\
  Player.noteOns (snd (Player.loop (Some tracks) active now t))
  = map Player.noteOn_of
      (Player.due tracks active (Player.scheduledTill t) (Player.limit t now)).
Proof.
  intros Hplay Hdur. unfold Player.loop. rewrite Hplay. cbn [negb].
  rewrite (proj2 (gtb_le _ _) Hdur). cbn [fst snd]. split; [reflexivity|].
  unfold Player.due, Player.limit.
  induction tracks as [|track tracks IH]; [done|].
  cbn [flat_map]. rewrite noteOns_app, map_app, IH. f_equal.
  destruct (active (default 0 (Midi.channel track))); cbn [negb].
  - induction (Midi.notes track) as [|note ns IHn]; [done|].
    cbn [flat_map List.filter]. rewrite noteOns_app, IHn.
    unfold Player.in_window at 2.
    by destruct (geb _ _ && gtb _ _).
  - induction (Midi.notes track) as [|note ns IHn]; [done|]. done.
Qed.

Lemma last_cons_default {A} (y x : A) (l : list A) :
  List.last (y :: l) x = List.last l y.
Proof.
  revert x y. induction l as [|z l IH]; intros x y; [done|].
  change (List.last (y :: z :: l) x) with (List.last (z :: l) x).
  by rewrite (IH x z), (IH y z).
Qed.

Lemma ascending_le_last x l : Player.ascending (x :: l) -> x <= List.last l x.
Proof.
  revert x. induction l as [|y l IH]; intros x H; [cbn; lra|].
  destruct H as [Hxy Hrest]. specialize (IH y Hrest).
  rewrite last_cons_default. lra.
Qed.

(** X28.  Each note is scheduled exactly once.  While the transport is
    playing a loaded file, over any number of frames whose clock never
    runs past the end of the file and whose look-ahead limit never
    moves back, the note-on timers set are, up to their order, one for
    each note of a playing channel whose time lies between the
    [scheduledTill] at the start and the last frame's limit, the start
    included: none of these notes is left out, none gets two timers,
    and no other note gets one.  The transport is still playing, with
    [scheduledTill] at that limit. *)
Theorem notes_scheduled_once tracks active t nows :
  Player.isPlaying t = true ->
  Forall (fun now => now - Player.startTime t <= Player.duration t) nows ->
  Player.ascending (Player.scheduledTill t :: map (Player.limit t) nows) ->
  let r := Player.frames (Some tracks) active t nows in
  Player.isPlaying (fst r) = true /\
  Player.scheduledTill (fst r)
  = List.last (map (Player.limit t) nows) (Player.scheduledTill t) /\
  Player.noteOns (snd r)
  ≡ₚ map Player.noteOn_of
       (Player.due tracks active (Player.scheduledTill t) (Player.scheduledTill (fst r))).
Proof.
  intros Hplay Hdur Hasc. cbv zeta. revert t Hplay Hdur Hasc.
  induction nows as [|now rest IH]; intros t Hplay Hdur Hasc.
  - cbn [Player.frames fst snd map List.last]. split; [done|]. split; [done|].
    assert (Player.due tracks active (Player.scheduledTill t) (Player.scheduledTill t) = [])
      as ->; [|done].
    unfold Player.due. induction tracks as [|track tracks IHt]; [done|].
    cbn [flat_map]. rewrite IHt, app_nil_r. destruct (active _); [|done].
    induction (Midi.notes track) as [|note ns IHn]; [done|].
    cbn [List.filter]. unfold Player.in_window at 1.
    destruct (geb _ _) eqn:E1, (gtb _ _) eqn:E2; cbn [andb]; try exact IHn.
    apply geb_le in E1. apply gtb_lt in E2. lra.
  - cbn [Player.frames]. apply Forall_cons in Hdur as [Hnow Hrest].
    destruct (loop_playing tracks active now t Hplay Hnow) as [Ht1 Hon].
    destruct (Player.loop (Some tracks) active now t) as [t1 effs1].
    cbn [fst snd] in Ht1, Hon.
    assert (Player.limit t1 = Player.limit t) as Hlim by (by subst t1).
    assert (Player.scheduledTill t <= Player.limit t now /\
            Player.ascending (Player.limit t now :: map (Player.limit t) rest))
      as [Hle Hasc1] by exact Hasc.
    specialize (IH t1).
    destruct IH as (IH1 & IH2 & IH3).
    { by subst t1. }
    { by subst t1. }
    { rewrite Hlim. by subst t1. }
    destruct (Player.frames (Some tracks) active t1 rest) as [t2 effs2].
    cbn [fst snd] in *. split; [done|].
    assert (Player.scheduledTill t1 = Player.limit t now) as Hs1 by (by subst t1).
    rewrite Hlim, Hs1 in IH2.
    assert (Player.scheduledTill t2
            = List.last (map (Player.limit t) (now :: rest)) (Player.scheduledTill t))
      as Hlast.
    { rewrite IH2. cbn [map]. by rewrite last_cons_default. }
    split; [exact Hlast|].
    rewrite noteOns_app, Hon, IH3, Hs1, <- map_app.
    apply Permutation_map, due_split; [done|].
    rewrite IH2. by apply ascending_le_last.
Qed.

Lemma notes_scheduled_once_witness :
  let tracks := [Midi.mkTrack None [Midi.mkNote 0 0.5 60 0.8; Midi.mkNote 0.05 0.5 64 0.8;
                                    Midi.mkNote 0.2 0.5 67 0.8; Midi.mkNote 1 0.5 72 0.8];
                 Midi.mkTrack (Some 9) [Midi.mkNote 0 0.1 36 1]] in
  let active := fun ch => eqb ch 0 in
  let t := Player.mkTransport true 10 0 0 5 in
  let r := Player.frames (Some tracks) active t [10; 10.05; 10.2] in
  Player.isPlaying (fst r) = true /\
  Player.scheduledTill (fst r)
  = List.last (map (Player.limit t) [10; 10.05; 10.2]) (Player.scheduledTill t) /\
  Player.noteOns (snd r)
  ≡ₚ map Player.noteOn_of
       (Player.due tracks active (Player.scheduledTill t) (Player.scheduledTill (fst r))).
Proof.
  apply (notes_scheduled_once
           [Midi.mkTrack None [Midi.mkNote 0 0.5 60 0.8; Midi.mkNote 0.05 0.5 64 0.8;
                               Midi.mkNote 0.2 0.5 67 0.8; Midi.mkNote 1 0.5 72 0.8];
            Midi.mkTrack (Some 9) [Midi.mkNote 0 0.1 36 1]]
           (fun ch => eqb ch 0) (Player.mkTransport true 10 0 0 5) [10; 10.05; 10.2]).
  - reflexivity.
  - repeat constructor; cbn [Player.startTime Player.duration]; lra.
  - cbn [Player.ascending map Player.scheduledTill]. unfold Player.limit, Player.playbackLookahead.
    cbn [Player.startTime]. repeat split; lra.
Defined.

(** X29.  Timers are set for due notes only, and in pairs.  In a frame
    of a playing transport, every note-on timer belongs to a note of a
    playing channel whose time is inside the frame's window, from
    [scheduledTill] up to but not including the look-ahead limit; it
    carries that note's number, 127 times its velocity and its track's
    channel (0 if the track has none); its delay is never negative;
    and the same frame sets the note-off timer for the same note and
    channel, with the delay of the note-on plus the note's duration in
    milliseconds. *)
Theorem timer_belongs_to_due_note tracks active now t d n vel ch :
  Player.isPlaying t = true ->
  now - Player.startTime t <= Player.duration t ->
  In (Player.SetTimeout d (Player.NoteOn n vel ch))
     (snd (Player.loop (Some tracks) active now t)) ->
  exists track note,
    In track tracks /\ In note (Midi.notes track) /\
    ch = default 0 (Midi.channel track) /\ active ch = true /\
    n = Midi.midi note /\ vel = Midi.velocity note * 127 /\
    geb (Midi.time note) (Player.scheduledTill t) = true /\
    gtb (now - Player.startTime t + Player.playbackLookahead) (Midi.time note) = true /\
    0 <= d /\
    In (Player.SetTimeout (d + Midi.duration note * 1000) (Player.NoteOff n ch))
       (snd (Player.loop (Some tracks) active now t)).
Proof.
  intros Hplay Hdur. unfold Player.loop. rewrite Hplay. cbn [negb].
  rewrite (proj2 (gtb_le _ _) Hdur). cbn [snd]. intros Hin.
  apply in_flat_map in Hin as (track & Htrack & Hin).
  apply in_flat_map in Hin as (note & Hnote & Hin). cbv zeta in Hin.
  destruct (active (default 0 (Midi.channel track))) eqn:Hact; cbn [negb] in Hin; [|done].
  destruct (geb (Midi.time note) (Player.scheduledTill t)) eqn:Hlo; cbn [andb] in Hin; [|done].
  destruct (gtb (now - Player.startTime t + Player.playbackLookahead) (Midi.time note))
    eqn:Hhi; [|done].
  unfold Player.schedule in Hin. destruct Hin as [Hin|[Hin|[]]]; [|discriminate Hin].
  injection Hin as Hd Hn Hvel Hch.
  exists track, note.
  split; [done|]. split; [done|]. split; [done|]. split; [by rewrite <- Hch|].
  split; [done|]. split; [done|]. split; [done|]. split; [done|]. rewrite <- Hd.
  split; [apply Q.le_max_l|].
  apply in_flat_map. exists track. split; [done|].
  apply in_flat_map. exists note. split; [done|]. cbv zeta.
  rewrite Hact. cbn [negb]. rewrite Hlo, Hhi. cbn [andb].
  unfold Player.schedule. right. left. by rewrite <- Hn, <- Hch.
Qed.

Lemma timer_belongs_to_due_note_witness :
  let tracks := [Midi.mkTrack None [Midi.mkNote 0.05 0.5 64 0.8]] in
  let active := fun ch => eqb ch 0 in
  let t := Player.mkTransport true 10 0 0 5 in
  let d := Qmax 0 ((10 + 0.05 - 10) * 1000) in
  exists track note,
    In track tracks /\ In note (Midi.notes track) /\
    0 = default 0 (Midi.channel track) /\ active 0 = true /\
    64 = Midi.midi note /\ 0.8 * 127 = Midi.velocity note * 127 /\
    geb (Midi.time note) (Player.scheduledTill t) = true /\
    gtb (10 - Player.startTime t + Player.playbackLookahead) (Midi.time note) = true /\
    0 <= d /\
    In (Player.SetTimeout (d + Midi.duration note * 1000) (Player.NoteOff 64 0))
       (snd (Player.loop (Some tracks) active 10 t)).
Proof.
  apply (timer_belongs_to_due_note [Midi.mkTrack None [Midi.mkNote 0.05 0.5 64 0.8]]
           (fun ch => eqb ch 0) 10 (Player.mkTransport true 10 0 0 5)
           (Qmax 0 ((10 + 0.05 - 10) * 1000)) 64 (0.8 * 127) 0).
  - reflexivity.
  - cbn [Player.startTime Player.duration]. lra.
  - left. reflexivity.
Defined.

(** * The piano roll *)

Lemma Qmax_inject_Z x y : Qmax (inject_Z x) (inject_Z y) = inject_Z (Z.max x y).
Proof.
  destruct (Z.le_ge_cases x y) as [H|H].
  - rewrite Z.max_r by done.
    unfold Qmax, GenericMinMax.gmax.
    destruct (inject_Z x ?= inject_Z y) eqn:E; try reflexivity.
    + apply Qeq_alt in E. rewrite inject_Z_injective in E. by subst.
    + apply Qgt_alt in E. rewrite <- Zlt_Qlt in E. lia.
  - rewrite Z.max_l by done.
    unfold Qmax, GenericMinMax.gmax.
    destruct (inject_Z x ?= inject_Z y) eqn:E; try reflexivity.
    apply Qlt_alt in E. rewrite <- Zlt_Qlt in E. lia.
Qed.

Lemma Qmin_inject_Z x y : Qmin (inject_Z x) (inject_Z y) = inject_Z (Z.min x y).
Proof.
  destruct (Z.le_ge_cases x y) as [H|H].
  - rewrite Z.min_l by done.
    unfold Qmin, GenericMinMax.gmin.
    destruct (inject_Z x ?= inject_Z y) eqn:E; try reflexivity.
    apply Qgt_alt in E. rewrite <- Zlt_Qlt in E. lia.
  - rewrite Z.min_r by done.
    unfold Qmin, GenericMinMax.gmin.
    destruct (inject_Z x ?= inject_Z y) eqn:E; try reflexivity.
    + apply Qeq_alt in E. rewrite inject_Z_injective in E. by subst.
    + apply Qlt_alt in E. rewrite <- Zlt_Qlt in E. lia.
Qed.

Lemma setNoteHeight_whole p z :
  PianoRoll.setNoteHeight p (inject_Z z)
  = {| PianoRoll.noteHeight := inject_Z (Z.max 4 (Z.min 50 z));
       PianoRoll.canvas_height := inject_Z (128 * Z.max 4 (Z.min 50 z)) |}.
Proof.
  unfold PianoRoll.setNoteHeight, PianoRoll.canvas_set_height.
  change 50 with (inject_Z 50). change 4 with (inject_Z 4).
  rewrite Qmin_inject_Z, Qmax_inject_Z. f_equal.
  change 128 with (inject_Z 128). rewrite <- inject_Z_mult.
  by rewrite Qfloor_Z.
Qed.

Lemma piano_roll_whole ops :
  Forall PianoRoll.whole_op ops ->
  exists nh : Z,
    (4 <= nh <= 50)%Z /\
    PianoRoll.run PianoRoll.new ops
    = {| PianoRoll.noteHeight := inject_Z nh;
         PianoRoll.canvas_height := inject_Z (128 * nh) |}.
Proof.
  intros Hops. unfold PianoRoll.run.
  assert (exists nh : Z, (4 <= nh <= 50)%Z /\
            PianoRoll.new = {| PianoRoll.noteHeight := inject_Z nh;
                               PianoRoll.canvas_height := inject_Z (128 * nh) |}) as Hnew.
  { exists 4%Z. split; [lia|]. reflexivity. }
  revert Hnew. generalize PianoRoll.new.
  induction Hops as [|o ops Ho _ IH]; intros q Hq; [done|].
  cbn [foldl]. apply IH. destruct Hq as (nh & Hnh & ->).
  destruct o as [h| |]; cbn [PianoRoll.apply].
  - destruct Ho as [z ->]. rewrite setNoteHeight_whole. eexists. split; [|reflexivity]. lia.
  - unfold PianoRoll.zoomIn. cbn [PianoRoll.noteHeight].
    change 4 with (inject_Z 4). rewrite <- inject_Z_plus, setNoteHeight_whole.
    eexists. split; [|reflexivity]. lia.
  - unfold PianoRoll.zoomOut. cbn [PianoRoll.noteHeight].
    change 4 with (inject_Z 4). unfold Qminus. rewrite <- inject_Z_opp, <- inject_Z_plus.
    rewrite setNoteHeight_whole. eexists. split; [|reflexivity]. lia.
Qed.

(** X30.  Every note row fits on the piano roll.  After any sequence of
    [zoomIn], [zoomOut] and [setNoteHeight] with whole numbers as
    arguments, the row height is a whole number between 4 and 50, the
    canvas is exactly 128 rows high, and for each of the notes 0 to
    127 the rectangle that [draw] fills, [noteHeight - 1] high from
    its top at [(127 - m) * noteHeight], starts at or below the top of
    the canvas and ends above its bottom. *)
Theorem piano_roll_rows_fit ops (m : nat) :
  Forall PianoRoll.whole_op ops -> (m <= 127)%nat ->
  let p := PianoRoll.run PianoRoll.new ops in
  let y := PianoRoll.rowY p (inject_Z (Z.of_nat m)) in
  exists nh : Z,
    (4 <= nh <= 50)%Z /\
    PianoRoll.noteHeight p = inject_Z nh /\
    PianoRoll.canvas_height p = inject_Z (128 * nh) /\
    y == inject_Z ((127 - Z.of_nat m) * nh) /\
    0 <= y /\
    y + (PianoRoll.noteHeight p - 1) < PianoRoll.canvas_height p.
Proof.
  intros Hops Hm p y. subst y p.
  destruct (piano_roll_whole ops Hops) as (nh & Hnh & ->).
  exists nh. unfold PianoRoll.rowY. cbn [PianoRoll.noteHeight PianoRoll.canvas_height].
  split; [done|]. split; [done|]. split; [done|].
  assert (127 - inject_Z (Z.of_nat m) == inject_Z (127 - Z.of_nat m)) as Hsub.
  { unfold Qminus. change 127 with (inject_Z 127).
    by rewrite <- inject_Z_opp, <- inject_Z_plus. }
  rewrite Hsub, <- inject_Z_mult.
  split; [reflexivity|].
  split; [change 0 with (inject_Z 0); rewrite <- Zle_Qle; nia|].
  assert (inject_Z ((127 - Z.of_nat m) * nh) + inject_Z nh <= inject_Z (128 * nh)) as Hfit.
  { rewrite <- inject_Z_plus, <- Zle_Qle. nia. }
  lra.
Qed.

Lemma piano_roll_rows_fit_witness :
  let p := PianoRoll.run PianoRoll.new
             [PianoRoll.ZoomIn; PianoRoll.SetNoteHeight 49; PianoRoll.ZoomIn;
              PianoRoll.ZoomOut] in
  let y := PianoRoll.rowY p (inject_Z (Z.of_nat 60)) in
  exists nh : Z,
    (4 <= nh <= 50)%Z /\
    PianoRoll.noteHeight p = inject_Z nh /\
    PianoRoll.canvas_height p = inject_Z (128 * nh) /\
    y == inject_Z ((127 - Z.of_nat 60) * nh) /\
    0 <= y /\
    y + (PianoRoll.noteHeight p - 1) < PianoRoll.canvas_height p.
Proof.
  apply (piano_roll_rows_fit
           [PianoRoll.ZoomIn; PianoRoll.SetNoteHeight 49; PianoRoll.ZoomIn;
            PianoRoll.ZoomOut] 60).
  - repeat constructor. by exists 49%Z.
  - lia.
Defined.
